(** * celery_prometheus_exporter: a shallow embedding and its properties

    The development follows [celery_prometheus_exporter.py].  The exporter
    is a thin layer over three libraries; the part of each library that the
    exporter calls is modelled first, restricted to what the exporter can
    observe:

    - [celery.states] and [celery.events.state]: the state constants, the
      event-to-state table, [Task.event] and [State._event] with its task
      heap and its lookup of the parent task;
    - [kombu.utils.functional.LRUCache], the type of [State.tasks];
    - [prometheus_client]: labelled gauges and histograms.

    Python dictionaries with a fixed set of keys read by the code (events,
    decoded queue messages) are records of optional fields: [None] is an
    absent key, and reading it raises [KeyError]. *)

From Stdlib Require Import PrimFloat ZArith Ascii String List.
From stdpp Require Import gmap gmultiset strings list fin_maps fin_sets.

Local Open Scope Z_scope.

(** ** Exceptions and results *)

Inductive exn :=
  | KeyError
  | AttributeError
  | IndexError
  | StopIteration
  | ValueError
  | TypeError
  | BrokerError.

Global Instance exn_eq_dec : EqDecision exn.
Proof. solve_decision. Defined.

Inductive result (A : Type) :=
  | Ok (a : A)
  | Raise (e : exn).
Arguments Ok {A} a.
Arguments Raise {A} e.

(** ** celery.states *)

Inductive state :=
  | PENDING
  | RECEIVED
  | STARTED
  | SUCCESS
  | FAILURE
  | REVOKED
  | REJECTED
  | RETRY.

Global Instance state_eq_dec : EqDecision state.
Proof. solve_decision. Defined.

Definition state_to_nat (s : state) : nat :=
  match s with
  | PENDING => 0 | RECEIVED => 1 | STARTED => 2 | SUCCESS => 3
  | FAILURE => 4 | REVOKED => 5 | REJECTED => 6 | RETRY => 7
  end%nat.

Definition state_of_nat (n : nat) : option state :=
  match n with
  | 0 => Some PENDING | 1 => Some RECEIVED | 2 => Some STARTED
  | 3 => Some SUCCESS | 4 => Some FAILURE | 5 => Some REVOKED
  | 6 => Some REJECTED | 7 => Some RETRY | _ => None
  end%nat.

Global Program Instance state_countable : Countable state :=
  inj_countable state_to_nat state_of_nat _.
Next Obligation. by intros []. Qed.

(** [READY_STATES = frozenset({SUCCESS, FAILURE, REVOKED})] *)
Definition READY_STATES : gset state := {[ SUCCESS; FAILURE; REVOKED ]}.

(** [ALL_STATES = frozenset({PENDING, RECEIVED, STARTED, SUCCESS, FAILURE,
    RETRY, REVOKED})] *)
Definition ALL_STATES : gset state :=
  {[ PENDING; RECEIVED; STARTED; SUCCESS; FAILURE; RETRY; REVOKED ]}.

(** [PRECEDENCE]: the list of states, highest precedence first; [None]
    stands for every state that is not listed. *)
Definition PRECEDENCE : list (option state) :=
  [ Some SUCCESS; Some FAILURE; None; Some REVOKED; Some STARTED;
    Some RECEIVED; Some REJECTED; Some RETRY; Some PENDING ].

Fixpoint index_of (x : option state) (l : list (option state)) : option nat :=
  match l with
  | [] => None
  | y :: l' => if decide (x = y) then Some O else S <$> index_of x l'
  end.

Definition NONE_PRECEDENCE : nat := default O (index_of None PRECEDENCE).

(** [precedence(state)]: the index in [PRECEDENCE]; a lower index is a
    higher precedence. *)
Definition precedence (s : state) : nat :=
  default NONE_PRECEDENCE (index_of (Some s) PRECEDENCE).

(** ** celery.events *)

(** An event as the receiver hands it to a handler: a dictionary, seen
    through the keys that the exporter and [State._event] read.  The key
    [parent_id] is sent with the value [None] for a task without a parent:
    the outer option is the key, the inner one its value. *)
Record event := {
  evt_type : option string;
  evt_uuid : option string;
  evt_hostname : option string;
  evt_timestamp : option float;
  evt_local_received : option float;
  evt_clock : option Z;
  evt_name : option string;
  evt_runtime : option float;
  evt_parent_id : option (option string);
}.

(** [group_from(type) = type.split('-', 1)[0]] *)
Fixpoint group_from (ty : string) : string :=
  match ty with
  | EmptyString => EmptyString
  | String c rest =>
      if Ascii.eqb c "-"%char then EmptyString else String c (group_from rest)
  end.

(** A string slice [s[n:]]. *)
Fixpoint slice_from (n : nat) (s : string) : string :=
  match n, s with
  | O, _ => s
  | S n', String _ rest => slice_from n' rest
  | S _, EmptyString => EmptyString
  end.

(** [celery.events.state.TASK_EVENT_TO_STATE] *)
Definition TASK_EVENT_TO_STATE : gmap string state :=
  list_to_map
    [ ("sent", PENDING); ("received", RECEIVED); ("started", STARTED);
      ("failed", FAILURE); ("retried", RETRY); ("succeeded", SUCCESS);
      ("revoked", REVOKED); ("rejected", REJECTED) ]%string.

(** ** celery.events.state.Task

    The attributes of a task record that the exporter and [State._event]
    read: [state], [name], [local_received] and [parent_id].  A fresh [Task]
    has the class defaults [state = PENDING], [name = None] and
    [parent_id = None], and no [local_received] attribute until an event
    sets it. *)
Record Task := {
  task_state : state;
  task_name : option string;
  task_local_received : option float;
  task_parent_id : option string;
}.

Definition Task_new : Task :=
  {| task_state := PENDING; task_name := None; task_local_received := None;
     task_parent_id := None |}.

(** [Task.merge_rules]: for a late [RECEIVED] event only a few fields are
    kept; of the attributes modelled here, [name] and [parent_id] are among
    them and [local_received] is not. *)
Definition merge_keeps_local_received (st : state) : bool :=
  if decide (st = RECEIVED) then false else true.

Definition update_name (evt : event) (t : Task) : Task :=
  match evt_name evt with
  | Some n => {| task_state := task_state t; task_name := Some n;
                 task_local_received := task_local_received t;
                 task_parent_id := task_parent_id t |}
  | None => t
  end.

Definition update_parent_id (evt : event) (t : Task) : Task :=
  match evt_parent_id evt with
  | Some p => {| task_state := task_state t; task_name := task_name t;
                 task_local_received := task_local_received t;
                 task_parent_id := p |}
  | None => t
  end.

Definition update_local_received (evt : event) (t : Task) : Task :=
  match evt_local_received evt with
  | Some r => {| task_state := task_state t; task_name := task_name t;
                 task_local_received := Some r;
                 task_parent_id := task_parent_id t |}
  | None => t
  end.

Definition update_state (st : state) (t : Task) : Task :=
  {| task_state := st; task_name := task_name t;
     task_local_received := task_local_received t;
     task_parent_id := task_parent_id t |}.

(** [Task.event(type_, timestamp, local_received, fields)], with [st] the
    state [TASK_EVENT_TO_STATE] gives for [type_] and [fields] the event.
    An event whose state logically happens before the current one is
    merged (the state is kept); otherwise the state is overwritten.  In
    both cases the fields of the event are copied onto the task. *)
Definition Task_event (st : state) (evt : event) (t : Task) : Task :=
  if bool_decide (st ≠ RETRY) && bool_decide (task_state t ≠ RETRY)
     && bool_decide (precedence (task_state t) < precedence st)%nat
  then
    if merge_keeps_local_received st
    then update_local_received evt (update_parent_id evt (update_name evt t))
    else update_parent_id evt (update_name evt t)
  else update_local_received evt
         (update_parent_id evt (update_name evt (update_state st t))).

(** ** kombu.utils.functional.LRUCache

    [data] is the [OrderedDict]: an association list without repeated
    keys, least recently used first.  [limit] is the capacity; a limit that
    is false in Python (zero) means no bound. *)
Record LRUCache := {
  data : list (string * Task);
  limit : Z;
}.

Fixpoint od_lookup (k : string) (l : list (string * Task)) : option Task :=
  match l with
  | [] => None
  | (k', v) :: l' => if decide (k = k') then Some v else od_lookup k l'
  end.

(** [del d[k]] *)
Definition od_delete (k : string) (l : list (string * Task))
  : list (string * Task) :=
  filter (λ kv, kv.1 ≠ k) l.

(** [d[k] = v]: an existing key keeps its position, a new key goes last. *)
Fixpoint od_set (k : string) (v : Task) (l : list (string * Task))
  : list (string * Task) :=
  match l with
  | [] => [(k, v)]
  | (k', v') :: l' =>
      if decide (k = k') then (k, v) :: l' else (k', v') :: od_set k v l'
  end.

(** [LRUCache.__setitem__]:
    [if self.limit and len(self.data) >= self.limit:
         self.data.pop(next(iter(self.data)))
     self.data[key] = value] *)
Definition LRUCache_setitem (k : string) (v : Task) (c : LRUCache)
  : result unit * LRUCache :=
  if bool_decide (limit c ≠ 0) && bool_decide (limit c ≤ Z.of_nat (length (data c)))
  then
    match data c with
    | [] => (Raise StopIteration, c)
    | _ :: rest => (Ok tt, {| data := od_set k v rest; limit := limit c |})
    end
  else (Ok tt, {| data := od_set k v (data c); limit := limit c |}).

(** [LRUCache.__getitem__]: [value = self[key] = self.data.pop(key)]. *)
Definition LRUCache_getitem (k : string) (c : LRUCache)
  : result Task * LRUCache :=
  match od_lookup k (data c) with
  | None => (Raise KeyError, c)
  | Some v =>
      match LRUCache_setitem k v
              {| data := od_delete k (data c); limit := limit c |} with
      | (Ok _, c') => (Ok v, c')
      | (Raise e, c') => (Raise e, c')
      end
  end.

(** [MutableMapping.pop(key)]: [value = self[key]; del self[key]]. *)
Definition LRUCache_pop (k : string) (c : LRUCache)
  : result Task * LRUCache :=
  match LRUCache_getitem k c with
  | (Ok v, c') => (Ok v, {| data := od_delete k (data c'); limit := limit c' |})
  | (Raise e, c') => (Raise e, c')
  end.

(** [LRUCache.values()]: the values in cache order, read without touching
    the order. *)
Definition LRUCache_values (c : LRUCache) : list Task := (data c).*2.

(** ** prometheus_client

    A labelled gauge is a finite map from label values to the value of the
    child; a child exists once [labels(...)] has been called for it.
    Counts are integers.  A histogram is kept as the list of its
    observations, in order. *)

Definition gauge_value `{Countable K} (g : gmap K Z) (labels : K) : Z :=
  default 0 (g !! labels).

(** [g.labels(...).inc()] *)
Definition gauge_inc `{Countable K} (labels : K) (g : gmap K Z) : gmap K Z :=
  <[labels := gauge_value g labels + 1]> g.

(** [g.labels(...).set(v)] *)
Definition gauge_set `{Countable K} (labels : K) (v : Z) (g : gmap K Z)
  : gmap K Z :=
  <[labels := v]> g.

Definition observations `{Countable K} (h : gmap K (list float)) (labels : K)
  : list float :=
  default [] (h !! labels).

(** [h.labels(...).observe(x)] *)
Definition histogram_observe `{Countable K} (labels : K) (x : float)
    (h : gmap K (list float)) : gmap K (list float) :=
  <[labels := observations h labels ++ [x]]> h.

(** [str(x)] for a task name used as a label value. *)
Definition str (name : option string) : string := default "None"%string name.

(** The module-level metrics of the exporter. *)
Record metrics := {
  TASKS : gmap state Z;
  TASKS_NAME : gmap (state * string) Z;
  TASKS_RUNTIME : gmap string (list float);
  LATENCY : list float;
  WORKERS : Z;
  QUEUE_SIZE : gmap string Z;
  QUEUE_TASKS : gmap (string * string) Z;
}.

Definition metrics_init : metrics :=
  {| TASKS := ∅; TASKS_NAME := ∅; TASKS_RUNTIME := ∅; LATENCY := [];
     WORKERS := 0; QUEUE_SIZE := ∅; QUEUE_TASKS := ∅ |}.

(** ** The state of the exporter *)

(** The attributes of [MonitorThread] that its methods use.
    [_state_tasks] is [self._state.tasks].  [_state_taskheap] stands for
    [self._state._taskheap], the list of the events kept by [State._event]:
    the list is kept through its length, because nothing that the exporter
    runs reads an entry of it, and it acts on what follows only through
    [pop(0)] and [taskheap[-1]], which raise [IndexError] when it is
    empty. *)
Record MonitorThread := {
  _state_tasks : LRUCache;
  _state_taskheap : nat;
  _known_states : gset state;
  _known_states_names : gset (state * string);
}.

Record world := {
  thread : MonitorThread;
  prom : metrics;
}.

(** [MonitorThread.__init__] next to fresh metrics. *)
Definition world_init (max_tasks_in_memory : Z) : world :=
  {| thread := {| _state_tasks := {| data := []; limit := max_tasks_in_memory |};
                  _state_taskheap := 0;
                  _known_states := ∅; _known_states_names := ∅ |};
     prom := metrics_init |}.

Definition tasks (w : world) : LRUCache := _state_tasks (thread w).

Definition set_tasks (c : LRUCache) (w : world) : world :=
  {| thread := {| _state_tasks := c;
                  _state_taskheap := _state_taskheap (thread w);
                  _known_states := _known_states (thread w);
                  _known_states_names := _known_states_names (thread w) |};
     prom := prom w |}.

Definition set_taskheap (n : nat) (w : world) : world :=
  {| thread := {| _state_tasks := _state_tasks (thread w);
                  _state_taskheap := n;
                  _known_states := _known_states (thread w);
                  _known_states_names := _known_states_names (thread w) |};
     prom := prom w |}.

Definition set_known_states (X : gset state) (w : world) : world :=
  {| thread := {| _state_tasks := _state_tasks (thread w);
                  _state_taskheap := _state_taskheap (thread w);
                  _known_states := X;
                  _known_states_names := _known_states_names (thread w) |};
     prom := prom w |}.

Definition set_known_states_names (X : gset (state * string)) (w : world)
  : world :=
  {| thread := {| _state_tasks := _state_tasks (thread w);
                  _state_taskheap := _state_taskheap (thread w);
                  _known_states := _known_states (thread w);
                  _known_states_names := X |};
     prom := prom w |}.

Definition set_prom (m : metrics) (w : world) : world :=
  {| thread := thread w; prom := m |}.

Definition set_TASKS (g : gmap state Z) (m : metrics) : metrics :=
  {| TASKS := g; TASKS_NAME := TASKS_NAME m; TASKS_RUNTIME := TASKS_RUNTIME m;
     LATENCY := LATENCY m; WORKERS := WORKERS m; QUEUE_SIZE := QUEUE_SIZE m;
     QUEUE_TASKS := QUEUE_TASKS m |}.

Definition set_TASKS_NAME (g : gmap (state * string) Z) (m : metrics)
  : metrics :=
  {| TASKS := TASKS m; TASKS_NAME := g; TASKS_RUNTIME := TASKS_RUNTIME m;
     LATENCY := LATENCY m; WORKERS := WORKERS m; QUEUE_SIZE := QUEUE_SIZE m;
     QUEUE_TASKS := QUEUE_TASKS m |}.

Definition set_TASKS_RUNTIME (h : gmap string (list float)) (m : metrics)
  : metrics :=
  {| TASKS := TASKS m; TASKS_NAME := TASKS_NAME m; TASKS_RUNTIME := h;
     LATENCY := LATENCY m; WORKERS := WORKERS m; QUEUE_SIZE := QUEUE_SIZE m;
     QUEUE_TASKS := QUEUE_TASKS m |}.

Definition set_LATENCY (h : list float) (m : metrics) : metrics :=
  {| TASKS := TASKS m; TASKS_NAME := TASKS_NAME m;
     TASKS_RUNTIME := TASKS_RUNTIME m; LATENCY := h; WORKERS := WORKERS m;
     QUEUE_SIZE := QUEUE_SIZE m; QUEUE_TASKS := QUEUE_TASKS m |}.

Definition set_WORKERS (v : Z) (m : metrics) : metrics :=
  {| TASKS := TASKS m; TASKS_NAME := TASKS_NAME m;
     TASKS_RUNTIME := TASKS_RUNTIME m; LATENCY := LATENCY m; WORKERS := v;
     QUEUE_SIZE := QUEUE_SIZE m; QUEUE_TASKS := QUEUE_TASKS m |}.

Definition set_QUEUE_SIZE (g : gmap string Z) (m : metrics) : metrics :=
  {| TASKS := TASKS m; TASKS_NAME := TASKS_NAME m;
     TASKS_RUNTIME := TASKS_RUNTIME m; LATENCY := LATENCY m;
     WORKERS := WORKERS m; QUEUE_SIZE := g; QUEUE_TASKS := QUEUE_TASKS m |}.

Definition set_QUEUE_TASKS (g : gmap (string * string) Z) (m : metrics)
  : metrics :=
  {| TASKS := TASKS m; TASKS_NAME := TASKS_NAME m;
     TASKS_RUNTIME := TASKS_RUNTIME m; LATENCY := LATENCY m;
     WORKERS := WORKERS m; QUEUE_SIZE := QUEUE_SIZE m; QUEUE_TASKS := g |}.

(** ** Statements that may raise: a state and exception monad

    A statement takes the state to an outcome and the state it leaves; a
    raised exception keeps every mutation made before it, as in Python. *)

Definition M (A : Type) : Type := world → result A * world.

Global Instance M_ret : MRet M := λ A a w, (Ok a, w).

Global Instance M_bind : MBind M := λ A B f m w,
  match m w with
  | (Ok a, w') => f a w'
  | (Raise e, w') => (Raise e, w')
  end.

Definition raise {A} (e : exn) : M A := λ w, (Raise e, w).

Definition modify (f : world → world) : M unit := λ w, (Ok tt, f w).

Definition modify_prom (f : metrics → metrics) : M unit :=
  modify (λ w, set_prom (f (prom w)) w).

(** [try: body  except <handles>: handler] *)
Definition try_except {A} (body : M A) (handles : exn → bool) (handler : M A)
  : M A := λ w,
  match body w with
  | (Ok a, w') => (Ok a, w')
  | (Raise e, w') => if handles e then handler w' else (Raise e, w')
  end.

(** [try: body  except <handles>: handler  else: orelse]: the [else] suite
    runs after a body that did not raise, outside the [try]. *)
Definition try_except_else {A B} (body : M A) (handles : exn → bool)
    (handler : M B) (orelse : A → M B) : M B := λ w,
  match body w with
  | (Ok a, w') => orelse a w'
  | (Raise e, w') => if handles e then handler w' else (Raise e, w')
  end.

(** [d[key]] on a dictionary seen as optional fields. *)
Definition getitem {A} (field : option A) : M A :=
  match field with
  | Some a => mret a
  | None => raise KeyError
  end.

(** [obj.attr] for an attribute that may not have been set. *)
Definition getattr {A} (field : option A) : M A :=
  match field with
  | Some a => mret a
  | None => raise AttributeError
  end.

(** An operation of the cache, run on [self._state.tasks]. *)
Definition on_tasks {A} (op : LRUCache → result A * LRUCache) : M A := λ w,
  let '(r, c) := op (tasks w) in (r, set_tasks c w).

(** [for x in l: body] with the local variables of the loop in [acc]. *)
Fixpoint for_each {A S} (body : S → A → M S) (acc : S) (l : list A) : M S :=
  match l with
  | [] => mret acc
  | x :: l' => acc' ← body acc x; for_each body acc' l'
  end.

(** ** celery.events.state.State._event

    The dispatcher, for an event of the task group whose subject is
    mapped to [st] by [TASK_EVENT_TO_STATE] (the exporter has done the same
    lookup before it calls [_event]).  The statements follow the source in
    their order:

    - the five fields of [tfields] are read first;
    - the task is looked up directly in [tasks.data], which avoids the LRU
      update, or created and stored through [LRUCache.__setitem__];
    - the event is added to the task heap, after the oldest entry has been
      removed when the heap holds [max_tasks_in_memory * heap_multiplier]
      entries;
    - [Task.event] updates the stored object in place;
    - the parent of the task, when the task has one, is looked up through
      [LRUCache.__getitem__], which moves it to the recent end.

    The bookkeeping of the workers (a second cache and the heartbeats of
    the worker) and the indexes by type and by worker are left out: they
    read the hostname and the two timestamps of the event, which are the
    finite floats of [time.time()], and write neither [tasks] nor the
    heap. *)

Definition is_KeyError (e : exn) : bool := bool_decide (e = KeyError).

(** [State.heap_multiplier] *)
Definition heap_multiplier : Z := 4.

(** [task, task_created = get_task(uuid), False], and on [KeyError]
    [task = tasks[uuid] = Task(uuid, cluster_state=self)]. *)
Definition get_or_create_task (uuid : string) : M Task := λ w,
  match od_lookup uuid (data (tasks w)) with
  | Some t => (Ok t, w)
  | None => (_ ← on_tasks (LRUCache_setitem uuid Task_new); mret Task_new) w
  end.

(** [th_pop(0)] *)
Definition th_pop : M unit := λ w,
  match _state_taskheap (thread w) with
  | O => (Raise IndexError, w)
  | S n => (Ok tt, set_taskheap n w)
  end.

(** [if heaps and timetup > taskheap[-1]: th_append(timetup)]
    [else: insort(taskheap, timetup)], with [heaps] the length read before
    [th_pop]: the heap gains one entry either way. *)
Definition th_insert (heaps : nat) : M unit := λ w,
  match heaps, _state_taskheap (thread w) with
  | S _, O => (Raise IndexError, w)
  | _, n => (Ok tt, set_taskheap (S n) w)
  end.

(** The event is added to the task heap:
    [heaps = len(taskheap)]
    [if heaps + 1 > max_events_in_heap: th_pop(0)]
    and then the insertion, where [max_events_in_heap] is
    [max_tasks_in_memory * heap_multiplier]. *)
Definition taskheap_add : M unit :=
  heaps ← (λ w, (Ok (_state_taskheap (thread w)), w));
  max_events_in_heap ← (λ w, (Ok (limit (tasks w) * heap_multiplier), w));
  (if decide (max_events_in_heap < Z.of_nat heaps + 1) then th_pop
   else mret tt);;
  th_insert heaps.

(** A value that is true in Python, for a string or [None]. *)
Definition truthy (s : option string) : option string :=
  match s with
  | Some s => if decide (s = ""%string) then None else Some s
  | None => None
  end.

(** [if task.parent_id:]
    [    try: parent_task = self.tasks[task.parent_id]]
    [    except KeyError: self._add_pending_task_child(task)]
    [    else: parent_task.children.add(task)] *)
Definition parent_lookup (task : Task) : M unit :=
  match truthy (task_parent_id task) with
  | Some parent_id =>
      try_except (_ ← on_tasks (LRUCache_getitem parent_id); mret tt)
                 is_KeyError
                 (mret tt)
  | None => mret tt
  end.

Definition State_event (st : state) (evt : event) : M unit :=
  uuid ← getitem (evt_uuid evt);
  _ ← getitem (evt_hostname evt);
  _ ← getitem (evt_timestamp evt);
  _ ← getitem (evt_local_received evt);
  _ ← getitem (evt_clock evt);
  task ← get_or_create_task uuid;
  (* remove oldest event if exceeding the limit *)
  taskheap_add;;
  (* task.event(subject, timestamp, local_received, event): the object
     stored under uuid is updated in place *)
  let task := Task_event st evt task in
  modify (λ w,
    set_tasks {| data := od_set uuid task (data (tasks w));
                 limit := limit (tasks w) |} w);;
  parent_lookup task.

(** ** MonitorThread *)

(** [collections.Counter(iterable)] *)
Definition Counter `{Countable A} (l : list A) : gmultiset A :=
  list_to_set_disj l.

(** [for labels in known: g.labels(...).set(cnt[labels])] *)
Definition set_each `{Countable K} (cnt : gmultiset K) (known : gset K)
    (g : gmap K Z) : gmap K Z :=
  set_fold (λ labels acc, gauge_set labels (Z.of_nat (multiplicity labels cnt)) acc)
           g known.

(** The pairs [(t.state, t.name) for t in tasks.values() if t.name]. *)
Definition state_and_name (t : Task) : option (state * string) :=
  match task_name t with
  | Some n => if decide (n = ""%string) then None else Some (task_state t, n)
  | None => None
  end.

Definition _collect_unready_tasks : M unit :=
  (* count unready tasks by state *)
  modify (λ w,
    let cnt := Counter (task_state <$> LRUCache_values (tasks w)) in
    let known := _known_states (thread w) ∪ dom cnt in
    set_prom (set_TASKS (set_each cnt known (TASKS (prom w))) (prom w))
             (set_known_states known w));;
  (* count unready tasks by state and name *)
  modify (λ w,
    let cnt := Counter (omap state_and_name (LRUCache_values (tasks w))) in
    let known := _known_states_names (thread w) ∪ dom cnt in
    set_prom (set_TASKS_NAME (set_each cnt known (TASKS_NAME (prom w))) (prom w))
             (set_known_states_names known w)).

Definition is_KeyError_or_AttributeError (e : exn) : bool :=
  bool_decide (e = KeyError) || bool_decide (e = AttributeError).

Definition _observe_latency (evt : event) : M unit :=
  try_except_else
    (uuid ← getitem (evt_uuid evt); on_tasks (LRUCache_getitem uuid))
    is_KeyError
    (mret tt)
    (λ prev_evt,
      (* ignore latency if it is a retry *)
      if decide (task_state prev_evt = RECEIVED) then
        received ← getitem (evt_local_received evt);
        prev_received ← getattr (task_local_received prev_evt);
        modify_prom (λ m,
          set_LATENCY (LATENCY m ++ [PrimFloat.sub received prev_received]) m)
      else mret tt).

Definition _incr_ready_task (evt : event) (st : state) : M unit :=
  modify_prom (λ m, set_TASKS (gauge_inc st (TASKS m)) m);;
  try_except
    ((* remove event from list of in-progress tasks *)
     uuid ← getitem (evt_uuid evt);
     event ← on_tasks (LRUCache_pop uuid);
     modify_prom (λ m,
       set_TASKS_NAME (gauge_inc (st, str (task_name event)) (TASKS_NAME m)) m);;
     match evt_runtime evt with
     | Some runtime =>
         modify_prom (λ m,
           set_TASKS_RUNTIME
             (histogram_observe (str (task_name event)) runtime (TASKS_RUNTIME m)) m)
     | None => mret tt
     end)
    is_KeyError_or_AttributeError
    (mret tt).

Definition _collect_tasks (evt : event) (st : state) : M unit :=
  (if decide (st ∈ READY_STATES) then _incr_ready_task evt st
   else (* add event to list of in-progress tasks *) State_event st evt);;
  _collect_unready_tasks.

Definition _process_event (evt : event) : M unit :=
  ty ← getitem (evt_type evt);
  if decide (group_from ty = "task"%string) then
    let evt_state := slice_from 5 ty in
    st ← getitem (TASK_EVENT_TO_STATE !! evt_state);
    (if decide (st = STARTED) then _observe_latency evt else mret tt);;
    _collect_tasks evt st
  else mret tt.

(** ** Module-level functions *)

(** [_reset_metrics(metrics, known_labels=None)]: every sample of
    [metrics.collect()] whose labels are not among [known_labels] is set to
    zero; without [known_labels], every sample is. *)
Definition _reset_metrics `{Countable K} (metrics : gmap K Z)
    (known_labels : option (gset K)) : gmap K Z :=
  foldl (λ acc sample,
           match known_labels with
           | Some known =>
               if decide (sample.1 ∈ known) then acc
               else gauge_set sample.1 0 acc
           | None => gauge_set sample.1 0 acc
           end)
        metrics (map_to_list metrics).

(** A queue descriptor of [active_queues()]. *)
Record queue := {
  queue_name : string;
  queue_routing_key : string;
}.

(** What [app.control.inspect()] answers: for each call, the mapping from
    worker to its reply, in the order of the mapping; [None] when the call
    raises or returns [None] (no worker replied), on which [.values()]
    raises. *)
Record inspect := {
  registered_tasks : option (list (string * list string));
  active_queues : option (list (string * list queue));
}.

Definition setup_metrics (app : inspect) (m : metrics) : metrics :=
  let m := set_WORKERS 0 m in
  match registered_tasks app, active_queues app with
  | Some registered, Some _ =>
      let names : gset string := list_to_set (concat (registered.*2)) in
      set_fold (λ st m,
                  let m := set_TASKS (gauge_set st 0 (TASKS m)) m in
                  set_fold (λ task_name m,
                              set_TASKS_NAME
                                (gauge_set (st, task_name) 0 (TASKS_NAME m)) m)
                           m names)
               m ALL_STATES
  | _, _ =>
      let m := set_TASKS (_reset_metrics (TASKS m) None) m in
      set_TASKS_NAME (_reset_metrics (TASKS_NAME m) None) m
  end.

(** [chunks(l, n)], for a positive [n]. *)
Fixpoint chunks_fuel {A} (fuel : nat) (l : list A) (n : nat) : list (list A) :=
  match fuel, l with
  | O, _ | _, [] => []
  | S fuel', _ => take n l :: chunks_fuel fuel' (drop n l) n
  end.

Definition chunks {A} (l : list A) (n : nat) : list (list A) :=
  chunks_fuel (length l) l n.

(** ** WorkerMonitoringThread *)

(** [update_workers_count], given what [app.control.ping] does: the list
    of replies, or an exception. *)
Definition update_workers_count (ping : result (list string)) (m : metrics)
  : metrics :=
  match ping with
  | Ok replies => set_WORKERS (Z.of_nat (length replies)) m
  | Raise _ => (* logged *) m
  end.

(** ** QueueMonitoringThread *)

(** A queued message after [json.loads]: the header metadata with the
    task-type name, when present. *)
Record headers := { hdr_task : option string }.
Record message := { msg_headers : option headers }.

(** A raw payload, identified with what [json.loads] does on it: the decoded
    message, or [None] when it raises [JSONDecodeError].  The payloads of
    the model are those of a queue of task messages: a payload that
    [json.loads] rejects, or one that decodes to a JSON object whose
    [headers] entry, when present, is an object, and whose [headers.task],
    when present, is a string.  Other JSON values (a number, [null],
    headers that are [null], a task that is a list) are not represented:
    on some of them [get_tasks_stat] raises [TypeError], which it does not
    catch, and what is proved of the queue thread says nothing of them. *)
Definition payload : Type := option message.

(** The replies of the redis pipeline. *)
Inductive reply :=
  | RInt (n : Z)
  | RList (items : list payload).

(** The broker side of the queue thread: the answer to [active_queues()]
    and the redis lists, [None] when the connection fails. *)
Record broker := {
  inspect_queues : option (list (string * list queue));
  redis : option (gmap string (list payload));
}.

Definition get_queue_names (app : broker) : result (list string) :=
  match inspect_queues app with
  | None => Raise AttributeError
  | Some active =>
      Ok (foldl (λ names node,
                   foldl (λ names q, names ++ [queue_name q]) names node)
                [] (active.*2))
  end.

Definition get_queues (app : broker) (names : list string)
  : result (list reply) :=
  match redis app with
  | None => Raise BrokerError
  | Some lists =>
      Ok (foldl (λ pipe name,
                   let l := default [] (lists !! name) in
                   pipe ++ [RInt (Z.of_nat (length l)); RList l])
                [] names)
  end.

Definition get_tasks_stat (tasks : list payload) : gmap string Z :=
  foldl (λ name2count task,
           match task with
           | None => name2count
           | Some task_json =>
               match msg_headers task_json with
               | Some h =>
                   match hdr_task h with
                   | Some n => <[n := default 0 (name2count !! n) + 1]> name2count
                   | None => name2count
                   end
               | None => name2count
               end
           end)
        ∅ tasks.

(** The body of the loop of [update_queues_metrics]; the local variables
    are the two sets of labels seen in this pass. *)
Definition sample_queue (known : gset string * gset (string * string))
    (item : string * list reply)
  : M (gset string * gset (string * string)) :=
  let '(known_queues, known_tasks) := known in
  let '(queue_name, chunk) := item in
  match chunk with
  | [size; tasks] =>
      match size with
      | RInt size =>
          modify_prom (λ m,
            set_QUEUE_SIZE (gauge_set queue_name size (QUEUE_SIZE m)) m);;
          match tasks with
          | RList tasks =>
              known_tasks ←
                for_each (λ known_tasks (kv : string * Z),
                            modify_prom (λ m,
                              set_QUEUE_TASKS
                                (gauge_set (queue_name, kv.1) kv.2 (QUEUE_TASKS m)) m);;
                            mret ({[ (queue_name, kv.1) ]} ∪ known_tasks))
                         known_tasks (map_to_list (get_tasks_stat tasks));
              mret ({[ queue_name ]} ∪ known_queues, known_tasks)
          | RInt _ => raise TypeError
          end
      | RList _ => raise TypeError
      end
  | _ => raise ValueError
  end.

Definition update_queues_metrics (app : broker) : M unit :=
  queue_names ← (λ w, (get_queue_names app, w));
  queues ← (λ w, (get_queues app queue_names, w));
  known ← for_each sample_queue (∅, ∅) (zip queue_names (chunks queues 2));
  modify_prom (λ m,
    set_QUEUE_SIZE (_reset_metrics (QUEUE_SIZE m) (Some known.1)) m);;
  modify_prom (λ m,
    set_QUEUE_TASKS (_reset_metrics (QUEUE_TASKS m) (Some known.2)) m).

(** ** The loop of [_monitor]

    One turn of [while True], given what the broker does during it: whether
    the connection and the receiver can be opened, what introspection
    answers to the two calls of [setup_metrics], the events that [capture]
    hands to the handler, and whether [capture] ends by raising (a lost
    connection) or by returning. *)
Record session := {
  connects : bool;
  inspect_on_connect : inspect;
  delivered : list event;
  capture_fails : bool;
  inspect_on_failure : inspect;
}.

(** [recv.capture(limit=None, timeout=None, wakeup=True)] with
    [_process_event] as the handler of every event: an exception of the
    handler ends the capture. *)
Definition capture (s : session) : M unit :=
  for_each (λ _ evt, _process_event evt) tt (delivered s);;
  if capture_fails s then raise BrokerError else mret tt.

Definition _monitor_turn (s : session) : M unit :=
  try_except
    (if connects s then
       modify_prom (setup_metrics (inspect_on_connect s));;
       capture s
     else raise BrokerError)
    (λ _, true)
    ((* logged *)
     modify_prom (setup_metrics (inspect_on_failure s))
     (* time.sleep(5) *)).

(** The first turns of [_monitor], one per session. *)
Definition _monitor (sessions : list session) : M unit :=
  for_each (λ _ s, _monitor_turn s) tt sessions.

(** ** Notions used in the statements *)

(** The lifecycle state of an event of the task group, as [_process_event]
    finds it. *)
Definition event_state (evt : event) : option state :=
  match evt_type evt with
  | Some ty =>
      if decide (group_from ty = "task"%string)
      then TASK_EVENT_TO_STATE !! slice_from 5 ty
      else None
  | None => None
  end.

(** The state left by handling the events one after the other, whatever
    each call raises. *)
Definition run (evts : list event) (w : world) : world :=
  foldl (λ w evt, (_process_event evt w).2) w evts.

(** An event with every field that [State._event] requires, as a worker
    sends it and the receiver completes it. *)
Definition make_event (ty uuid : string) (received : float)
    (name : option string) (runtime : option float) : event :=
  {| evt_type := Some ty; evt_uuid := Some uuid;
     evt_hostname := Some "worker1"%string; evt_timestamp := Some received;
     evt_local_received := Some received; evt_clock := Some 1;
     evt_name := name; evt_runtime := runtime; evt_parent_id := None |}.

(** The same event, sent for a task with a parent. *)
Definition with_parent (parent_id : string) (evt : event) : event :=
  {| evt_type := evt_type evt; evt_uuid := evt_uuid evt;
     evt_hostname := evt_hostname evt; evt_timestamp := evt_timestamp evt;
     evt_local_received := evt_local_received evt; evt_clock := evt_clock evt;
     evt_name := evt_name evt; evt_runtime := evt_runtime evt;
     evt_parent_id := Some (Some parent_id) |}.

(** The state after the unready aggregation alone. *)
Definition aggregate (w : world) : world := (_collect_unready_tasks w).2.

(** The number of records of the registry in state [s]. *)
Definition count_state (s : state) (c : LRUCache) : Z :=
  Z.of_nat (length (filter (λ t, task_state t = s) (LRUCache_values c))).

(** The number of records in state [s] whose name is [n]; a record without
    a name, or with an empty one, is not counted. *)
Definition count_state_name (s : state) (n : string) (c : LRUCache) : Z :=
  Z.of_nat (length (filter (λ t, state_and_name t = Some (s, n))
                           (LRUCache_values c))).

(** The task-type name of a payload, when it decodes and carries one. *)
Definition task_of (p : payload) : option string :=
  match p with
  | Some task_json =>
      match msg_headers task_json with
      | Some h => hdr_task h
      | None => None
      end
  | None => None
  end.

(** The number of payloads of type [t] in a queue. *)
Definition count_task (t : string) (l : list payload) : Z :=
  Z.of_nat (length (filter (λ p, task_of p = Some t) l)).

(** The list of a queue in redis; a missing key is an empty list. *)
Definition queue_items (lists : gmap string (list payload)) (q : string)
  : list payload :=
  default [] (lists !! q).

(** A record as [State._event] leaves it when it returns: in an unready
    state, with its [local_received]. *)
Definition good_record (t : Task) : Prop :=
  (task_state t ∉ READY_STATES) ∧ is_Some (task_local_received t).

(** A record of a registry of capacity [max_tasks_in_memory].  With a
    positive capacity [State._event] returns and leaves a good record.
    Otherwise it raises before it reaches [Task.event], and a record is the
    fresh task that was stored. *)
Definition tracked_record (max_tasks_in_memory : Z) (t : Task) : Prop :=
  if decide (0 < max_tasks_in_memory) then good_record t else t = Task_new.

(** The two replies of the pipeline for a queue. *)
Definition queue_replies (lists : gmap string (list payload)) (q : string)
  : list reply :=
  [RInt (Z.of_nat (length (queue_items lists q))); RList (queue_items lists q)].

(** The invariant of the registry: no repeated key, the capacity is
    respected, every record is one that [State._event] leaves. *)
Record cache_wf (c : LRUCache) : Prop := {
  wf_nodup : NoDup (data c).*1;
  wf_capacity :
    limit c = 0 ∨ Z.of_nat (length (data c)) ≤ Z.max 0 (limit c);
  wf_records :
    Forall (tracked_record (limit c)) (LRUCache_values c);
}.

(** The invariant of the monitor thread: the registry is well formed, the
    known labels are those of unready states, and the task heap of a
    registry without a positive capacity is empty. *)
Record wf (w : world) : Prop := {
  wf_tasks : cache_wf (tasks w);
  wf_known_states :
    ∀ s, s ∈ _known_states (thread w) → s ∉ READY_STATES;
  wf_known_states_names :
    ∀ s n, (s, n) ∈ _known_states_names (thread w) → s ∉ READY_STATES;
  wf_taskheap :
    limit (tasks w) ≤ 0 → _state_taskheap (thread w) = 0%nat;
}.

(** A statement keeps the invariant and the capacity, and relates the
    state before to the state after by [R], however it ends. *)
Definition keeps {A} (R : relation world) (m : M A) : Prop :=
  ∀ w, wf w →
    wf (m w).2 ∧ limit (tasks (m w).2) = limit (tasks w) ∧ R w (m w).2.

(** Any change. *)
Definition any_change : relation world := λ _ _, True.

(** No metric changes. *)
Definition prom_same : relation world := λ w w', prom w' = prom w.

(** The latency histogram does not change. *)
Definition latency_same : relation world :=
  λ w w', LATENCY (prom w') = LATENCY (prom w).

(** No metric but the latency histogram changes. *)
Definition latency_only : relation world :=
  λ w w', TASKS (prom w') = TASKS (prom w) ∧
          TASKS_NAME (prom w') = TASKS_NAME (prom w) ∧
          TASKS_RUNTIME (prom w') = TASKS_RUNTIME (prom w).

(** The latency histogram does not change and no value of [tasks{state}]
    goes down. *)
Definition counters_up : relation world :=
  λ w w', LATENCY (prom w') = LATENCY (prom w) ∧
          ∀ s, gauge_value (TASKS (prom w)) s ≤ gauge_value (TASKS (prom w')) s.

(** The value of [tasks{state}] for [s] does not go down. *)
Definition ready_counter_le (s : state) : relation world :=
  λ w w', gauge_value (TASKS (prom w)) s ≤ gauge_value (TASKS (prom w')) s.

(** Nothing but the gauges of unready states changes: the histograms and
    the gauges of the ready states are as before. *)
Record ready_metrics_same (w w' : world) : Prop := {
  same_TASKS : ∀ s, s ∈ READY_STATES → TASKS (prom w') !! s = TASKS (prom w) !! s;
  same_TASKS_NAME :
    ∀ s n, s ∈ READY_STATES →
           TASKS_NAME (prom w') !! (s, n) = TASKS_NAME (prom w) !! (s, n);
  same_TASKS_RUNTIME : TASKS_RUNTIME (prom w') = TASKS_RUNTIME (prom w);
  same_LATENCY : LATENCY (prom w') = LATENCY (prom w);
}.

(** The order of the cache after [tasks[k]] has been read through
    [LRUCache.__getitem__] in a cache that is within its capacity: a key
    that is present goes to the recent end. *)
Definition od_move_to_end (k : string) (l : list (string * Task))
  : list (string * Task) :=
  match od_lookup k l with
  | Some v => od_delete k l ++ [(k, v)]
  | None => l
  end.

(** The order of the cache after [State._event] has looked up the parent
    of the task [t]. *)
Definition parent_moved (t : Task) (l : list (string * Task))
  : list (string * Task) :=
  match truthy (task_parent_id t) with
  | Some parent_id => od_move_to_end parent_id l
  | None => l
  end.

(** The fields that [State._event] requires of an event. *)
Definition has_task_fields (evt : event) : Prop :=
  is_Some (evt_uuid evt) ∧ is_Some (evt_hostname evt) ∧
  is_Some (evt_timestamp evt) ∧ is_Some (evt_local_received evt) ∧
  is_Some (evt_clock evt).

(** ** start_httpd *)

(** [s.split(sep)] for a separator of one character. *)
Fixpoint split (sep : ascii) (s : string) : list string :=
  match s with
  | EmptyString => [EmptyString]
  | String c rest =>
      if Ascii.eqb c sep then EmptyString :: split sep rest
      else match split sep rest with
           | first :: others => String c first :: others
           | [] => [String c EmptyString]
           end
  end.

(** The first statement of [start_httpd]:
    [host, port = addr.split(':')], which raises [ValueError] unless the
    list has two items. *)
Definition start_httpd_host_port (addr : string) : result (string * string) :=
  match split ":" addr with
  | [host; port] => Ok (host, port)
  | _ => Raise ValueError
  end.

(** Whether a character occurs in a string. *)
Fixpoint occurs (c : ascii) (s : string) : bool :=
  match s with
  | EmptyString => false
  | String c' rest => Ascii.eqb c' c || occurs c rest
  end.

(** ** More notions used in the statements *)

(** A statement relates the state before to the state after by [R],
    however it ends and whatever the state before. *)
Definition always {A} (R : relation world) (m : M A) : Prop :=
  ∀ w, R w (m w).2.

(** The sets of known labels only grow. *)
Definition known_grow : relation world :=
  λ w w', _known_states (thread w) ⊆ _known_states (thread w') ∧
          _known_states_names (thread w) ⊆ _known_states_names (thread w').

(** Only the two queue gauges may differ. *)
Definition queue_gauges_only : relation world :=
  λ w w', thread w' = thread w ∧
          TASKS (prom w') = TASKS (prom w) ∧
          TASKS_NAME (prom w') = TASKS_NAME (prom w) ∧
          TASKS_RUNTIME (prom w') = TASKS_RUNTIME (prom w) ∧
          LATENCY (prom w') = LATENCY (prom w) ∧
          WORKERS (prom w') = WORKERS (prom w).


(** The steps of [_process_event] on an event of the task group in state
    [st], before the unready aggregation. *)
Definition before_aggregate (evt : event) (st : state) : M unit :=
  (if decide (st = STARTED) then _observe_latency evt else mret tt) ≫=
    λ _, if decide (st ∈ READY_STATES) then _incr_ready_task evt st
         else State_event st evt.

(** The series [tasks{state}] for [s] does not change. *)
Definition tasks_gauge_same (s : state) : relation world :=
  λ w w', TASKS (prom w') !! s = TASKS (prom w) !! s.

(** The number of events of the task group in state [s] in a sequence. *)
Definition count_events (s : state) (evts : list event) : Z :=
  Z.of_nat (length (filter (λ evt, event_state evt = Some s) evts)).

(** Unfolds the combinators of statements. *)
Ltac unfold_M :=
  unfold getitem, getattr, modify_prom, modify, on_tasks, try_except,
    try_except_else, raise, mbind, M_bind, mret, M_ret in *.

(** * Properties *)

(** ** The ordered dictionary *)

Section ordered_dict.
Implicit Types (k : string) (v : Task) (l : list (string * Task)).

Lemma od_lookup_None k l : od_lookup k l = None ↔ k ∉ l.*1.
Proof.
  induction l as [|[k' v'] l IH]; csimpl.
  - split; [intros _; apply not_elem_of_nil | done].
  - rewrite not_elem_of_cons.
    destruct (decide (k = k')); [split; [done | by intros [? _]] | tauto].
Qed.

Lemma od_lookup_Some_elem k v l : od_lookup k l = Some v → (k, v) ∈ l.
Proof.
  induction l as [|[k' v'] l IH]; csimpl; [done|].
  case_decide; [intros [= ->]; subst; left | right; auto].
Qed.

Lemma od_delete_keys k l : (od_delete k l).*1 = filter (λ k', k' ≠ k) (l.*1).
Proof.
  unfold od_delete. induction l as [|[k' v'] l IH]; [done|].
  rewrite fmap_cons, !filter_cons. csimpl.
  destruct (decide (k' ≠ k)); csimpl; by rewrite IH.
Qed.

Lemma od_delete_notin k l : k ∉ l.*1 → od_delete k l = l.
Proof.
  unfold od_delete. induction l as [|[k' v'] l IH]; [done|].
  csimpl. rewrite not_elem_of_cons. intros [? ?].
  rewrite filter_cons. csimpl. case_decide; [f_equal; auto | congruence].
Qed.

Lemma od_lookup_delete k l : od_lookup k (od_delete k l) = None.
Proof.
  apply od_lookup_None. rewrite od_delete_keys, list_elem_of_filter. tauto.
Qed.

Lemma od_delete_length k l : (length (od_delete k l) ≤ length l)%nat.
Proof. apply length_filter. Qed.

Lemma od_delete_length_lt k v l :
  od_lookup k l = Some v → (length (od_delete k l) < length l)%nat.
Proof.
  unfold od_delete. induction l as [|[k' v'] l IH]; csimpl; [done|].
  rewrite filter_cons; csimpl. case_decide; subst.
  - intros _. case_decide; [done|]. pose proof (length_filter (λ kv, kv.1 ≠ k') l). lia.
  - intros H1. case_decide; [|congruence]. csimpl. apply IH in H1. lia.
Qed.

Lemma od_delete_NoDup k l : NoDup l.*1 → NoDup (od_delete k l).*1.
Proof. rewrite od_delete_keys. apply NoDup_filter. Qed.

Lemma od_delete_values (P : Task → Prop) k l :
  Forall P l.*2 → Forall P (od_delete k l).*2.
Proof.
  unfold od_delete. rewrite !Forall_fmap, !Forall_forall.
  intros H x [_ ?]%list_elem_of_filter. auto.
Qed.

Lemma od_set_notin k v l : k ∉ l.*1 → od_set k v l = l ++ [(k, v)].
Proof.
  induction l as [|[k' v'] l IH]; [done|].
  csimpl. rewrite not_elem_of_cons. intros [? ?].
  case_decide; [congruence | f_equal; auto].
Qed.

Lemma od_set_keys_in k v l : k ∈ l.*1 → (od_set k v l).*1 = l.*1.
Proof.
  induction l as [|[k' v'] l IH]; csimpl; [by intros ?%elem_of_nil|].
  case_decide; subst; [done|].
  rewrite elem_of_cons. intros [?|?]; [done|]. csimpl. f_equal; auto.
Qed.

Lemma od_set_length_in k v l : k ∈ l.*1 → length (od_set k v l) = length l.
Proof.
  intros H. rewrite <-(length_fmap fst), od_set_keys_in by done.
  by rewrite length_fmap.
Qed.

Lemma od_set_NoDup k v l : NoDup l.*1 → NoDup (od_set k v l).*1.
Proof.
  intros Hl. destruct (decide (k ∈ l.*1)) as [Hin|Hin].
  - by rewrite od_set_keys_in.
  - rewrite od_set_notin, fmap_app by done. csimpl.
    apply NoDup_app. split; [done|]. split; [|apply NoDup_singleton].
    intros x Hx ->%list_elem_of_singleton. done.
Qed.

Lemma od_set_values (P : Task → Prop) k v l :
  P v → Forall P l.*2 → Forall P (od_set k v l).*2.
Proof.
  intros Hv. induction l as [|[k' v'] l IH]; csimpl.
  - intros _. by repeat constructor.
  - intros [? ?]%Forall_cons. case_decide; csimpl; constructor; auto.
Qed.

Lemma od_lookup_set k v l : od_lookup k (od_set k v l) = Some v.
Proof.
  induction l as [|[k' v'] l IH]; csimpl.
  - by rewrite decide_True.
  - case_decide; csimpl; [by rewrite decide_True | by rewrite decide_False].
Qed.

Lemma od_delete_set k v l : od_delete k (od_set k v l) = od_delete k l.
Proof.
  unfold od_delete. induction l as [|[k' v'] l IH]; csimpl.
  - by rewrite filter_cons_False by (simpl; tauto).
  - case_decide; subst.
    + by rewrite !filter_cons_False by (simpl; tauto).
    + rewrite !filter_cons_True by (simpl; congruence). by rewrite IH.
Qed.

Lemma od_delete_idemp k l : od_delete k (od_delete k l) = od_delete k l.
Proof.
  apply od_delete_notin. rewrite od_delete_keys, list_elem_of_filter. tauto.
Qed.

Lemma od_lookup_values (P : Task → Prop) k v l :
  Forall P l.*2 → od_lookup k l = Some v → P v.
Proof.
  rewrite Forall_fmap, Forall_forall. intros H Hl.
  apply od_lookup_Some_elem in Hl. apply (H _ Hl).
Qed.
Lemma od_delete_app_perm k v l :
  NoDup l.*1 → od_lookup k l = Some v → od_delete k l ++ [(k, v)] ≡ₚ l.
Proof.
  induction l as [|[k' v'] l IH]; [done|].
  rewrite fmap_cons. intros [Hk' Hnd]%NoDup_cons. simpl.
  unfold od_delete in *. case_decide as Heq.
  - intros [= ->]. subst k'. rewrite filter_cons_False by (simpl; tauto).
    fold (od_delete k l). rewrite od_delete_notin by done.
    by rewrite Permutation_app_comm.
  - intros Hk. rewrite filter_cons_True by (simpl; congruence).
    simpl. by rewrite IH.
Qed.

Lemma od_set_set k v v' l : od_set k v' (od_set k v l) = od_set k v' l.
Proof.
  induction l as [|[k0 v0] l IH]; simpl.
  - by rewrite decide_True.
  - case_decide; simpl; [by rewrite decide_True|].
    rewrite decide_False by done. by rewrite IH.
Qed.

Lemma od_lookup_app_last k v l :
  k ∉ l.*1 → od_lookup k (l ++ [(k, v)]) = Some v.
Proof. intros Hk. rewrite <-(od_set_notin k v l) by done. apply od_lookup_set. Qed.

Lemma od_set_app_last k v v' l :
  k ∉ l.*1 → od_set k v' (l ++ [(k, v)]) = l ++ [(k, v')].
Proof.
  intros Hk. by rewrite <-(od_set_notin k v l), od_set_set, od_set_notin.
Qed.

Lemma od_delete_notin_keys k l : k ∉ (od_delete k l).*1.
Proof. rewrite od_delete_keys, list_elem_of_filter. tauto. Qed.

Lemma od_lookup_app k l1 l2 :
  od_lookup k (l1 ++ l2) =
    match od_lookup k l1 with Some v => Some v | None => od_lookup k l2 end.
Proof.
  induction l1 as [|[k' v'] l1 IH]; [done|]. simpl. by case_decide.
Qed.

Lemma od_lookup_delete_ne k k' l :
  k ≠ k' → od_lookup k (od_delete k' l) = od_lookup k l.
Proof.
  intros Hne. unfold od_delete. induction l as [|[k0 v0] l IH]; [done|].
  rewrite filter_cons. simpl. destruct (decide (k0 ≠ k')) as [?|Heq]; simpl.
  - by rewrite IH.
  - apply dec_stable in Heq as ->. by rewrite decide_False.
Qed.

(** Moving a key to the recent end changes the order only. *)
Lemma od_lookup_move_to_end k k' l :
  od_lookup k (od_move_to_end k' l) = od_lookup k l.
Proof.
  unfold od_move_to_end. destruct (od_lookup k' l) as [v'|] eqn:Hk'; [|done].
  rewrite od_lookup_app. destruct (decide (k = k')) as [->|Hne].
  - rewrite od_lookup_delete. simpl. by rewrite decide_True.
  - rewrite od_lookup_delete_ne by done.
    destruct (od_lookup k l); [done|]. simpl. by rewrite decide_False.
Qed.


Lemma od_lookup_parent_moved k t l :
  od_lookup k (parent_moved t l) = od_lookup k l.
Proof.
  unfold parent_moved. destruct (truthy _); [|done]. apply od_lookup_move_to_end.
Qed.

End ordered_dict.

(** ** The cache *)

Section cache.
Implicit Types (k : string) (v : Task) (c : LRUCache).

Lemma LRUCache_setitem_limit k v c : limit (LRUCache_setitem k v c).2 = limit c.
Proof.
  unfold LRUCache_setitem. destruct (_ && _); [destruct (data c)|]; done.
Qed.

Lemma LRUCache_setitem_wf k v c :
  cache_wf c → tracked_record (limit c) v → cache_wf (LRUCache_setitem k v c).2.
Proof.
  intros [Hnd Hcap Hrec] Hv. unfold LRUCache_setitem, LRUCache_values in *.
  destruct (bool_decide (limit c ≠ 0) && _) eqn:Hfull.
  - apply andb_prop in Hfull as [Hne%bool_decide_eq_true Hle%bool_decide_eq_true].
    destruct (data c) as [|[k0 v0] rest] eqn:Hd; simpl.
    + split; unfold LRUCache_values; simpl; rewrite ?Hd; auto.
    + csimpl in *. apply NoDup_cons in Hnd as [_ Hnd].
      apply Forall_cons in Hrec as [_ Hrec].
      split; unfold LRUCache_values; simpl.
      * by apply od_set_NoDup.
      * right. destruct Hcap as [?|Hcap]; [done|].
        destruct (decide (k ∈ rest.*1)).
        -- rewrite od_set_length_in by done. lia.
        -- rewrite od_set_notin, length_app by done. simpl. lia.
      * by apply od_set_values.
  - apply andb_false_iff in Hfull.
    split; unfold LRUCache_values; simpl.
    + by apply od_set_NoDup.
    + destruct (decide (limit c = 0)) as [?|Hne]; [by left|right].
      destruct Hfull as [H|H]; apply bool_decide_eq_false in H; [done|].
      destruct (decide (k ∈ (data c).*1)).
      * rewrite od_set_length_in by done. lia.
      * rewrite od_set_notin, length_app by done. simpl. lia.
    + by apply od_set_values.
Qed.

(** Storing a new key in a cache that is not full appends it. *)
Lemma LRUCache_setitem_room k v c :
  k ∉ (data c).*1 →
  limit c = 0 ∨ Z.of_nat (length (data c)) < limit c →
  LRUCache_setitem k v c =
    (Ok tt, {| data := data c ++ [(k, v)]; limit := limit c |}).
Proof.
  intros Hk Hroom. unfold LRUCache_setitem.
  destruct (bool_decide (limit c ≠ 0) && _) eqn:Hfull.
  - apply andb_prop in Hfull as [Hne%bool_decide_eq_true Hle%bool_decide_eq_true].
    lia.
  - by rewrite od_set_notin.
Qed.

(** Storing a new key in a full cache drops the first record. *)
Lemma LRUCache_setitem_full k v c first rest :
  k ∉ (data c).*1 →
  0 < limit c → limit c ≤ Z.of_nat (length (data c)) →
  data c = first :: rest →
  LRUCache_setitem k v c =
    (Ok tt, {| data := rest ++ [(k, v)]; limit := limit c |}).
Proof.
  intros Hk Hpos Hle Hd. unfold LRUCache_setitem.
  rewrite !bool_decide_eq_true_2 by lia. simpl. rewrite Hd in *.
  rewrite od_set_notin; [done|].
  csimpl in Hk. apply not_elem_of_cons in Hk. tauto.
Qed.

Lemma LRUCache_getitem_miss k c :
  od_lookup k (data c) = None → LRUCache_getitem k c = (Raise KeyError, c).
Proof. unfold LRUCache_getitem. by intros ->. Qed.

(** Reading a record moves it to the most recently used end. *)
Lemma LRUCache_getitem_within k v c :
  limit c = 0 ∨ Z.of_nat (length (data c)) ≤ Z.max 0 (limit c) →
  od_lookup k (data c) = Some v →
  LRUCache_getitem k c =
    (Ok v, {| data := od_delete k (data c) ++ [(k, v)]; limit := limit c |}).
Proof.
  intros Hcap Hk. unfold LRUCache_getitem. rewrite Hk.
  rewrite LRUCache_setitem_room; simpl; [done| |].
  - rewrite od_delete_keys, list_elem_of_filter. tauto.
  - apply od_delete_length_lt in Hk.
    destruct Hcap as [?|?]; [by left|right]. lia.
Qed.

Lemma LRUCache_getitem_hit k v c :
  cache_wf c → od_lookup k (data c) = Some v →
  LRUCache_getitem k c =
    (Ok v, {| data := od_delete k (data c) ++ [(k, v)]; limit := limit c |}).
Proof. intros [_ Hcap _]. by apply LRUCache_getitem_within. Qed.

Lemma LRUCache_pop_miss k c :
  od_lookup k (data c) = None → LRUCache_pop k c = (Raise KeyError, c).
Proof. intros H. unfold LRUCache_pop. by rewrite LRUCache_getitem_miss. Qed.

Lemma LRUCache_pop_hit k v c :
  cache_wf c → od_lookup k (data c) = Some v →
  LRUCache_pop k c =
    (Ok v, {| data := od_delete k (data c); limit := limit c |}).
Proof.
  intros Hwf Hk. unfold LRUCache_pop. rewrite (LRUCache_getitem_hit k v) by done.
  simpl. do 2 f_equal. unfold od_delete at 1.
  rewrite filter_app, filter_cons_False, app_nil_r by (simpl; tauto).
  apply od_delete_idemp.
Qed.

Lemma cache_wf_delete k c :
  cache_wf c → cache_wf {| data := od_delete k (data c); limit := limit c |}.
Proof.
  intros [Hnd Hcap Hrec]. split; unfold LRUCache_values in *; simpl.
  - by apply od_delete_NoDup.
  - destruct Hcap as [?|?]; [by left|right].
    pose proof (od_delete_length k (data c)). lia.
  - by apply od_delete_values.
Qed.

Lemma LRUCache_getitem_wf k c : cache_wf c → cache_wf (LRUCache_getitem k c).2.
Proof.
  intros Hwf. unfold LRUCache_getitem.
  destruct (od_lookup k (data c)) as [v|] eqn:Hk; [|done].
  pose proof (LRUCache_setitem_wf k v _ (cache_wf_delete k c Hwf)) as H.
  destruct (LRUCache_setitem k v _) as [[]?]; simpl in *; apply H;
    apply (od_lookup_values _ _ _ _ (wf_records _ Hwf) Hk).
Qed.

Lemma LRUCache_getitem_limit k c : limit (LRUCache_getitem k c).2 = limit c.
Proof.
  unfold LRUCache_getitem. destruct (od_lookup k (data c)) as [v|]; [|done].
  pose proof (LRUCache_setitem_limit k v
    {| data := od_delete k (data c); limit := limit c |}) as H.
  by destruct (LRUCache_setitem k v _) as [[]?].
Qed.

Lemma LRUCache_pop_wf k c : cache_wf c → cache_wf (LRUCache_pop k c).2.
Proof.
  intros Hwf. unfold LRUCache_pop.
  pose proof (LRUCache_getitem_wf k c Hwf) as H.
  destruct (LRUCache_getitem k c) as [[]?]; simpl in *; [|done].
  by apply cache_wf_delete.
Qed.

Lemma LRUCache_pop_limit k c : limit (LRUCache_pop k c).2 = limit c.
Proof.
  unfold LRUCache_pop. pose proof (LRUCache_getitem_limit k c) as H.
  by destruct (LRUCache_getitem k c) as [[]?].
Qed.
End cache.

(** ** Gauges *)

Section gauges.
Context `{Countable K}.
Implicit Types (g : gmap K Z) (k : K).

Lemma lookup_set_each (cnt : gmultiset K) (known : gset K) g k :
  set_each cnt known g !! k =
    if decide (k ∈ known) then Some (Z.of_nat (multiplicity k cnt))
    else g !! k.
Proof.
  unfold set_each.
  set (P := λ (acc : gmap K Z) (X : gset K),
         acc !! k = if decide (k ∈ X)
                    then Some (Z.of_nat (multiplicity k cnt)) else g !! k).
  change (P (set_fold (λ labels acc,
               gauge_set labels (Z.of_nat (multiplicity labels cnt)) acc)
             g known) known).
  apply set_fold_ind_L; unfold P.
  - rewrite decide_False; [done|]. apply not_elem_of_empty.
  - intros x X acc Hx IH. unfold gauge_set.
    destruct (decide (x = k)) as [->|Hne].
    + rewrite lookup_insert_eq, decide_True; [done|].
      apply elem_of_union_l, elem_of_singleton. done.
    + rewrite lookup_insert_ne by done. rewrite IH.
      destruct (decide (k ∈ X)) as [Hin|Hin].
      * rewrite decide_True; [done|]. by apply elem_of_union_r.
      * rewrite decide_False; [done|].
        rewrite elem_of_union, elem_of_singleton. intros [?|?]; congruence.
Qed.

Lemma multiplicity_Counter (l : list K) k :
  multiplicity k (Counter l) = length (filter (λ x, x = k) l).
Proof.
  unfold Counter. induction l as [|x l IH]; [done|].
  rewrite list_to_set_disj_cons, multiplicity_disj_union, IH, filter_cons.
  destruct (decide (x = k)) as [->|].
  - by rewrite multiplicity_singleton_eq.
  - by rewrite multiplicity_singleton_ne.
Qed.

Lemma elem_of_dom_Counter (l : list K) k : k ∈ dom (Counter l) ↔ k ∈ l.
Proof.
  unfold Counter. by rewrite gmultiset_elem_of_dom, elem_of_list_to_set_disj.
Qed.

Lemma gauge_value_inc k g :
  gauge_value (gauge_inc k g) k = gauge_value g k + 1.
Proof. unfold gauge_value at 1, gauge_inc. by rewrite lookup_insert_eq. Qed.

Lemma gauge_value_inc_ne k k' g :
  k ≠ k' → gauge_inc k g !! k' = g !! k'.
Proof. intros. unfold gauge_inc. by rewrite lookup_insert_ne. Qed.

Lemma lookup_reset_fold (P : K → Prop) `{!∀ x, Decision (P x)}
    (l : list (K * Z)) g k :
  foldl (λ acc sample,
           if decide (P sample.1) then acc else gauge_set sample.1 0 acc)
        g l !! k =
    if decide (k ∈ l.*1 ∧ ¬ P k) then Some 0 else g !! k.
Proof.
  revert g. induction l as [|[k' v'] l IH]; intros g.
  - cbn [foldl]. destruct (decide _) as [[Hin _]|]; [|done].
    by apply elem_of_nil in Hin.
  - cbn [foldl fst]. rewrite IH, fmap_cons. clear IH. cbn [fst].
    unfold gauge_set.
    destruct (decide (k ∈ l.*1 ∧ ¬ P k)) as [[Hin Hk]|Hno];
      destruct (decide (k ∈ k' :: l.*1 ∧ ¬ P k)) as [[Hin' Hk']|Hno'];
      try done.
    + exfalso. apply Hno'. split; [by right|done].
    + apply elem_of_cons in Hin' as [->|Hin']; [|tauto].
      destruct (decide (P k')); [done|]. by rewrite lookup_insert_eq.
    + destruct (decide (P k')) as [HP|HP]; [done|].
      destruct (decide (k = k')) as [->|Hne].
      * exfalso. apply Hno'. split; [by left|done].
      * by rewrite lookup_insert_ne.
Qed.

(** After a reset every sample that is not among the known labels is
    zero, the others are untouched, and no sample is created. *)
Lemma lookup_reset_metrics g (known_labels : option (gset K)) k :
  _reset_metrics g known_labels !! k =
    (λ v, match known_labels with
          | Some known => if decide (k ∈ known) then v else 0
          | None => 0
          end) <$> g !! k.
Proof.
  assert (∀ v, g !! k = Some v → k ∈ (map_to_list g).*1) as Hin.
  { intros v Hk. apply list_elem_of_fmap. exists (k, v). split; [done|].
    by apply elem_of_map_to_list. }
  assert (g !! k = None → k ∉ (map_to_list g).*1) as Hout.
  { intros Hk Hk'. apply list_elem_of_fmap in Hk' as [[k' v'] [-> Hk']].
    apply elem_of_map_to_list in Hk'. simpl in *. congruence. }
  unfold _reset_metrics. destruct known_labels as [known|].
  - pose proof (lookup_reset_fold (λ x, x ∈ known) (map_to_list g) g k) as ->.
    destruct (g !! k) as [v|] eqn:Hk; simpl.
    + destruct (decide (k ∈ known)).
      * rewrite decide_False; [done|tauto].
      * rewrite decide_True; [done|]. split; [by eapply Hin|done].
    + rewrite decide_False; [done|]. intros [? _]. by apply Hout.
  - pose proof (lookup_reset_fold (λ _, False) (map_to_list g) g k) as Hf.
    simpl in Hf. rewrite Hf.
    destruct (g !! k) as [v|] eqn:Hk; simpl.
    + rewrite decide_True; [done|]. split; [by eapply Hin|tauto].
    + rewrite decide_False; [done|]. intros [? _]. by apply Hout.
Qed.
End gauges.

(** ** Rules for statements *)

Section rules.
Context {R : relation world} `{!PreOrder R}.

Lemma bind_eq {A B} (m : M A) (f : A → M B) w :
  (m ≫= f) w =
    match m w with
    | (Ok a, w') => f a w'
    | (Raise e, w') => (Raise e, w')
    end.
Proof. done. Qed.

Lemma keeps_ret {A} (a : A) : keeps R (mret a).
Proof. intros w Hw. cbn. split_and!; [done|done|reflexivity]. Qed.

Lemma keeps_raise {A} e : keeps R (raise (A:=A) e).
Proof. intros w Hw. cbn. split_and!; [done|done|reflexivity]. Qed.

Lemma keeps_bind {A B} (m : M A) (f : A → M B) :
  keeps R m → (∀ a, keeps R (f a)) → keeps R (m ≫= f).
Proof.
  intros Hm Hf w Hw. rewrite bind_eq.
  destruct (Hm w Hw) as (Hw' & Hl & HR). destruct (m w) as [[a|e] w']; [|by split_and!].
  simpl in *. destruct (Hf a w' Hw') as (? & ? & ?).
  split_and!; [done|congruence|by etrans].
Qed.

Lemma keeps_try_except {A} (body handler : M A) handles :
  keeps R body → keeps R handler → keeps R (try_except body handles handler).
Proof.
  intros Hb Hh w Hw. unfold try_except.
  destruct (Hb w Hw) as (Hw' & Hl & HR). destruct (body w) as [[a|e] w']; [by split_and!|].
  destruct (handles e); [|by split_and!].
  simpl in *. destruct (Hh w' Hw') as (? & ? & ?).
  split_and!; [done|congruence|by etrans].
Qed.

Lemma keeps_try_except_else {A B} (body : M A) (handler : M B) handles orelse :
  keeps R body → keeps R handler → (∀ a, keeps R (orelse a)) →
  keeps R (try_except_else body handles handler orelse).
Proof.
  intros Hb Hh He w Hw. unfold try_except_else.
  destruct (Hb w Hw) as (Hw' & Hl & HR). destruct (body w) as [[a|e] w'].
  - simpl in *. destruct (He a w' Hw') as (? & ? & ?).
    split_and!; [done|congruence|by etrans].
  - destruct (handles e); [|by split_and!].
    simpl in *. destruct (Hh w' Hw') as (? & ? & ?).
    split_and!; [done|congruence|by etrans].
Qed.

Lemma keeps_getitem {A} (field : option A) : keeps R (getitem field).
Proof. destruct field; [apply keeps_ret | apply keeps_raise]. Qed.

Lemma keeps_getattr {A} (field : option A) : keeps R (getattr field).
Proof. destruct field; [apply keeps_ret | apply keeps_raise]. Qed.

Lemma keeps_for_each {A S} (body : S → A → M S) acc l :
  (∀ acc x, keeps R (body acc x)) → keeps R (for_each body acc l).
Proof.
  intros Hb. revert acc. induction l as [|x l IH]; intros acc; simpl.
  - apply keeps_ret.
  - apply keeps_bind; auto.
Qed.
End rules.

Lemma keeps_weaken {A} (R R' : relation world) (m : M A) :
  (∀ w w', R w w' → R' w w') → keeps R m → keeps R' m.
Proof. intros HRR Hm w Hw. destruct (Hm w Hw) as (? & ? & ?). auto. Qed.

Global Instance prom_same_preorder : PreOrder prom_same.
Proof. split; [done|]. intros w1 w2 w3. unfold prom_same. congruence. Qed.

Global Instance latency_same_preorder : PreOrder latency_same.
Proof. split; [done|]. intros w1 w2 w3. unfold latency_same. congruence. Qed.

Global Instance latency_only_preorder : PreOrder latency_only.
Proof.
  split; [done|]. intros w1 w2 w3 (?&?&?) (?&?&?). unfold latency_only.
  repeat split; congruence.
Qed.

Global Instance counters_up_preorder : PreOrder counters_up.
Proof.
  split; [by split|]. intros w1 w2 w3 [? H12] [? H23]. split; [congruence|].
  intros s. specialize (H12 s). specialize (H23 s). lia.
Qed.

Global Instance ready_counter_le_preorder s : PreOrder (ready_counter_le s).
Proof.
  unfold ready_counter_le. split; [intros w; lia|]. intros w1 w2 w3 ??. lia.
Qed.

Global Instance ready_metrics_same_preorder : PreOrder ready_metrics_same.
Proof.
  split; [by split|]. intros w1 w2 w3 [H1 H2 H3 H4] [H1' H2' H3' H4'].
  split; [| |congruence|congruence].
  - intros s Hs. by rewrite H1', H1.
  - intros s n Hs. by rewrite H2', H2.
Qed.

(** ** The invariant is kept by every method *)

Lemma wf_set_prom m w : wf w → wf (set_prom m w).
Proof. by intros [? ? ? ?]. Qed.

Lemma wf_set_tasks c w :
  wf w → cache_wf c → limit c = limit (tasks w) → wf (set_tasks c w).
Proof.
  intros [? ? ? Hheap] ? Hl. split; simpl; [done..|].
  intros Hle. apply Hheap. rewrite <-Hl. exact Hle.
Qed.

Lemma tracked_record_unready lim t :
  tracked_record lim t → task_state t ∉ READY_STATES.
Proof.
  unfold tracked_record. case_decide; [by intros [? _]|]. intros ->.
  by vm_compute.
Qed.

(** A record that is not a fresh task is a good record of a registry with a
    positive capacity. *)
Lemma tracked_record_good lim t :
  tracked_record lim t → task_state t ≠ PENDING → 0 < lim ∧ good_record t.
Proof. unfold tracked_record. case_decide; [done|]. by intros ->. Qed.

Lemma tracked_record_positive lim t :
  0 < lim → tracked_record lim t ↔ good_record t.
Proof. intros. unfold tracked_record. by rewrite decide_True. Qed.

Lemma tracked_record_fresh lim t :
  lim ≤ 0 → tracked_record lim t ↔ t = Task_new.
Proof. intros. unfold tracked_record. rewrite decide_False; [done|lia]. Qed.

(** Storing a fresh task and then updating it in place is storing the
    updated task. *)
Lemma LRUCache_setitem_then_set k v v' c c' :
  LRUCache_setitem k v c = (Ok tt, c') →
  LRUCache_setitem k v' c =
    (Ok tt, {| data := od_set k v' (data c'); limit := limit c' |}).
Proof.
  unfold LRUCache_setitem. destruct (_ && _).
  - destruct (data c); [done|]. intros [= <-]. simpl. by rewrite od_set_set.
  - intros [= <-]. simpl. by rewrite od_set_set.
Qed.

Lemma precedence_le_PENDING st : (precedence st ≤ precedence PENDING)%nat.
Proof. destruct st; vm_compute; lia. Qed.

(** [Task.event] leaves a good record: an event in an unready state that
    carries [local_received], applied to a good record or to a fresh task
    (which is never merged, [PENDING] having the lowest precedence). *)
Lemma good_record_Task_event st evt t :
  st ∉ READY_STATES → is_Some (evt_local_received evt) →
  good_record t ∨ t = Task_new →
  good_record (Task_event st evt t).
Proof.
  intros Hst [r Hr] Ht. unfold Task_event, good_record.
  unfold update_local_received, update_parent_id, update_name, update_state,
    merge_keeps_local_received.
  rewrite Hr.
  destruct (_ && _) eqn:Hmerge.
  - apply andb_prop in Hmerge as [_ Hlt%bool_decide_eq_true].
    destruct Ht as [[Hs Hl]| ->].
    + destruct (decide (st = RECEIVED)), (evt_name evt), (evt_parent_id evt);
        simpl; (split; [done|]); done || by eexists.
    + pose proof (precedence_le_PENDING st). simpl in Hlt. lia.
  - destruct (evt_name evt), (evt_parent_id evt); simpl;
      (split; [done|by eexists]).
Qed.

Lemma keeps_on_tasks {A} (op : LRUCache → result A * LRUCache) :
  (∀ c, cache_wf c → cache_wf (op c).2 ∧ limit (op c).2 = limit c) →
  keeps prom_same (on_tasks op).
Proof.
  intros Hop w Hw. unfold on_tasks, prom_same.
  destruct (Hop (tasks w) (wf_tasks _ Hw)) as [Hc Hl].
  destruct (op (tasks w)) as [r c]. simpl in *.
  split_and!; [by apply wf_set_tasks|done|done].
Qed.

(** ** The steps of [State._event] *)

(** With a positive capacity the heap is never popped when it is empty:
    the step returns, and changes the heap only. *)
Lemma taskheap_add_positive w :
  0 < limit (tasks w) →
  ∃ n, taskheap_add w = (Ok tt, set_taskheap n w).
Proof.
  intros Hpos. unfold taskheap_add, heap_multiplier. rewrite !bind_eq.
  cbv beta iota.
  destruct (_state_taskheap (thread w)) as [|[|heaps]] eqn:Hheap.
  - rewrite decide_False by lia. unfold mret, M_ret, th_insert. rewrite Hheap.
    by eexists.
  - rewrite decide_False by lia. unfold mret, M_ret, th_insert. rewrite Hheap.
    by eexists.
  - case_decide.
    + unfold th_pop, th_insert. rewrite Hheap. simpl. by eexists.
    + unfold mret, M_ret, th_insert. rewrite Hheap. by eexists.
Qed.

(** Without a positive capacity the heap is empty and is popped: the step
    raises [IndexError] and changes nothing. *)
Lemma taskheap_add_empty w :
  limit (tasks w) ≤ 0 → _state_taskheap (thread w) = 0%nat →
  taskheap_add w = (Raise IndexError, w).
Proof.
  intros Hle Hheap. unfold taskheap_add, heap_multiplier. rewrite !bind_eq.
  cbv beta iota. rewrite Hheap.
  rewrite decide_True by (simpl; lia). unfold th_pop. by rewrite Hheap.
Qed.

Lemma keeps_parent_lookup task : keeps prom_same (parent_lookup task).
Proof.
  unfold parent_lookup. destruct (truthy _) as [parent_id|]; [|apply keeps_ret].
  apply keeps_try_except; [|apply keeps_ret].
  apply keeps_bind; [|intros _; apply keeps_ret].
  apply keeps_on_tasks. intros c Hc.
  split; [by apply LRUCache_getitem_wf | apply LRUCache_getitem_limit].
Qed.

Lemma set_tasks_tasks w : set_tasks (tasks w) w = w.
Proof. by destruct w as [[]]. Qed.

(** The lookup of the parent moves it to the recent end when it is in the
    registry, and changes nothing otherwise. *)
Lemma parent_lookup_eq task w :
  limit (tasks w) = 0 ∨
    Z.of_nat (length (data (tasks w))) ≤ Z.max 0 (limit (tasks w)) →
  parent_lookup task w =
    (Ok tt, set_tasks {| data := parent_moved task (data (tasks w));
                         limit := limit (tasks w) |} w).
Proof.
  intros Hc. unfold parent_lookup, parent_moved, od_move_to_end.
  destruct (truthy _) as [parent_id|].
  - unfold try_except. rewrite bind_eq. unfold on_tasks.
    destruct (od_lookup parent_id (data (tasks w))) as [v|] eqn:Hk.
    + by rewrite (LRUCache_getitem_within parent_id v).
    + rewrite LRUCache_getitem_miss by done. simpl.
      by destruct w as [[[]]].
  - by destruct w as [[[]]].
Qed.

Lemma get_or_create_task_hit id rec w :
  od_lookup id (data (tasks w)) = Some rec →
  get_or_create_task id w = (Ok rec, w).
Proof. intros Hk. unfold get_or_create_task. by rewrite Hk. Qed.

Lemma get_or_create_task_miss id w :
  od_lookup id (data (tasks w)) = None →
  get_or_create_task id w =
    match LRUCache_setitem id Task_new (tasks w) with
    | (Ok _, c) => (Ok Task_new, set_tasks c w)
    | (Raise e, c) => (Raise e, set_tasks c w)
    end.
Proof.
  intros Hk. unfold get_or_create_task. rewrite Hk, bind_eq. unfold on_tasks.
  by destruct (LRUCache_setitem id Task_new (tasks w)) as [[[]|e] c].
Qed.

Lemma LRUCache_setitem_raises k v c e c' :
  LRUCache_setitem k v c = (Raise e, c') → c' = c.
Proof.
  unfold LRUCache_setitem. destruct (_ && _); [destruct (data c)|]; congruence.
Qed.

(** [State._event] once the five fields have been read. *)
Lemma State_event_fields st evt id w :
  has_task_fields evt → evt_uuid evt = Some id →
  State_event st evt w =
    (task ← get_or_create_task id;
     taskheap_add;;
     modify (λ w,
       set_tasks {| data := od_set id (Task_event st evt task) (data (tasks w));
                    limit := limit (tasks w) |} w);;
     parent_lookup (Task_event st evt task)) w.
Proof.
  intros (_ & [? Hh] & [? Ht] & [? Hl] & [? Hc]) Hid.
  unfold State_event. by rewrite Hid, Hh, Ht, Hl, Hc.
Qed.

Lemma keeps_State_event st evt :
  st ∉ READY_STATES → keeps prom_same (State_event st evt).
Proof.
  intros Hst w Hw.
  destruct (evt_uuid evt) as [uuid|] eqn:Hid;
    [|unfold State_event; rewrite Hid; by split_and!].
  destruct (evt_hostname evt) eqn:Hh;
    [|unfold State_event; rewrite Hid, Hh; by split_and!].
  destruct (evt_timestamp evt) eqn:Ht;
    [|unfold State_event; rewrite Hid, Hh, Ht; by split_and!].
  destruct (evt_local_received evt) as [r|] eqn:Hr;
    [|unfold State_event; rewrite Hid, Hh, Ht, Hr; by split_and!].
  destruct (evt_clock evt) eqn:Hc;
    [|unfold State_event; rewrite Hid, Hh, Ht, Hr, Hc; by split_and!].
  rewrite (State_event_fields st evt uuid)
    by (done || (unfold has_task_fields; rewrite ?Hid, ?Hh, ?Ht, ?Hr, ?Hc;
                 by split_and!)).
  rewrite bind_eq.
  (* what follows the lookup or the creation, with a positive capacity *)
  assert (∀ task c1 w1,
    w1 = set_tasks c1 w →
    limit c1 = limit (tasks w) → 0 < limit (tasks w) →
    cache_wf {| data := od_set uuid (Task_event st evt task) (data c1);
                limit := limit c1 |} →
    let res := (taskheap_add ≫= λ _,
              modify (λ w,
                set_tasks {| data := od_set uuid (Task_event st evt task)
                                            (data (tasks w));
                             limit := limit (tasks w) |} w) ≫= λ _,
              parent_lookup (Task_event st evt task)) w1 in
    wf res.2 ∧ limit (tasks res.2) = limit (tasks w) ∧ prom_same w res.2) as Hrest.
  { intros task c1 w1 -> Hl1 Hpos Hc1 res. unfold res. rewrite bind_eq.
    destruct (taskheap_add_positive (set_tasks c1 w)) as [n ->];
      [change (0 < limit c1); lia|].
    rewrite bind_eq. unfold modify at 1. cbv beta iota.
    set (w2 := set_tasks _ (set_taskheap n (set_tasks c1 w))).
    assert (wf w2) as Hw2.
    { destruct Hw as [_ ? ? _]. split; [exact Hc1|done|done|].
      change (limit c1 ≤ 0 → n = 0%nat). lia. }
    destruct (keeps_parent_lookup (Task_event st evt task) w2 Hw2)
      as (? & Hl2 & Hp2).
    split_and!; [done|etrans; [exact Hl2|exact Hl1]|].
    unfold prom_same in *. etrans; [exact Hp2|done]. }
  destruct (od_lookup uuid (data (tasks w))) as [t|] eqn:Hk.
  - rewrite (get_or_create_task_hit uuid t) by done.
    destruct (decide (0 < limit (tasks w))) as [Hpos|Hneg].
    + apply (Hrest t (tasks w)); [by rewrite set_tasks_tasks|done..|].
      destruct Hw as [[Hnd Hcap Hrec] _ _ _].
      split; unfold LRUCache_values in *; simpl.
      * by apply od_set_NoDup.
      * rewrite od_set_length_in; [done|].
        destruct (decide (uuid ∈ (data (tasks w)).*1)) as [|Hn]; [done|].
        apply od_lookup_None in Hn. congruence.
      * apply od_set_values; [|done]. apply tracked_record_positive; [done|].
        apply good_record_Task_event; [done|by rewrite Hr|left].
        apply (tracked_record_positive (limit (tasks w))); [done|].
        by apply (od_lookup_values _ _ _ _ Hrec Hk).
    + rewrite bind_eq, taskheap_add_empty by (lia || apply Hw; lia).
      by split_and!.
  - rewrite (get_or_create_task_miss uuid) by done.
    destruct (LRUCache_setitem uuid Task_new (tasks w)) as [[[]|e] c'] eqn:Hset.
    + pose proof (LRUCache_setitem_limit uuid Task_new (tasks w)) as Hl.
      rewrite Hset in Hl. simpl in Hl.
      destruct (decide (0 < limit (tasks w))) as [Hpos|Hneg].
      * pose proof (LRUCache_setitem_then_set _ _ (Task_event st evt Task_new) _ _ Hset)
          as Hset'.
        assert (tracked_record (limit (tasks w)) (Task_event st evt Task_new)) as Hgood.
        { apply tracked_record_positive; [done|].
          apply good_record_Task_event; [done|by rewrite Hr|by right]. }
        pose proof (LRUCache_setitem_wf uuid _ _ (wf_tasks _ Hw) Hgood) as Hwf'.
        rewrite Hset' in Hwf'. simpl in Hwf'.
        by apply (Hrest Task_new c').
      * pose proof (LRUCache_setitem_wf uuid Task_new _ (wf_tasks _ Hw)) as Hwf'.
        rewrite Hset in Hwf'. simpl in Hwf'.
        assert (wf (set_tasks c' w)) as Hw1.
        { apply wf_set_tasks; [done| |done]. apply Hwf'.
          apply tracked_record_fresh; [lia|done]. }
        rewrite bind_eq, taskheap_add_empty.
        -- by split_and!.
        -- change (limit c' ≤ 0). lia.
        -- apply (wf_taskheap _ Hw). lia.
    + apply LRUCache_setitem_raises in Hset as ->. rewrite set_tasks_tasks.
      by split_and!.
Qed.

(** ** The unready aggregation *)

Lemma collect_unready_ok w : _collect_unready_tasks w = (Ok tt, aggregate w).
Proof. done. Qed.

Lemma aggregate_tasks w : tasks (aggregate w) = tasks w.
Proof. done. Qed.

Lemma aggregate_known_states w s :
  s ∈ _known_states (thread (aggregate w)) ↔
  s ∈ _known_states (thread w) ∨ s ∈ task_state <$> LRUCache_values (tasks w).
Proof.
  unfold aggregate, _collect_unready_tasks. unfold_M. simpl.
  by rewrite elem_of_union, elem_of_dom_Counter.
Qed.

Lemma aggregate_known_states_names w k :
  k ∈ _known_states_names (thread (aggregate w)) ↔
  k ∈ _known_states_names (thread w) ∨
  k ∈ omap state_and_name (LRUCache_values (tasks w)).
Proof.
  unfold aggregate, _collect_unready_tasks. unfold_M. simpl.
  by rewrite elem_of_union, elem_of_dom_Counter.
Qed.

Lemma filter_fmap_length {A B} (f : A → B) (P : B → Prop)
    `{!∀ x, Decision (P x)} (l : list A) :
  length (filter P (f <$> l)) = length (filter (λ x, P (f x)) l).
Proof.
  induction l as [|x l IH]; [done|].
  rewrite fmap_cons, !filter_cons. destruct (decide (P (f x))); simpl; by rewrite IH.
Qed.

Lemma filter_omap_length {A B} (f : A → option B) (y : B)
    `{!EqDecision B} (l : list A) :
  length (filter (λ x, x = y) (omap f l)) = length (filter (λ x, f x = Some y) l).
Proof.
  induction l as [|x l IH]; [done|].
  rewrite (filter_cons _ x). csimpl. destruct (f x) as [z|] eqn:Hz.
  - rewrite filter_cons. destruct (decide (z = y)) as [->|Hne].
    + rewrite decide_True by done. simpl. by rewrite IH.
    + rewrite decide_False by congruence. done.
  - rewrite decide_False by done. done.
Qed.

(** After the aggregation, the gauge of every known state is the number of
    records in that state; other gauges of [tasks] are untouched. *)
Lemma aggregate_TASKS w s :
  TASKS (prom (aggregate w)) !! s =
    if decide (s ∈ _known_states (thread (aggregate w)))
    then Some (count_state s (tasks w))
    else TASKS (prom w) !! s.
Proof.
  unfold aggregate, _collect_unready_tasks. unfold_M. simpl.
  rewrite lookup_set_each, multiplicity_Counter.
  unfold count_state. by rewrite filter_fmap_length.
Qed.

Lemma aggregate_TASKS_NAME w s n :
  TASKS_NAME (prom (aggregate w)) !! (s, n) =
    if decide ((s, n) ∈ _known_states_names (thread (aggregate w)))
    then Some (count_state_name s n (tasks w))
    else TASKS_NAME (prom w) !! (s, n).
Proof.
  unfold aggregate, _collect_unready_tasks. unfold_M. simpl.
  rewrite lookup_set_each, multiplicity_Counter.
  unfold count_state_name. by rewrite filter_omap_length.
Qed.

Lemma aggregate_other_metrics w :
  TASKS_RUNTIME (prom (aggregate w)) = TASKS_RUNTIME (prom w) ∧
  LATENCY (prom (aggregate w)) = LATENCY (prom w) ∧
  WORKERS (prom (aggregate w)) = WORKERS (prom w) ∧
  QUEUE_SIZE (prom (aggregate w)) = QUEUE_SIZE (prom w) ∧
  QUEUE_TASKS (prom (aggregate w)) = QUEUE_TASKS (prom w).
Proof. done. Qed.

Lemma state_and_name_state t s n : state_and_name t = Some (s, n) → task_state t = s.
Proof.
  unfold state_and_name. destruct (task_name t); [|done].
  case_decide; [done|]. by intros [= <- _].
Qed.

Lemma wf_aggregate w : wf w → wf (aggregate w).
Proof.
  intros Hw. pose proof Hw as [[Hnd Hcap Hrec] Hks Hkn Hheap]. split.
  - done.
  - intros s [?|Hin]%aggregate_known_states; [auto|].
    apply list_elem_of_fmap in Hin as [t [-> Hin]].
    rewrite Forall_forall in Hrec. by eapply tracked_record_unready, Hrec.
  - intros s n [?|Hin]%aggregate_known_states_names; [eauto|].
    apply list_elem_of_omap in Hin as [t [Hin Ht]].
    apply state_and_name_state in Ht as <-.
    rewrite Forall_forall in Hrec. by eapply tracked_record_unready, Hrec.
  - done.
Qed.

(** The aggregation never writes a label of a ready state. *)
Lemma aggregate_ready_metrics_same w : wf w → ready_metrics_same w (aggregate w).
Proof.
  intros Hw. pose proof (wf_aggregate w Hw) as [_ Hks Hkn _]. split.
  - intros s Hs. rewrite aggregate_TASKS, decide_False; [done|].
    intros Hin. by apply Hks in Hin.
  - intros s n Hs. rewrite aggregate_TASKS_NAME, decide_False; [done|].
    intros Hin. by apply Hkn in Hin.
  - done.
  - done.
Qed.

Lemma keeps_collect_unready_tasks : keeps ready_metrics_same _collect_unready_tasks.
Proof.
  intros w Hw. rewrite collect_unready_ok. simpl.
  split_and!; [by apply wf_aggregate|done|by apply aggregate_ready_metrics_same].
Qed.

(** ** The methods of the monitor thread *)

Lemma keeps_modify_prom (R : relation world) (f : metrics → metrics) :
  (∀ w, R w (set_prom (f (prom w)) w)) → keeps R (modify_prom f).
Proof.
  intros Hf w Hw. unfold modify_prom, modify. simpl.
  split_and!; [by apply wf_set_prom|done|apply Hf].
Qed.

Lemma keeps_observe_latency evt : keeps latency_only (_observe_latency evt).
Proof.
  unfold _observe_latency. apply keeps_try_except_else.
  - apply keeps_bind; [apply keeps_getitem|]. intros uuid.
    apply (keeps_weaken prom_same).
    { intros w w' Hp. unfold prom_same in Hp. unfold latency_only. by rewrite Hp. }
    apply keeps_on_tasks. intros c Hc.
    split; [by apply LRUCache_getitem_wf | apply LRUCache_getitem_limit].
  - apply keeps_ret.
  - intros prev_evt. case_decide; [|apply keeps_ret].
    apply keeps_bind; [apply keeps_getitem|]. intros received.
    apply keeps_bind; [apply keeps_getattr|]. intros prev_received.
    apply keeps_modify_prom. by intros w.
Qed.

Lemma gauge_value_inc_le `{Countable K} (k k' : K) (g : gmap K Z) :
  gauge_value g k' ≤ gauge_value (gauge_inc k g) k'.
Proof.
  destruct (decide (k = k')) as [->|Hne].
  - rewrite gauge_value_inc. lia.
  - unfold gauge_value. rewrite gauge_value_inc_ne by done. lia.
Qed.

Lemma keeps_incr_ready_task evt st : keeps counters_up (_incr_ready_task evt st).
Proof.
  unfold _incr_ready_task. apply keeps_bind.
  { apply keeps_modify_prom. intros w. split; [done|]. intros s. simpl.
    apply gauge_value_inc_le. }
  intros _. apply keeps_try_except; [|apply keeps_ret].
  apply keeps_bind; [apply keeps_getitem|]. intros uuid.
  apply keeps_bind.
  { apply (keeps_weaken prom_same).
    { intros w w' Hp. unfold prom_same in Hp. unfold counters_up.
      rewrite Hp. split; [done|]. intros s. lia. }
    apply keeps_on_tasks. intros c Hc.
    split; [by apply LRUCache_pop_wf | apply LRUCache_pop_limit]. }
  intros event. apply keeps_bind.
  { apply keeps_modify_prom. intros w. split; [done|]. intros s. simpl. lia. }
  intros _. destruct (evt_runtime evt); [|apply keeps_ret].
  apply keeps_modify_prom. intros w. split; [done|]. intros s. simpl. lia.
Qed.

Section composite.
Context (R : relation world) `{!PreOrder R}.
Hypothesis R_prom_same : ∀ w w', prom_same w w' → R w w'.
Hypothesis R_counters_up : ∀ w w', counters_up w w' → R w w'.
Hypothesis R_ready_metrics_same : ∀ w w', ready_metrics_same w w' → R w w'.

Lemma keeps_collect_tasks evt st : keeps R (_collect_tasks evt st).
Proof.
  unfold _collect_tasks. apply keeps_bind.
  - case_decide.
    + by apply (keeps_weaken counters_up), keeps_incr_ready_task.
    + by apply (keeps_weaken prom_same), keeps_State_event.
  - intros _. by apply (keeps_weaken ready_metrics_same), keeps_collect_unready_tasks.
Qed.

Hypothesis R_latency_only : ∀ w w', latency_only w w' → R w w'.

Lemma keeps_process_event evt : keeps R (_process_event evt).
Proof.
  unfold _process_event. apply keeps_bind; [apply keeps_getitem|]. intros ty.
  case_decide; [|apply keeps_ret].
  apply keeps_bind; [apply keeps_getitem|]. intros st.
  apply keeps_bind; [|intros _; apply keeps_collect_tasks].
  case_decide; [|apply keeps_ret].
  by apply (keeps_weaken latency_only), keeps_observe_latency.
Qed.

Lemma keeps_run evts w :
  wf w →
  wf (run evts w) ∧ limit (tasks (run evts w)) = limit (tasks w) ∧
  R w (run evts w).
Proof.
  revert w. induction evts as [|evt evts IH]; intros w Hw; simpl.
  - by split_and!.
  - destruct (keeps_process_event evt w Hw) as (Hw' & Hl & HR).
    destruct (IH _ Hw') as (? & ? & ?).
    split_and!; [done|congruence|by etrans].
Qed.
End composite.

Global Instance any_change_preorder : PreOrder any_change.
Proof. by split. Qed.

Lemma wf_world_init max_tasks_in_memory : wf (world_init max_tasks_in_memory).
Proof.
  split; [split|..]; simpl.
  - apply NoDup_nil_2.
  - right. lia.
  - apply Forall_nil_2.
  - intros s Hs. by apply not_elem_of_empty in Hs.
  - intros s n Hs. by apply not_elem_of_empty in Hs.
  - done.
Qed.

Lemma wf_process_event evt w : wf w → wf (_process_event evt w).2.
Proof.
  intros Hw. by destruct (keeps_process_event any_change
    ltac:(done) ltac:(done) ltac:(done) ltac:(done) evt w Hw).
Qed.

Lemma limit_process_event evt w :
  wf w → limit (tasks (_process_event evt w).2) = limit (tasks w).
Proof.
  intros Hw. by destruct (keeps_process_event any_change
    ltac:(done) ltac:(done) ltac:(done) ltac:(done) evt w Hw) as (?&?&?).
Qed.

Lemma wf_run evts w : wf w → wf (run evts w).
Proof.
  intros Hw. by destruct (keeps_run any_change
    ltac:(done) ltac:(done) ltac:(done) ltac:(done) evts w Hw).
Qed.

Lemma limit_run evts w : wf w → limit (tasks (run evts w)) = limit (tasks w).
Proof.
  intros Hw. by destruct (keeps_run any_change
    ltac:(done) ltac:(done) ltac:(done) ltac:(done) evts w Hw) as (?&?&?).
Qed.

(** ** Handling one event *)

Lemma process_event_task evt st w :
  event_state evt = Some st →
  _process_event evt w =
    ((if decide (st = STARTED) then _observe_latency evt else mret tt) ≫=
       λ _, _collect_tasks evt st) w.
Proof.
  unfold event_state, _process_event. destruct (evt_type evt) as [ty|]; [|done].
  case_decide; [|done]. intros Hst. unfold_M. cbv beta iota.
  rewrite decide_True by done. cbv beta iota zeta. by rewrite Hst.
Qed.

Lemma STARTED_not_ready : STARTED ∉ READY_STATES.
Proof. by vm_compute. Qed.

Lemma process_event_ready evt st w :
  event_state evt = Some st → st ∈ READY_STATES →
  _process_event evt w =
    (_incr_ready_task evt st ≫= λ _, _collect_unready_tasks) w.
Proof.
  intros Hevt Hst. rewrite (process_event_task evt st) by done.
  unfold _collect_tasks.
  rewrite (decide_False (P := st = STARTED)), (decide_True (P := st ∈ READY_STATES));
    [done|done|].
  intros ->. by apply STARTED_not_ready.
Qed.

Lemma process_event_unready evt st w :
  event_state evt = Some st → st ∉ READY_STATES → st ≠ STARTED →
  _process_event evt w =
    (State_event st evt ≫= λ _, _collect_unready_tasks) w.
Proof.
  intros Hevt Hst Hne. rewrite (process_event_task evt st) by done.
  unfold _collect_tasks.
  by rewrite (decide_False (P := st = STARTED)),
             (decide_False (P := st ∈ READY_STATES)).
Qed.

(** The terminal path when the record is in the registry. *)
Lemma incr_ready_task_hit evt st id rec w :
  wf w → evt_uuid evt = Some id → od_lookup id (data (tasks w)) = Some rec →
  _incr_ready_task evt st w =
    (Ok tt,
     let m1 := set_TASKS (gauge_inc st (TASKS (prom w))) (prom w) in
     let m2 := set_TASKS_NAME
                 (gauge_inc (st, str (task_name rec)) (TASKS_NAME m1)) m1 in
     let m3 := match evt_runtime evt with
               | Some runtime =>
                   set_TASKS_RUNTIME
                     (histogram_observe (str (task_name rec)) runtime
                                        (TASKS_RUNTIME m2)) m2
               | None => m2
               end in
     set_prom m3
       (set_tasks {| data := od_delete id (data (tasks w));
                     limit := limit (tasks w) |} w)).
Proof.
  intros Hw Hid Hk. unfold _incr_ready_task. rewrite Hid. unfold_M.
  cbn -[LRUCache_pop]. rewrite (LRUCache_pop_hit id rec) by (done || apply Hw).
  by destruct (evt_runtime evt).
Qed.

(** The terminal path when the event has no uuid or the registry has no
    record for it: [KeyError] is caught. *)
Lemma incr_ready_task_miss evt st w :
  (∀ id, evt_uuid evt = Some id → od_lookup id (data (tasks w)) = None) →
  _incr_ready_task evt st w =
    (Ok tt, set_prom (set_TASKS (gauge_inc st (TASKS (prom w))) (prom w)) w).
Proof.
  intros Hmiss. unfold _incr_ready_task. unfold_M.
  destruct (evt_uuid evt) as [id|]; [|done].
  cbn -[LRUCache_pop]. rewrite LRUCache_pop_miss by auto.
  simpl. by destruct w as [[[]]].
Qed.

(** What [_observe_latency] does when the record is in the registry. *)
Lemma observe_latency_hit evt id rec w :
  wf w → evt_uuid evt = Some id → od_lookup id (data (tasks w)) = Some rec →
  _observe_latency evt w =
    let w1 := set_tasks {| data := od_delete id (data (tasks w)) ++ [(id, rec)];
                           limit := limit (tasks w) |} w in
    if decide (task_state rec = RECEIVED) then
      match evt_local_received evt, task_local_received rec with
      | Some received, Some prev_received =>
          (Ok tt,
           set_prom (set_LATENCY (LATENCY (prom w) ++
                                  [PrimFloat.sub received prev_received])
                                 (prom w)) w1)
      | Some _, None => (Raise AttributeError, w1)
      | None, _ => (Raise KeyError, w1)
      end
    else (Ok tt, w1).
Proof.
  intros Hw Hid Hk. unfold _observe_latency. rewrite Hid. unfold_M.
  cbn -[LRUCache_getitem]. rewrite (LRUCache_getitem_hit id rec) by (done || apply Hw).
  simpl. case_decide; [|done].
  by destruct (evt_local_received evt), (task_local_received rec).
Qed.

Lemma observe_latency_miss evt w :
  (∀ id, evt_uuid evt = Some id → od_lookup id (data (tasks w)) = None) →
  _observe_latency evt w = (Ok tt, w).
Proof.
  intros Hmiss. unfold _observe_latency. unfold_M.
  destruct (evt_uuid evt) as [id|]; [|done].
  cbn -[LRUCache_getitem]. rewrite LRUCache_getitem_miss by auto.
  simpl. by destruct w as [[[]]].
Qed.

Lemma latency_collect_tasks evt st w :
  wf w → LATENCY (prom (_collect_tasks evt st w).2) = LATENCY (prom w).
Proof.
  intros Hw.
  destruct (keeps_collect_tasks latency_same) with (evt := evt) (st := st) (w := w)
    as (_ & _ & HR); try done.
  - intros w1 w2 Hp. unfold prom_same in Hp. unfold latency_same. by rewrite Hp.
  - by intros w1 w2 [? _].
  - by intros w1 w2 [].
Qed.

(** * The claims *)







(** C2. Handling an event that carries its id and its [local_received]
    observes a latency exactly when the event is [STARTED] and the record
    stored for the id is in state [RECEIVED]; the value is the event's
    [local_received] minus the record's.  For any other event, any other
    stored state, or no record, the latency histogram is as before. *)
Theorem latency_observed_iff_received evt st id received w :
  wf w →
  event_state evt = Some st →
  evt_uuid evt = Some id →
  evt_local_received evt = Some received →
  let w' := (_process_event evt w).2 in
  (∀ rec, st = STARTED →
          od_lookup id (data (tasks w)) = Some rec →
          task_state rec = RECEIVED →
          ∃ prev_received,
            task_local_received rec = Some prev_received ∧
            LATENCY (prom w') =
              LATENCY (prom w) ++ [PrimFloat.sub received prev_received]) ∧
  (st ≠ STARTED ∨
   od_lookup id (data (tasks w)) = None ∨
   (∃ rec, od_lookup id (data (tasks w)) = Some rec ∧ task_state rec ≠ RECEIVED) →
   LATENCY (prom w') = LATENCY (prom w)).
Proof.
  intros Hw Hevt Hid Hrecv w'. unfold w'.
  rewrite (process_event_task evt st) by done. rewrite bind_eq.
  pose proof (keeps_observe_latency evt w Hw) as (Hw1 & _ & _).
  split.
  - intros rec -> Hk Hstate.
    destruct (tracked_record_good (limit (tasks w)) rec)
      as (_ & _ & [prev_received Hprev]).
    { apply (od_lookup_values _ _ _ _ (wf_records _ (wf_tasks _ Hw)) Hk). }
    { by rewrite Hstate. }
    exists prev_received. split; [done|].
    rewrite decide_True in * by done.
    rewrite (observe_latency_hit evt id rec) in * by done.
    cbv zeta in *. rewrite decide_True, Hrecv, Hprev in * by done.
    by rewrite latency_collect_tasks.
  - intros Hcase. destruct (decide (st = STARTED)) as [->|Hne].
    + destruct Hcase as [?|[Hk|(rec & Hk & Hstate)]]; [done| |].
      * rewrite observe_latency_miss in * by (intros ? ?; congruence).
        by rewrite latency_collect_tasks.
      * rewrite (observe_latency_hit evt id rec) in * by done.
        cbv zeta in *. rewrite decide_False in * by done.
        by rewrite latency_collect_tasks.
    + unfold mret, M_ret. by rewrite latency_collect_tasks.
Qed.

Lemma latency_observed_iff_received_witness :
  let received := make_event "task-received" "id1" 10 (Some "tasks.add"%string) None in
  let retried := make_event "task-retried" "id1" 10.5 None None in
  let started := make_event "task-started" "id1" 11.5 None None in
  LATENCY (prom (run [received; started] (world_init 10000))) = [1.5%float] ∧
  LATENCY (prom (run [received; retried; started] (world_init 10000))) = [].
Proof.
  intros received retried started. split.
  - destruct (latency_observed_iff_received started STARTED "id1" 11.5
                (run [received] (world_init 10000)))
      as [Hobs _]; [apply wf_run, wf_world_init|reflexivity..|].
    destruct (Hobs {| task_state := RECEIVED; task_name := Some "tasks.add"%string;
                      task_local_received := Some 10%float;
                      task_parent_id := None |})
      as (prev & Hprev & HL); [reflexivity..|].
    injection Hprev as <-. exact HL.
  - destruct (latency_observed_iff_received started STARTED "id1" 11.5
                (run [received; retried] (world_init 10000)))
      as [_ Hnone]; [apply wf_run, wf_world_init|reflexivity..|].
    apply Hnone. right. right.
    exists {| task_state := RETRY; task_name := Some "tasks.add"%string;
              task_local_received := Some 10.5%float;
              task_parent_id := None |}.
    split; [reflexivity|discriminate].
Defined.

(** C9, as amended.  For every state of [READY_STATES] (SUCCESS, FAILURE,
    REVOKED) the value of [tasks{state}] never goes down along a sequence
    of handled events, and no ready state ever enters the set of known
    states, so the unready aggregation never writes such a label. *)
Theorem ready_counters_monotone s evts1 evts2 w :
  wf w → s ∈ READY_STATES →
  gauge_value (TASKS (prom (run evts1 w))) s ≤
    gauge_value (TASKS (prom (run (evts1 ++ evts2) w))) s ∧
  (∀ s', s' ∈ _known_states (thread (run (evts1 ++ evts2) w)) →
         s' ∉ READY_STATES).
Proof.
  intros Hw Hs. split.
  - unfold run at 2. rewrite foldl_app. fold (run evts1 w).
    set (w1 := run evts1 w). fold (run evts2 w1).
    assert (wf w1) as Hw1 by by apply wf_run.
    destruct (keeps_run (ready_counter_le s)) with (evts := evts2) (w := w1)
      as (_ & _ & HR); try done.
    + intros w2 w3 Hp. unfold prom_same in Hp. unfold ready_counter_le.
      rewrite Hp. lia.
    + intros w2 w3 [_ Hle]. apply Hle.
    + intros w2 w3 [HT _ _ _]. unfold ready_counter_le, gauge_value.
      rewrite HT by done. lia.
    + intros w2 w3 (HT & _ & _). unfold ready_counter_le. rewrite HT. lia.
  - apply wf_known_states. by apply wf_run.
Qed.

Lemma ready_counters_monotone_witness :
  let received := make_event "task-received" "id1" 10 (Some "tasks.add"%string) None in
  let succeeded := make_event "task-succeeded" "id1" 12 None None in
  let other := make_event "task-received" "id2" 13 (Some "tasks.add"%string) None in
  gauge_value (TASKS (prom (run [received; succeeded] (world_init 1)))) SUCCESS ≤
  gauge_value (TASKS (prom (run ([received; succeeded] ++ [other]) (world_init 1))))
              SUCCESS.
Proof.
  intros received succeeded other.
  apply (ready_counters_monotone SUCCESS [received; succeeded] [other] (world_init 1)).
  - apply wf_world_init.
  - vm_compute. reflexivity.
Defined.

(** C9 as stated fails for REJECTED, which is not in [READY_STATES]: a
    rejected task stays in the registry, [tasks{REJECTED}] is a gauge of
    the aggregation, and it goes back to zero when the record leaves. *)
Lemma rejected_gauge_goes_down :
  let rejected := make_event "task-rejected" "id1" 10 None None in
  let succeeded := make_event "task-succeeded" "id1" 12 None None in
  event_state rejected = Some REJECTED ∧
  REJECTED ∈ _known_states (thread (run [rejected] (world_init 10000))) ∧
  gauge_value (TASKS (prom (run [rejected] (world_init 10000)))) REJECTED = 1 ∧
  gauge_value (TASKS (prom (run [rejected; succeeded] (world_init 10000)))) REJECTED = 0.
Proof. vm_compute. split_and!; reflexivity. Qed.

(** ** Events for a new id, and events that lack a field *)

(** [State._event] with a positive capacity, for an id that is in the
    registry: the record is updated in its place, and the parent of the
    task goes to the recent end. *)
Lemma State_event_tracked evt st id rec w :
  has_task_fields evt → evt_uuid evt = Some id →
  od_lookup id (data (tasks w)) = Some rec →
  0 < limit (tasks w) →
  Z.of_nat (length (data (tasks w))) ≤ limit (tasks w) →
  ∃ n,
    State_event st evt w =
      (Ok tt,
       set_tasks
         {| data := parent_moved (Task_event st evt rec)
                      (od_set id (Task_event st evt rec) (data (tasks w)));
            limit := limit (tasks w) |} (set_taskheap n w)).
Proof.
  intros Hf Hid Hk Hpos Hle. rewrite (State_event_fields st evt id) by done.
  rewrite bind_eq, (get_or_create_task_hit id rec) by done.
  rewrite bind_eq. destruct (taskheap_add_positive w Hpos) as [n ->].
  rewrite bind_eq. unfold modify at 1. cbv beta iota.
  rewrite parent_lookup_eq; [by exists n|].
  right. change (Z.of_nat (length (od_set id (Task_event st evt rec) (data (tasks w))))
                 ≤ Z.max 0 (limit (tasks w))).
  rewrite od_set_length_in; [lia|].
  destruct (decide (id ∈ (data (tasks w)).*1)) as [|Hn]; [done|].
  apply od_lookup_None in Hn. congruence.
Qed.

(** [State._event] with a positive capacity, for an id that is not in the
    registry: the new record goes to the recent end, after the record at
    the other end has been dropped when the registry is full; then the
    parent of the task goes to the recent end. *)
Lemma State_event_new evt st id w :
  has_task_fields evt → evt_uuid evt = Some id →
  od_lookup id (data (tasks w)) = None →
  0 < limit (tasks w) →
  Z.of_nat (length (data (tasks w))) ≤ limit (tasks w) →
  ∃ n,
    State_event st evt w =
      (Ok tt,
       set_tasks
         {| data := parent_moved (Task_event st evt Task_new)
                      ((if decide (Z.of_nat (length (data (tasks w)))
                                   = limit (tasks w))
                        then tail (data (tasks w)) else data (tasks w))
                       ++ [(id, Task_event st evt Task_new)]);
            limit := limit (tasks w) |} (set_taskheap n w)).
Proof.
  intros Hf Hid Hk Hpos Hle. rewrite (State_event_fields st evt id) by done.
  rewrite bind_eq, (get_or_create_task_miss id) by done.
  apply od_lookup_None in Hk.
  case_decide as Hfull.
  - destruct (data (tasks w)) as [|first rest] eqn:Hd; [simpl in *; lia|].
    rewrite (LRUCache_setitem_full id Task_new (tasks w) first rest)
      by (rewrite ?Hd; simpl in *; done || lia).
    assert (id ∉ rest.*1) as Hrest.
    { rewrite fmap_cons in Hk. apply not_elem_of_cons in Hk. tauto. }
    rewrite bind_eq.
    destruct (taskheap_add_positive
                (set_tasks {| data := rest ++ [(id, Task_new)];
                              limit := limit (tasks w) |} w)) as [n ->]; [done|].
    rewrite bind_eq. unfold modify at 1. cbv beta iota.
    rewrite parent_lookup_eq.
    + exists n. cbn [tasks thread _state_tasks set_tasks set_taskheap data limit].
      by rewrite od_set_app_last.
    + right. cbn [tasks thread _state_tasks set_tasks set_taskheap data limit].
      rewrite od_set_app_last, length_app by done. simpl in *. lia.
  - rewrite (LRUCache_setitem_room id Task_new (tasks w)) by (done || right; lia).
    rewrite bind_eq.
    destruct (taskheap_add_positive
                (set_tasks {| data := data (tasks w) ++ [(id, Task_new)];
                              limit := limit (tasks w) |} w)) as [n ->]; [done|].
    rewrite bind_eq. unfold modify at 1. cbv beta iota.
    rewrite parent_lookup_eq.
    + exists n. cbn [tasks thread _state_tasks set_tasks set_taskheap data limit].
      by rewrite od_set_app_last.
    + right. cbn [tasks thread _state_tasks set_tasks set_taskheap data limit].
      rewrite od_set_app_last, length_app by done. simpl in *. lia.
Qed.

(** [State._event] with the capacity 0, which the cache reads as no bound
    and which leaves no room in the task heap: a fresh task is stored for
    an id that is not in the registry, and [IndexError] is raised before
    [Task.event] is reached. *)
Lemma State_event_unbounded evt st id w :
  wf w → limit (tasks w) = 0 →
  has_task_fields evt → evt_uuid evt = Some id →
  State_event st evt w =
    (Raise IndexError,
     match od_lookup id (data (tasks w)) with
     | Some _ => w
     | None =>
         set_tasks {| data := data (tasks w) ++ [(id, Task_new)];
                      limit := limit (tasks w) |} w
     end).
Proof.
  intros Hw Hzero Hf Hid. rewrite (State_event_fields st evt id) by done.
  pose proof (wf_taskheap _ Hw) as Hheap.
  rewrite bind_eq. destruct (od_lookup id (data (tasks w))) as [rec|] eqn:Hk.
  - rewrite (get_or_create_task_hit id rec) by done.
    rewrite bind_eq, taskheap_add_empty; [done|lia|apply Hheap; lia].
  - rewrite (get_or_create_task_miss id) by done.
    apply od_lookup_None in Hk.
    rewrite (LRUCache_setitem_room id Task_new (tasks w)) by (done || by left).
    rewrite bind_eq, taskheap_add_empty; [done| |].
    + change (limit (tasks w) ≤ 0). lia.
    + apply Hheap. lia.
Qed.

(** [State._event] reads its five fields before it touches anything. *)
Lemma State_event_missing_field evt st w :
  evt_uuid evt = None ∨ evt_local_received evt = None →
  State_event st evt w = (Raise KeyError, w).
Proof.
  intros Hmiss. unfold State_event. unfold_M.
  destruct (evt_uuid evt); [|done]. destruct (evt_hostname evt); [|done].
  destruct (evt_timestamp evt); [|done].
  destruct (evt_local_received evt); [|done]. by destruct Hmiss.
Qed.

(** With the capacity 0 every record is a fresh task. *)
Lemma unbounded_record id rec w :
  wf w → limit (tasks w) ≤ 0 →
  od_lookup id (data (tasks w)) = Some rec → rec = Task_new.
Proof.
  intros Hw Hle Hk. apply (tracked_record_fresh (limit (tasks w))); [done|].
  apply (od_lookup_values _ _ _ _ (wf_records _ (wf_tasks _ Hw)) Hk).
Qed.

(** An unready event with all its fields, with the capacity 0. *)
Lemma unready_event_unbounded evt st id w :
  wf w → limit (tasks w) = 0 →
  event_state evt = Some st → st ∉ READY_STATES →
  has_task_fields evt → evt_uuid evt = Some id →
  ∃ w',
    _process_event evt w = (Raise IndexError, w') ∧
    prom w' = prom w ∧
    od_lookup id (data (tasks w')) = Some Task_new ∧
    (∀ k, k ≠ id →
          od_lookup k (data (tasks w')) = od_lookup k (data (tasks w))) ∧
    length (data (tasks w')) =
      match od_lookup id (data (tasks w)) with
      | Some _ => length (data (tasks w))
      | None => S (length (data (tasks w)))
      end.
Proof.
  intros Hw Hzero Hevt Hst Hf Hid.
  assert (∀ w1, wf w1 → limit (tasks w1) = 0 →
    ∃ w',
      (State_event st evt ≫= λ _, _collect_unready_tasks) w1
        = (Raise IndexError, w') ∧
      prom w' = prom w1 ∧
      od_lookup id (data (tasks w')) = Some Task_new ∧
      (∀ k, k ≠ id →
            od_lookup k (data (tasks w')) = od_lookup k (data (tasks w1))) ∧
      length (data (tasks w')) =
        match od_lookup id (data (tasks w1)) with
        | Some _ => length (data (tasks w1))
        | None => S (length (data (tasks w1)))
        end) as Hstep.
  { intros w1 Hw1 Hzero1.
    rewrite bind_eq, (State_event_unbounded evt st id) by done.
    destruct (od_lookup id (data (tasks w1))) as [rec|] eqn:Hk.
    - exists w1. split_and!; [done|done| |done|done].
      by rewrite Hk, (unbounded_record id rec w1) by (done || lia).
    - eexists. split; [done|]. apply od_lookup_None in Hk.
      cbn [tasks thread _state_tasks set_tasks data prom].
      split_and!; [done|by apply od_lookup_app_last| |].
      + intros k Hne. rewrite od_lookup_app.
        destruct (od_lookup k (data (tasks w1))); [done|]. simpl.
        by rewrite decide_False.
      + rewrite length_app. simpl. lia. }
  rewrite (process_event_task evt st) by done. rewrite bind_eq.
  unfold _collect_tasks. rewrite (decide_False (P := st ∈ READY_STATES)) by done.
  destruct (decide (st = STARTED)) as [->|Hne];
    [destruct (od_lookup id (data (tasks w))) as [rec|] eqn:Hk|].
  - pose proof (keeps_observe_latency evt w Hw) as (Hw1 & Hl1 & Hp1).
    rewrite (observe_latency_hit evt id rec) in * by done. cbv zeta in *.
    assert (rec = Task_new) as -> by (apply (unbounded_record id _ w); done || lia).
    rewrite decide_False in * by done. cbn [snd] in Hw1, Hl1, Hp1.
    destruct (Hstep _ Hw1) as (w' & -> & Hp & Hk' & Hother & Hlen);
      [by rewrite Hl1|].
    cbn [tasks thread _state_tasks set_tasks data prom snd] in *.
    assert (id ∉ (od_delete id (data (tasks w))).*1) as Hnot
      by apply od_delete_notin_keys.
    rewrite od_lookup_app_last in Hlen by done.
    exists w'. split_and!; [done|done|done| |].
    + intros k Hk0. rewrite Hother, od_lookup_app, od_lookup_delete_ne by done.
      destruct (od_lookup k (data (tasks w))); [done|]. simpl.
      by rewrite decide_False.
    + rewrite Hlen.
      apply (Permutation_length
               (od_delete_app_perm id Task_new (data (tasks w))
                  (wf_nodup _ (wf_tasks _ Hw)) Hk)).
  - rewrite observe_latency_miss by (intros ? ?; congruence).
    destruct (Hstep w Hw Hzero) as (w' & -> & Hp & Hk' & Hother & Hlen).
    rewrite Hk in Hlen. by exists w'.
  - unfold mret, M_ret.
    destruct (Hstep w Hw Hzero) as (w' & -> & Hp & Hk' & Hother & Hlen).
    by exists w'.
Qed.





(** With a positive capacity, the registry holds at most that many
    records. *)
Lemma wf_within_capacity w :
  wf w → 0 < limit (tasks w) →
  Z.of_nat (length (data (tasks w))) ≤ limit (tasks w).
Proof. intros [[_ Hcap _] _ _ _] Hpos. lia. Qed.

(** The result of an unready event with all its fields for an id that is
    in the registry, with a positive capacity. *)
Lemma unready_tracked_step evt st id rec w :
  wf w → 0 < limit (tasks w) →
  event_state evt = Some st → st ∉ READY_STATES →
  has_task_fields evt → evt_uuid evt = Some id →
  od_lookup id (data (tasks w)) = Some rec →
  ∃ w',
    _process_event evt w = (Ok tt, w') ∧
    data (tasks w') =
      parent_moved (Task_event st evt rec)
        (if decide (st = STARTED)
         then od_delete id (data (tasks w)) ++ [(id, Task_event st evt rec)]
         else od_set id (Task_event st evt rec) (data (tasks w))) ∧
    od_lookup id (data (tasks w')) = Some (Task_event st evt rec).
Proof.
  intros Hw Hpos Hevt Hst Hfields Hid Hk.
  pose proof Hfields as (_ & _ & _ & [received Hrecv] & _).
  pose proof (wf_within_capacity w Hw Hpos) as Hle.
  assert (good_record rec) as [_ [prev Hprev]].
  { apply (tracked_record_positive (limit (tasks w))); [done|].
    apply (od_lookup_values _ _ _ _ (wf_records _ (wf_tasks _ Hw)) Hk). }
  rewrite (process_event_task evt st) by done. rewrite bind_eq.
  unfold _collect_tasks. rewrite (decide_False (P := st ∈ READY_STATES)) by done.
  destruct (decide (st = STARTED)) as [->|Hne].
  - rewrite (observe_latency_hit evt id rec) by done. cbv zeta.
    rewrite Hrecv, Hprev.
    assert (∀ w1, od_lookup id (data (tasks w1)) = Some rec →
                  limit (tasks w1) = limit (tasks w) →
                  data (tasks w1) = od_delete id (data (tasks w)) ++ [(id, rec)] →
                  ∃ w',
                    (State_event STARTED evt ≫= λ _, _collect_unready_tasks) w1
                      = (Ok tt, w') ∧
                    data (tasks w') =
                      parent_moved (Task_event STARTED evt rec)
                        (od_delete id (data (tasks w))
                           ++ [(id, Task_event STARTED evt rec)])) as Hstep.
    { intros w1 Hk1 Hl1 Hd1. rewrite bind_eq.
      destruct (State_event_tracked evt STARTED id rec w1) as [n ->];
        [done|done|done|lia| |].
      - rewrite Hd1, Hl1.
        rewrite (Permutation_length (od_delete_app_perm id rec (data (tasks w))
                   (wf_nodup _ (wf_tasks _ Hw)) Hk)). done.
      - rewrite collect_unready_ok. eexists. split; [done|].
        rewrite aggregate_tasks.
        cbn [tasks thread _state_tasks set_tasks set_taskheap data].
        rewrite Hd1, od_set_app_last; [done|apply od_delete_notin_keys]. }
    assert (od_lookup id (od_delete id (data (tasks w)) ++ [(id, rec)]) = Some rec)
      as Hlast by apply od_lookup_app_last, od_delete_notin_keys.
    case_decide.
    + destruct (Hstep (set_prom (set_LATENCY
                         (LATENCY (prom w) ++ [PrimFloat.sub received prev]) (prom w))
                         (set_tasks {| data := od_delete id (data (tasks w)) ++ [(id, rec)];
                                       limit := limit (tasks w) |} w)))
        as (w' & -> & Hd); [done|done|done|].
      exists w'. split_and!; [done|done|].
      rewrite Hd, od_lookup_parent_moved.
      apply od_lookup_app_last, od_delete_notin_keys.
    + destruct (Hstep (set_tasks {| data := od_delete id (data (tasks w)) ++ [(id, rec)];
                                    limit := limit (tasks w) |} w))
        as (w' & -> & Hd); [done|done|done|].
      exists w'. split_and!; [done|done|].
      rewrite Hd, od_lookup_parent_moved.
      apply od_lookup_app_last, od_delete_notin_keys.
  - unfold mret, M_ret. rewrite bind_eq.
    destruct (State_event_tracked evt st id rec w) as [n ->]; [done..|].
    rewrite collect_unready_ok. eexists. split; [done|].
    rewrite aggregate_tasks.
    cbn [tasks thread _state_tasks set_tasks set_taskheap data].
    split; [done|]. rewrite od_lookup_parent_moved. apply od_lookup_set.
Qed.

(** C6, as amended.  With a positive [max_tasks_in_memory] the registry
    never holds more records than that.  When it is full, an unready event
    with all its fields for a new id raises nothing and drops exactly one
    record, the first of the cache, which is the least recently used one:
    a record goes to the other end when it is stored, when a STARTED event
    looks it up for the latency, and when [State._event] looks it up as the
    parent of the task of an event.  The new record is stored last, and its
    parent, when the registry still holds it, is moved after it; neither a
    gauge of a ready state nor a histogram changes for the dropped task.
    An unready event for an id that is in the registry drops nothing: it
    updates the record, in its place unless the event is STARTED, and moves
    the parent.
    With [max_tasks_in_memory = 0] nothing is ever dropped and there is no
    bound, but no record is ever updated either: every unready event with
    all its fields raises [IndexError] from the empty task heap, after a
    fresh task has been stored when the id is new, and changes no
    metric. *)
Theorem registry_bounded_lru w :
  wf w →
  (0 < limit (tasks w) →
   (∀ evts, Z.of_nat (length (data (tasks (run evts w)))) ≤ limit (tasks w)) ∧
   (∀ evt st id,
      event_state evt = Some st → st ∉ READY_STATES →
      has_task_fields evt → evt_uuid evt = Some id →
      od_lookup id (data (tasks w)) = None →
      Z.of_nat (length (data (tasks w))) = limit (tasks w) →
      ∃ w' lru rest,
        data (tasks w) = lru :: rest ∧
        _process_event evt w = (Ok tt, w') ∧
        data (tasks w') =
          parent_moved (Task_event st evt Task_new)
            (rest ++ [(id, Task_event st evt Task_new)]) ∧
        ready_metrics_same w w') ∧
   (∀ evt st id rec,
      event_state evt = Some st → st ∉ READY_STATES →
      has_task_fields evt → evt_uuid evt = Some id →
      od_lookup id (data (tasks w)) = Some rec →
      ∃ w',
        _process_event evt w = (Ok tt, w') ∧
        data (tasks w') =
          parent_moved (Task_event st evt rec)
            (if decide (st = STARTED)
             then od_delete id (data (tasks w)) ++ [(id, Task_event st evt rec)]
             else od_set id (Task_event st evt rec) (data (tasks w))))) ∧
  (limit (tasks w) = 0 →
   ∀ evt st id,
     event_state evt = Some st → st ∉ READY_STATES →
     has_task_fields evt → evt_uuid evt = Some id →
     ∃ w',
       _process_event evt w = (Raise IndexError, w') ∧
       prom w' = prom w ∧
       od_lookup id (data (tasks w')) = Some Task_new ∧
       (∀ k, k ≠ id →
             od_lookup k (data (tasks w')) = od_lookup k (data (tasks w))) ∧
       length (data (tasks w')) =
         match od_lookup id (data (tasks w)) with
         | Some _ => length (data (tasks w))
         | None => S (length (data (tasks w)))
         end).
Proof.
  intros Hw. split; [intros Hpos; split_and!|].
  - intros evts. pose proof (wf_run evts w Hw) as [[_ Hcap _] _ _ _].
    rewrite limit_run in Hcap by done. lia.
  - intros evt st id Hevt Hst Hfields Hid Hk Hfull.
    destruct (data (tasks w)) as [|lru rest] eqn:Hd; [simpl in *; lia|].
    rewrite (process_event_task evt st) by done. rewrite bind_eq.
    assert ((if decide (st = STARTED) then _observe_latency evt else mret tt) w
            = (Ok tt, w)) as ->.
    { case_decide; [|done]. apply observe_latency_miss.
      intros ? ?. rewrite Hd. congruence. }
    unfold _collect_tasks. rewrite decide_False by done. rewrite bind_eq.
    pose proof (keeps_State_event st evt Hst w Hw) as (Hw1 & _ & _).
    destruct (State_event_new evt st id w) as [n Hnew];
      [rewrite ?Hd; done || lia..|].
    rewrite Hnew in *. clear Hnew.
    rewrite decide_True in * by (by rewrite Hd).
    rewrite collect_unready_ok. rewrite Hd in *. simpl tail in *.
    set (w1 := set_tasks _ _) in *.
    exists (aggregate w1), lru, rest. split_and!; [done..|].
    pose proof (aggregate_ready_metrics_same w1 Hw1) as [HT HN HR HL].
    split; [intros s Hs; by rewrite HT|intros s n' Hs; by rewrite HN|
            by rewrite HR|by rewrite HL].
  - intros evt st id rec Hevt Hst Hfields Hid Hk.
    destruct (unready_tracked_step evt st id rec w) as (w' & Hrun & Hd & _);
      [done..|].
    by exists w'.
  - intros Hzero evt st id Hevt Hst Hfields Hid.
    by apply (unready_event_unbounded evt st id w).
Qed.

Lemma registry_bounded_lru_witness :
  let w := run [make_event "task-received" "a" 1 None None;
                make_event "task-received" "b" 2 None None] (world_init 2) in
  let evt := with_parent "b" (make_event "task-received" "c" 3 None None) in
  Z.of_nat (length (data (tasks (run [evt] w)))) ≤ 2 ∧
  ∃ w', _process_event evt w = (Ok tt, w') ∧ (data (tasks w')).*1 = ["c"; "b"]%string.
Proof.
  intros w evt.
  destruct (registry_bounded_lru w) as [Hpos _]; [apply wf_run, wf_world_init|].
  destruct Hpos as (Hbound & Hevict & _); [reflexivity|].
  split; [exact (Hbound [evt])|].
  destruct (Hevict evt RECEIVED "c"%string) as (w' & lru & rest & Hd & Hrun & Hd' & _).
  - reflexivity.
  - vm_compute. intros H. discriminate H.
  - repeat split; by eexists.
  - reflexivity.
  - reflexivity.
  - reflexivity.
  - exists w'. split; [exact Hrun|]. rewrite Hd'.
    injection Hd as _ <-. reflexivity.
Defined.

(** C6 as stated fails on which record is dropped: a STARTED event moves
    its record to the recent end, so the record dropped by the next new id
    is not the oldest by insertion.  With capacity 2, after [a] and [b] are
    received and [a] is started, receiving [c] drops [b] and keeps [a].
    It also fails when [max_tasks_in_memory] is 0, which the cache reads as
    no bound: the first event received raises [IndexError] and leaves one
    record in the registry. *)
Lemma eviction_is_not_by_insertion_order :
  let received (id : string) := make_event "task-received" id 1 None None in
  let started (id : string) := make_event "task-started" id 2 None None in
  (data (tasks (run [received "a"; received "b"; started "a"] (world_init 2)))).*1
    = ["b"; "a"]%string ∧
  (data (tasks (run [received "a"; received "b"; started "a"; received "c"]
                    (world_init 2)))).*1
    = ["a"; "c"]%string ∧
  (_process_event (received "a") (world_init 0)).1 = Raise IndexError ∧
  length (data (tasks (run [received "a"] (world_init 0)))) = 1%nat.
Proof. vm_compute. split_and!; reflexivity. Qed.

(** An unready event that lacks its uuid or its [local_received] makes the
    handler raise [KeyError]: no metric changes and the registry keeps its
    records (a STARTED event may have moved its record to the recent
    end). *)
Lemma unready_event_missing_field evt st w :
  wf w → event_state evt = Some st → st ∉ READY_STATES →
  evt_uuid evt = None ∨ evt_local_received evt = None →
  ∃ w',
    _process_event evt w = (Raise KeyError, w') ∧
    prom w' = prom w ∧
    data (tasks w') ≡ₚ data (tasks w) ∧
    _known_states (thread w') = _known_states (thread w) ∧
    _known_states_names (thread w') = _known_states_names (thread w) ∧
    (evt_uuid evt = None → w' = w).
Proof.
  intros Hw Hevt Hst Hmiss.
  rewrite (process_event_task evt st) by done. rewrite bind_eq.
  unfold _collect_tasks. rewrite (decide_False (P := st ∈ READY_STATES)) by done.
  destruct (decide (st = STARTED)) as [->|Hne].
  - destruct (evt_uuid evt) as [id|] eqn:Hid.
    + destruct Hmiss as [?|Hl]; [done|].
      destruct (od_lookup id (data (tasks w))) as [rec|] eqn:Hk.
      * rewrite (observe_latency_hit evt id rec) by done. cbv zeta.
        rewrite Hl. set (w1 := set_tasks _ w).
        assert (data (tasks w1) ≡ₚ data (tasks w)) as Hperm.
        { apply od_delete_app_perm; [apply Hw|done]. }
        case_decide.
        -- exists w1. by split_and!.
        -- rewrite bind_eq, State_event_missing_field by auto.
           exists w1. by split_and!.
      * rewrite observe_latency_miss by (intros ? ?; congruence).
        rewrite bind_eq, State_event_missing_field by auto.
        exists w. by split_and!.
    + rewrite observe_latency_miss by (intros ? ?; congruence).
      rewrite bind_eq, State_event_missing_field by auto.
      exists w. by split_and!.
  - unfold mret, M_ret. rewrite bind_eq, State_event_missing_field by done.
    exists w. by split_and!.
Qed.

(** An exception of the handler ends the capture: [_monitor] resets the
    baseline and the rest of the delivered events is not handled. *)
Lemma monitor_turn_handler_raises s evt rest e w w' :
  connects s = true → delivered s = evt :: rest →
  _process_event evt (set_prom (setup_metrics (inspect_on_connect s) (prom w)) w)
    = (Raise e, w') →
  _monitor_turn s w =
    (Ok tt, set_prom (setup_metrics (inspect_on_failure s) (prom w')) w').
Proof.
  intros Hc Hd Hraise. unfold _monitor_turn, capture. rewrite Hc, Hd.
  unfold_M. cbn -[_process_event setup_metrics]. unfold_M.
  by rewrite Hraise.
Qed.

(** C3, as amended.  An event of the task group that lacks a field is not
    checked beforehand; each field is read where it is used.  A terminal
    event without uuid raises nothing, leaves the registry as it is and
    still adds one to [tasks{state}].  An unready event without uuid or
    without [local_received] makes [_process_event] raise [KeyError] with
    no metric changed and the same records in the registry; the exception
    is not caught by the handler, so it ends the capture and [_monitor]
    handles it as a stream failure: the baseline is reset and the rest of
    the delivered events is not handled in that turn. *)
Theorem event_lacking_a_field evt st w :
  wf w → event_state evt = Some st →
  (st ∈ READY_STATES → evt_uuid evt = None →
     ∃ w', _process_event evt w = (Ok tt, w') ∧
           tasks w' = tasks w ∧
           gauge_value (TASKS (prom w')) st = gauge_value (TASKS (prom w)) st + 1) ∧
  (st ∉ READY_STATES →
   evt_uuid evt = None ∨ evt_local_received evt = None →
     (∃ w', _process_event evt w = (Raise KeyError, w') ∧
            prom w' = prom w ∧
            data (tasks w') ≡ₚ data (tasks w) ∧
            (evt_uuid evt = None → w' = w)) ∧
     (∀ s rest, connects s = true → delivered s = evt :: rest →
        ∃ w', _monitor_turn s w = (Ok tt, w') ∧
              data (tasks w') ≡ₚ data (tasks w) ∧
              prom w' = setup_metrics (inspect_on_failure s)
                          (setup_metrics (inspect_on_connect s) (prom w)))).
Proof.
  intros Hw Hevt. split.
  - intros Hst Hid.
    rewrite (process_event_ready evt st) by done.
    rewrite bind_eq, incr_ready_task_miss by (intros ? ?; congruence).
    rewrite collect_unready_ok. set (w1 := set_prom _ _).
    assert (wf w1) as Hw1 by by apply wf_set_prom.
    pose proof (aggregate_ready_metrics_same w1 Hw1) as [HT _ _ _].
    eexists. split_and!; [done|done|].
    unfold gauge_value at 1. rewrite HT by done. apply gauge_value_inc.
  - intros Hst Hmiss. split.
    + destruct (unready_event_missing_field evt st w) as (w' & ? & ? & ? & _ & _ & ?);
        try done.
      exists w'. by split_and!.
    + intros s rest Hc Hd.
      set (w0 := set_prom (setup_metrics (inspect_on_connect s) (prom w)) w).
      destruct (unready_event_missing_field evt st w0) as (w' & Hr & Hp & Hperm & _);
        [by apply wf_set_prom|done..|].
      rewrite (monitor_turn_handler_raises s evt rest KeyError w w') by done.
      eexists. split_and!; [done|done|]. simpl. by rewrite Hp.
Qed.

Lemma event_lacking_a_field_witness :
  let evt := {| evt_type := Some "task-received"%string; evt_uuid := None;
                evt_hostname := Some "worker1"%string; evt_timestamp := Some 1%float;
                evt_local_received := Some 1%float; evt_clock := Some 1;
                evt_name := None; evt_runtime := None;
                evt_parent_id := None |} in
  ∃ w', _process_event evt (world_init 10000) = (Raise KeyError, w') ∧
        prom w' = metrics_init.
Proof.
  intros evt.
  destruct (event_lacking_a_field evt RECEIVED (world_init 10000))
    as [_ Hunready]; [apply wf_world_init|reflexivity|].
  destruct Hunready as [(w' & Hr & Hp & _) _].
  - vm_compute. intros H. discriminate H.
  - left. reflexivity.
  - exists w'. split; [exact Hr|exact Hp].
Defined.

(** C3 as stated fails: a terminal event without uuid changes a metric,
    and an unready event without uuid is raised to [_monitor], which
    resets the gauges that the events before it had set. *)
Lemma event_without_uuid_is_not_dropped :
  let no_uuid (ty : string) :=
    {| evt_type := Some ty; evt_uuid := None;
       evt_hostname := Some "worker1"%string; evt_timestamp := Some 2%float;
       evt_local_received := Some 2%float; evt_clock := Some 1;
       evt_name := None; evt_runtime := None; evt_parent_id := None |} in
  let received := make_event "task-received" "id1" 1 None None in
  let quiet := {| registered_tasks := Some []; active_queues := Some [] |} in
  let s := {| connects := true; inspect_on_connect := quiet;
              delivered := [received; no_uuid "task-started"];
              capture_fails := false; inspect_on_failure := quiet |} in
  gauge_value (TASKS (prom (world_init 10000))) SUCCESS = 0 ∧
  gauge_value
    (TASKS (prom (_process_event (no_uuid "task-succeeded") (world_init 10000)).2))
    SUCCESS = 1 ∧
  (_process_event (no_uuid "task-started") (world_init 10000)).1 = Raise KeyError ∧
  gauge_value (TASKS (prom (run [received] (world_init 10000)))) RECEIVED = 1 ∧
  gauge_value (TASKS (prom (_monitor_turn s (world_init 10000)).2)) RECEIVED = 0.
Proof. vm_compute. split_and!; reflexivity. Qed.

(** ** Workers and queues *)

(** C7. A ping that is answered sets the workers gauge to the number of
    replies; a ping that raises leaves every metric, and so the workers
    gauge, as it was. *)
Theorem workers_gauge_after_ping (m : metrics) :
  (∀ replies, WORKERS (update_workers_count (Ok replies) m)
              = Z.of_nat (length replies)) ∧
  (∀ e, update_workers_count (Raise e) m = m) ∧
  (∀ replies e,
     length replies = 3%nat →
     WORKERS (update_workers_count (Raise e) (update_workers_count (Ok replies) m))
       = 3).
Proof.
  split_and!; [done|done|]. intros replies e Hlen. simpl. by rewrite Hlen.
Qed.

Lemma foldl_snoc {A B} (f : A → B) (acc : list B) (l : list A) :
  foldl (λ acc x, acc ++ [f x]) acc l = acc ++ (f <$> l).
Proof.
  revert acc. induction l as [|x l IH]; intros acc; simpl.
  - by rewrite app_nil_r.
  - by rewrite IH, <-app_assoc.
Qed.

Lemma get_queue_names_loop (l : list (list queue)) (acc : list string) :
  foldl (λ names node, foldl (λ names q, names ++ [queue_name q]) names node)
        acc l
  = acc ++ concat ((λ node : list queue, queue_name <$> node) <$> l).
Proof.
  revert acc. induction l as [|node l IH]; intros acc.
  - simpl. by rewrite app_nil_r.
  - cbn [foldl]. rewrite IH, (foldl_snoc queue_name), fmap_cons.
    simpl. by rewrite app_assoc.
Qed.

Lemma get_queue_names_Some app active :
  inspect_queues app = Some active →
  get_queue_names app =
    Ok (concat ((λ node : string * list queue, queue_name <$> node.2) <$> active)).
Proof.
  intros Ha. unfold get_queue_names. rewrite Ha. f_equal.
  rewrite get_queue_names_loop. simpl. by rewrite <-list_fmap_compose.
Qed.

(** C4, as amended.  The queue names used by a sampling pass are the
    concatenation, worker after worker, of the names of the queues of each
    worker: a queue consumed by several workers is listed once for each
    of them. *)
Theorem queue_names_are_concatenated active lists :
  get_queue_names {| inspect_queues := Some active; redis := lists |} =
    Ok (concat ((λ node : string * list queue, queue_name <$> node.2) <$> active)).
Proof. by apply get_queue_names_Some. Qed.

(** C4 as stated fails: two workers that consume the same queue give its
    name twice. *)
Lemma queue_names_are_not_deduplicated :
  let celery := {| queue_name := "celery"; queue_routing_key := "celery" |} in
  let app := {| inspect_queues := Some [("worker1"%string, [celery]);
                                        ("worker2"%string, [celery])];
                redis := Some ∅ |} in
  get_queue_names app = Ok ["celery"; "celery"]%string ∧
  ¬ NoDup ["celery"; "celery"]%string.
Proof.
  split; [reflexivity|]. intros [Hin _]%NoDup_cons. apply Hin. by left.
Qed.

(** ** The queue sampling pass *)

Lemma foldl_extend {A B} (f : A → list B) (acc : list B) (l : list A) :
  foldl (λ acc x, acc ++ f x) acc l = acc ++ concat (f <$> l).
Proof.
  revert acc. induction l as [|x l IH]; intros acc; simpl.
  - by rewrite app_nil_r.
  - by rewrite IH, <-app_assoc.
Qed.

Lemma get_queues_Some app lists names :
  redis app = Some lists →
  get_queues app names = Ok (concat (queue_replies lists <$> names)).
Proof.
  intros Hr. unfold get_queues. rewrite Hr. f_equal.
  by rewrite (foldl_extend (queue_replies lists)).
Qed.

Lemma chunks_queue_replies lists names :
  chunks (concat (queue_replies lists <$> names)) 2 = queue_replies lists <$> names.
Proof.
  unfold chunks.
  assert (∀ fuel, (length names ≤ fuel)%nat →
            chunks_fuel fuel (concat (queue_replies lists <$> names)) 2
            = queue_replies lists <$> names) as Hfuel.
  { induction names as [|q names IH]; intros fuel Hle.
    - by destruct fuel.
    - destruct fuel as [|fuel]; [simpl in Hle; lia|].
      rewrite fmap_cons. simpl. f_equal. apply IH. simpl in Hle. lia. }
  apply Hfuel. clear Hfuel.
  induction names as [|q names IH]; [done|].
  rewrite fmap_cons. cbn [concat queue_replies app length] in *. lia.
Qed.

Lemma zip_fmap_self {A B} (f : A → B) (l : list A) :
  zip l (f <$> l) = (λ x, (x, f x)) <$> l.
Proof. induction l as [|x l IH]; [done|]. rewrite !fmap_cons. simpl. by rewrite IH. Qed.

Lemma get_tasks_stat_loop (tasks : list payload) (acc : gmap string Z) t :
  foldl (λ name2count task,
           match task with
           | None => name2count
           | Some task_json =>
               match msg_headers task_json with
               | Some h =>
                   match hdr_task h with
                   | Some n => <[n := default 0 (name2count !! n) + 1]> name2count
                   | None => name2count
                   end
               | None => name2count
               end
           end) acc tasks !! t =
    if decide (count_task t tasks = 0) then acc !! t
    else Some (default 0 (acc !! t) + count_task t tasks).
Proof.
  unfold count_task. revert acc.
  induction tasks as [|p tasks IH]; intros acc; [done|].
  cbn [foldl]. rewrite IH. clear IH. rewrite filter_cons.
  destruct (decide (task_of p = Some t)) as [Hp|Hp].
  - destruct p as [[[[[n|]]|]]|]; simpl in Hp; try done. injection Hp as ->.
    cbn [msg_headers hdr_task length]. rewrite lookup_insert_eq. cbn [default].
    rewrite Nat2Z.inj_succ. repeat case_decide; try lia; f_equal; unfold id; lia.
  - assert (∀ (n : string) (g : gmap string Z), task_of p = Some n →
              <[n := default 0 (g !! n) + 1]> g !! t = g !! t) as Hins.
    { intros n g Hn. rewrite lookup_insert_ne; [done|]. congruence. }
    destruct p as [[[[[n|]]|]]|]; simpl in *; rewrite ?Hins; done.
Qed.

(** [get_tasks_stat] counts, for each task-type name, the payloads that
    decode and carry it; a name that no payload carries has no entry. *)
Lemma lookup_get_tasks_stat tasks t :
  get_tasks_stat tasks !! t =
    if decide (count_task t tasks = 0) then None else Some (count_task t tasks).
Proof.
  unfold get_tasks_stat. rewrite get_tasks_stat_loop, lookup_empty. simpl.
  by case_decide.
Qed.

Lemma sample_tasks_loop (q : string) (l : list (string * Z))
    (known_tasks : gset (string * string)) w :
  for_each (λ (known_tasks : gset (string * string)) (kv : string * Z),
              modify_prom (λ m,
                set_QUEUE_TASKS (gauge_set (q, kv.1) kv.2 (QUEUE_TASKS m)) m);;
              mret ({[ (q, kv.1) ]} ∪ known_tasks))
           known_tasks l w =
    (Ok (foldl (λ (known : gset (string * string)) (kv : string * Z),
                  {[ (q, kv.1) ]} ∪ known) known_tasks l),
     set_prom (set_QUEUE_TASKS
                 (foldl (λ g (kv : string * Z), gauge_set (q, kv.1) kv.2 g)
                        (QUEUE_TASKS (prom w)) l)
                 (prom w)) w).
Proof.
  revert known_tasks w. induction l as [|kv l IH]; intros known_tasks w.
  - simpl. by destruct w as [? []].
  - cbn [for_each foldl]. rewrite bind_eq. unfold_M. cbv beta iota.
    fold (@mret M _). rewrite IH. by destruct w as [? []].
Qed.

Lemma lookup_foldl_gauge_set (q : string) (l : list (string * Z)) (g : gmap (string * string) Z)
    q' t :
  NoDup l.*1 →
  foldl (λ g (kv : string * Z), gauge_set (q, kv.1) kv.2 g) g l !! (q', t) =
    if decide (q' = q)
    then match (list_to_map l : gmap string Z) !! t with
         | Some c => Some c
         | None => g !! (q', t)
         end
    else g !! (q', t).
Proof.
  revert g. induction l as [|[t' c] l IH]; intros g Hnd.
  - simpl. by case_decide.
  - rewrite fmap_cons in Hnd. apply NoDup_cons in Hnd as [Hnotin Hnd].
    cbn [foldl fst snd] in *. rewrite IH by done. rewrite list_to_map_cons.
    unfold gauge_set.
    case_decide as Hq; [subst q'|].
    + destruct (decide (t' = t)) as [->|Hne].
      * rewrite (not_elem_of_list_to_map_1 _ t) by done.
        by rewrite !lookup_insert_eq.
      * rewrite (lookup_insert_ne _ t' t) by done.
        destruct (_ !! t); [done|]. rewrite lookup_insert_ne; [done|congruence].
    + rewrite lookup_insert_ne; [done|congruence].
Qed.

Lemma elem_of_foldl_known (q : string) (l : list (string * Z)) (known : gset (string * string))
    q' t :
  (q', t) ∈ foldl (λ (known : gset (string * string)) (kv : string * Z),
                     {[ (q, kv.1) ]} ∪ known) known l ↔
  (q', t) ∈ known ∨ (q' = q ∧ t ∈ l.*1).
Proof.
  revert known. induction l as [|[t' c] l IH]; intros known.
  - simpl. split; [by left|]. intros [?|[_ ?%elem_of_nil]]; done.
  - cbn [foldl fst]. rewrite IH, fmap_cons, elem_of_union, elem_of_singleton,
      elem_of_cons. simpl. split.
    + intros [[[= -> ->]|?]|[-> ?]]; auto.
    + intros [?|[-> [->|?]]]; auto.
Qed.

(** One turn of the loop of the sampling pass, for a queue and the replies
    of the pipeline for it. *)
Lemma sample_queue_spec lists q known_queues known_tasks w :
  ∃ known_tasks' w',
    sample_queue (known_queues, known_tasks) (q, queue_replies lists q) w =
      (Ok ({[ q ]} ∪ known_queues, known_tasks'), w') ∧
    QUEUE_SIZE (prom w') =
      <[q := Z.of_nat (length (queue_items lists q))]> (QUEUE_SIZE (prom w)) ∧
    (∀ q' t,
       QUEUE_TASKS (prom w') !! (q', t) =
         if decide (q' = q)
         then match get_tasks_stat (queue_items lists q) !! t with
              | Some c => Some c
              | None => QUEUE_TASKS (prom w) !! (q', t)
              end
         else QUEUE_TASKS (prom w) !! (q', t)) ∧
    (∀ q' t,
       (q', t) ∈ known_tasks' ↔
       (q', t) ∈ known_tasks ∨
       (q' = q ∧ is_Some (get_tasks_stat (queue_items lists q) !! t))).
Proof.
  unfold sample_queue, queue_replies. rewrite bind_eq.
  unfold modify_prom at 1, modify at 1. cbv beta iota.
  rewrite bind_eq, sample_tasks_loop. unfold mret, M_ret.
  eexists _, _. split; [done|]. split_and!.
  - done.
  - intros q' t. simpl.
    rewrite lookup_foldl_gauge_set by apply NoDup_fst_map_to_list.
    by rewrite list_to_map_to_list.
  - intros q' t. rewrite elem_of_foldl_known.
    assert (t ∈ (map_to_list (get_tasks_stat (queue_items lists q))).*1 ↔
            is_Some (get_tasks_stat (queue_items lists q) !! t)) as ->; [|done].
    rewrite list_elem_of_fmap. split.
    + intros [[t' c] [-> Hin]]. apply elem_of_map_to_list in Hin. by eexists.
    + intros [c Hc]. exists (t, c). split; [done|]. by apply elem_of_map_to_list.
Qed.

Lemma sample_loop_spec lists names known_queues known_tasks w :
  ∃ known_queues' known_tasks' w',
    for_each sample_queue (known_queues, known_tasks)
             ((λ q, (q, queue_replies lists q)) <$> names) w =
      (Ok (known_queues', known_tasks'), w') ∧
    (∀ q, QUEUE_SIZE (prom w') !! q =
            if decide (q ∈ names)
            then Some (Z.of_nat (length (queue_items lists q)))
            else QUEUE_SIZE (prom w) !! q) ∧
    (∀ q, q ∈ known_queues' ↔ q ∈ known_queues ∨ q ∈ names) ∧
    (∀ q t, QUEUE_TASKS (prom w') !! (q, t) =
              if decide (q ∈ names)
              then match get_tasks_stat (queue_items lists q) !! t with
                   | Some c => Some c
                   | None => QUEUE_TASKS (prom w) !! (q, t)
                   end
              else QUEUE_TASKS (prom w) !! (q, t)) ∧
    (∀ q t, (q, t) ∈ known_tasks' ↔
            (q, t) ∈ known_tasks ∨
            (q ∈ names ∧ is_Some (get_tasks_stat (queue_items lists q) !! t))).
Proof.
  revert known_queues known_tasks w.
  induction names as [|q0 names IH]; intros known_queues known_tasks w.
  - exists known_queues, known_tasks, w. split; [done|]. split_and!.
    + intros q. rewrite decide_False; [done|]. apply not_elem_of_nil.
    + intros q. split; [by left|]. intros [?|?%elem_of_nil]; done.
    + intros q t. rewrite decide_False; [done|]. apply not_elem_of_nil.
    + intros q t. split; [by left|]. intros [?|[?%elem_of_nil _]]; done.
  - rewrite fmap_cons. cbn [for_each]. rewrite bind_eq.
    destruct (sample_queue_spec lists q0 known_queues known_tasks w)
      as (kt1 & w1 & -> & Hsize1 & Htasks1 & Hkt1).
    destruct (IH ({[ q0 ]} ∪ known_queues) kt1 w1)
      as (kq2 & kt2 & w2 & -> & Hsize2 & Hkq2 & Htasks2 & Hkt2).
    exists kq2, kt2, w2. split; [done|]. split_and!.
    + intros q. rewrite Hsize2, Hsize1.
      destruct (decide (q ∈ names)) as [Hin|Hin].
      * rewrite (decide_True (P := q ∈ q0 :: names)); [done|]. by right.
      * destruct (decide (q0 = q)) as [->|Hne].
        -- rewrite lookup_insert_eq, (decide_True (P := q ∈ q :: names)); [done|].
           by left.
        -- rewrite lookup_insert_ne by done.
           rewrite (decide_False (P := q ∈ q0 :: names)); [done|].
           rewrite elem_of_cons. intros [?|?]; congruence.
    + intros q. rewrite Hkq2, elem_of_union, elem_of_singleton, elem_of_cons.
      tauto.
    + intros q t. rewrite Htasks2, Htasks1.
      destruct (decide (q ∈ names)) as [Hin|Hin].
      * rewrite (decide_True (P := q ∈ q0 :: names)) by (by right).
        destruct (get_tasks_stat (queue_items lists q) !! t) eqn:Hstat; [done|].
        case_decide; [subst q0|done]. by rewrite Hstat.
      * destruct (decide (q = q0)) as [->|Hne].
        -- rewrite (decide_True (P := q0 ∈ q0 :: names)); [done|]. by left.
        -- rewrite (decide_False (P := q ∈ q0 :: names)); [done|].
           rewrite elem_of_cons. intros [?|?]; congruence.
    + intros q t. rewrite Hkt2, Hkt1, elem_of_cons. split.
      * intros [[?|[-> ?]]|[? ?]]; auto.
      * intros [?|[[->|?] ?]]; auto.
Qed.

(** C5. After a sampling pass that the broker answers, a queue of the pass
    holds its sampled length and a task type found in it holds its count;
    every combination published before that is absent from the pass (a
    queue that is no longer active, a task type that no longer occurs in
    its queue) holds zero; and no other series is created. *)
Theorem queue_gauges_after_pass app active lists w :
  inspect_queues app = Some active →
  redis app = Some lists →
  let names :=
    concat ((λ node : string * list queue, queue_name <$> node.2) <$> active) in
  ∃ w',
    update_queues_metrics app w = (Ok tt, w') ∧
    (∀ q, q ∈ names →
          QUEUE_SIZE (prom w') !! q
            = Some (Z.of_nat (length (queue_items lists q)))) ∧
    (∀ q, q ∉ names →
          QUEUE_SIZE (prom w') !! q = (λ _, 0) <$> QUEUE_SIZE (prom w) !! q) ∧
    (∀ q t, q ∈ names → count_task t (queue_items lists q) ≠ 0 →
            QUEUE_TASKS (prom w') !! (q, t)
              = Some (count_task t (queue_items lists q))) ∧
    (∀ q t, q ∉ names ∨ count_task t (queue_items lists q) = 0 →
            QUEUE_TASKS (prom w') !! (q, t)
              = (λ _, 0) <$> QUEUE_TASKS (prom w) !! (q, t)).
Proof.
  intros Ha Hr names. unfold update_queues_metrics.
  rewrite bind_eq, (get_queue_names_Some app active) by done. fold names.
  rewrite bind_eq, (get_queues_Some app lists) by done.
  rewrite chunks_queue_replies, zip_fmap_self, bind_eq.
  destruct (sample_loop_spec lists names ∅ ∅ w)
    as (kq & kt & w1 & -> & Hsize & Hkq & Htasks & Hkt).
  eexists. split; [done|]. simpl. split_and!.
  - intros q Hq. rewrite lookup_reset_metrics, Hsize, decide_True by done.
    simpl. rewrite decide_True; [done|]. apply Hkq. by right.
  - intros q Hq. rewrite lookup_reset_metrics, Hsize, decide_False by done.
    destruct (QUEUE_SIZE (prom w) !! q); [simpl|done].
    rewrite decide_False; [done|].
    intros [?%not_elem_of_empty|?]%Hkq; done.
  - intros q t Hq Hcount.
    pose proof (lookup_get_tasks_stat (queue_items lists q) t) as Hstat.
    rewrite decide_False in Hstat by done.
    rewrite lookup_reset_metrics, Htasks, decide_True, Hstat by done.
    simpl. rewrite decide_True; [done|]. apply Hkt. right. by rewrite Hstat.
  - intros q t Hcase.
    assert ((q, t) ∉ kt) as Hnot.
    { intros [?%not_elem_of_empty|[Hq Hstat]]%Hkt; [done|].
      destruct Hcase as [?|Hzero]; [done|].
      rewrite lookup_get_tasks_stat, decide_True in Hstat by done.
      by destruct Hstat. }
    rewrite lookup_reset_metrics, Htasks.
    assert ((if decide (q ∈ names)
             then match get_tasks_stat (queue_items lists q) !! t with
                  | Some c => Some c
                  | None => QUEUE_TASKS (prom w) !! (q, t)
                  end
             else QUEUE_TASKS (prom w) !! (q, t))
            = QUEUE_TASKS (prom w) !! (q, t)) as ->.
    { case_decide as Hq; [|done]. destruct Hcase as [?|Hzero]; [done|].
      by rewrite lookup_get_tasks_stat, decide_True. }
    destruct (QUEUE_TASKS (prom w) !! (q, t)); [simpl|done].
    by rewrite decide_False.
Qed.

Lemma queue_gauges_after_pass_witness :
  let task_a := Some {| msg_headers := Some {| hdr_task := Some "A"%string |} |} in
  let q1 := {| queue_name := "q1"; queue_routing_key := "q1" |} in
  let q2 := {| queue_name := "q2"; queue_routing_key := "q2" |} in
  let first := {| inspect_queues := Some [("worker1"%string, [q1; q2])];
                  redis := Some {[ "q1"%string := [task_a; task_a; task_a] ]} |} in
  let second := {| inspect_queues := Some [("worker1"%string, [q1])];
                   redis := Some ∅ |} in
  let w1 := (update_queues_metrics first (world_init 10000)).2 in
  QUEUE_SIZE (prom w1) !! "q1"%string = Some 3 ∧
  QUEUE_TASKS (prom w1) !! ("q1", "A")%string = Some 3 ∧
  ∃ w2,
    update_queues_metrics second w1 = (Ok tt, w2) ∧
    QUEUE_SIZE (prom w2) !! "q1"%string = Some 0 ∧
    QUEUE_SIZE (prom w2) !! "q2"%string = Some 0 ∧
    QUEUE_TASKS (prom w2) !! ("q1", "A")%string = Some 0.
Proof.
  intros task_a q1 q2 first second w1.
  split; [vm_compute; reflexivity|]. split; [vm_compute; reflexivity|].
  destruct (queue_gauges_after_pass second [("worker1"%string, [q1])] ∅ w1)
    as (w2 & Hrun & Hin & Hout & _ & Hzero); [reflexivity..|].
  exists w2. split; [exact Hrun|]. split; [|split].
  - rewrite Hin; [reflexivity|]. vm_compute. left.
  - rewrite Hout; [vm_compute; reflexivity|].
    vm_compute. intros H. inversion H as [|? ? ? H']. inversion H'.
  - rewrite Hzero; [vm_compute; reflexivity|]. right. reflexivity.
Defined.

(** ** The baseline *)

(** The inner loop of [setup_metrics] for one state. *)
Lemma setup_names_loop (st : state) (names : gset string) (m : metrics) :
  let m' := set_fold (λ task_name m,
                        set_TASKS_NAME
                          (gauge_set (st, task_name) 0 (TASKS_NAME m)) m)
                     m names in
  TASKS m' = TASKS m ∧ WORKERS m' = WORKERS m ∧
  (∀ s n, TASKS_NAME m' !! (s, n) =
            if decide (s = st ∧ n ∈ names) then Some 0
            else TASKS_NAME m !! (s, n)).
Proof.
  set (P := λ (m' : metrics) (X : gset string),
         TASKS m' = TASKS m ∧ WORKERS m' = WORKERS m ∧
         ∀ s n, TASKS_NAME m' !! (s, n) =
                  if decide (s = st ∧ n ∈ X) then Some 0
                  else TASKS_NAME m !! (s, n)).
  change (P (set_fold (λ task_name m,
                         set_TASKS_NAME
                           (gauge_set (st, task_name) 0 (TASKS_NAME m)) m)
                      m names) names).
  apply set_fold_ind_L; unfold P.
  - split_and!; [done|done|]. intros s n. rewrite decide_False; [done|].
    intros [_ ?%not_elem_of_empty]. done.
  - intros x X r Hx (HT & HW & HN). split_and!; [done|done|].
    intros s n. simpl. unfold gauge_set.
    destruct (decide ((st, x) = (s, n))) as [[= <- <-]|Hne].
    + rewrite lookup_insert_eq, decide_True; [done|].
      split; [done|]. apply elem_of_union_l, elem_of_singleton. done.
    + rewrite lookup_insert_ne, HN by done.
      destruct (decide (s = st ∧ n ∈ X)) as [[-> Hin]|Hno].
      * rewrite decide_True; [done|]. split; [done|]. by apply elem_of_union_r.
      * rewrite decide_False; [done|].
        rewrite elem_of_union, elem_of_singleton. intros [-> [->|?]]; tauto.
Qed.

(** The outer loop of [setup_metrics]. *)
Lemma setup_states_loop (states : gset state) (names : gset string) (m : metrics) :
  let m' := set_fold (λ st m,
                        let m := set_TASKS (gauge_set st 0 (TASKS m)) m in
                        set_fold (λ task_name m,
                                    set_TASKS_NAME
                                      (gauge_set (st, task_name) 0 (TASKS_NAME m)) m)
                                 m names)
                     m states in
  WORKERS m' = WORKERS m ∧
  (∀ s, TASKS m' !! s = if decide (s ∈ states) then Some 0 else TASKS m !! s) ∧
  (∀ s n, TASKS_NAME m' !! (s, n) =
            if decide (s ∈ states ∧ n ∈ names) then Some 0
            else TASKS_NAME m !! (s, n)).
Proof.
  set (P := λ (m' : metrics) (X : gset state),
         WORKERS m' = WORKERS m ∧
         (∀ s, TASKS m' !! s = if decide (s ∈ X) then Some 0 else TASKS m !! s) ∧
         (∀ s n, TASKS_NAME m' !! (s, n) =
                   if decide (s ∈ X ∧ n ∈ names) then Some 0
                   else TASKS_NAME m !! (s, n))).
  change (P (set_fold (λ st m,
                        let m := set_TASKS (gauge_set st 0 (TASKS m)) m in
                        set_fold (λ task_name m,
                                    set_TASKS_NAME
                                      (gauge_set (st, task_name) 0 (TASKS_NAME m)) m)
                                 m names)
                     m states) states).
  apply set_fold_ind_L; unfold P.
  - split_and!; [done| |].
    + intros s. rewrite decide_False; [done|]. apply not_elem_of_empty.
    + intros s n. rewrite decide_False; [done|].
      intros [?%not_elem_of_empty _]. done.
  - intros x X r Hx (HW & HT & HN). cbv zeta.
    destruct (setup_names_loop x names (set_TASKS (gauge_set x 0 (TASKS r)) r))
      as (HT' & HW' & HN').
    split_and!.
    + by rewrite HW'.
    + intros s. rewrite HT'. simpl. unfold gauge_set.
      destruct (decide (x = s)) as [->|Hne].
      * rewrite lookup_insert_eq, decide_True; [done|].
        apply elem_of_union_l, elem_of_singleton. done.
      * rewrite lookup_insert_ne, HT by done.
        destruct (decide (s ∈ X)) as [Hin|Hin].
        -- rewrite decide_True; [done|]. by apply elem_of_union_r.
        -- rewrite decide_False; [done|].
           rewrite elem_of_union, elem_of_singleton. intros [?|?]; congruence.
    + intros s n. rewrite HN'. simpl. rewrite HN.
      destruct (decide (s = x ∧ n ∈ names)) as [[-> Hn]|Hno].
      * rewrite decide_True; [done|]. split; [|done].
        apply elem_of_union_l, elem_of_singleton. done.
      * destruct (decide (s ∈ X ∧ n ∈ names)) as [[Hin Hn]|Hno'].
        -- rewrite decide_True; [done|]. split; [|done]. by apply elem_of_union_r.
        -- rewrite decide_False; [done|].
           rewrite elem_of_union, elem_of_singleton. intros [[->|?] ?]; tauto.
Qed.

(** C8, as amended.  [_monitor] runs [setup_metrics] when a turn fails and
    again after it has reconnected, before [capture] handles any event.
    [setup_metrics] sets the workers gauge to zero.  When introspection
    answers, it sets to zero [tasks{state}] for the states of [ALL_STATES]
    and [tasks_by_name{state,name}] for those states and the task names
    that are registered now, and leaves every other combination at its
    value; when introspection fails, it sets every combination published so
    far to zero. *)
Theorem baseline_reset (app : inspect) (m : metrics) :
  WORKERS (setup_metrics app m) = 0 ∧
  (∀ registered queues,
     registered_tasks app = Some registered → active_queues app = Some queues →
     (∀ s, TASKS (setup_metrics app m) !! s =
             if decide (s ∈ ALL_STATES) then Some 0 else TASKS m !! s) ∧
     (∀ s n, TASKS_NAME (setup_metrics app m) !! (s, n) =
               if decide (s ∈ ALL_STATES ∧ n ∈ concat (registered.*2)) then Some 0
               else TASKS_NAME m !! (s, n))) ∧
  (registered_tasks app = None ∨ active_queues app = None →
     (∀ s, TASKS (setup_metrics app m) !! s = (λ _, 0) <$> TASKS m !! s) ∧
     (∀ k, TASKS_NAME (setup_metrics app m) !! k = (λ _, 0) <$> TASKS_NAME m !! k)) ∧
  (∀ s w,
     (connects s = true →
      _monitor_turn s w =
        try_except (capture s) (λ _, true)
                   (modify_prom (setup_metrics (inspect_on_failure s)))
                   (set_prom (setup_metrics (inspect_on_connect s) (prom w)) w)) ∧
     (connects s = false →
      _monitor_turn s w =
        (Ok tt, set_prom (setup_metrics (inspect_on_failure s) (prom w)) w))).
Proof.
  split_and!.
  - unfold setup_metrics.
    destruct (registered_tasks app) as [registered|], (active_queues app); try done.
    pose proof (setup_states_loop ALL_STATES (list_to_set (concat (registered.*2)))
                  (set_WORKERS 0 m)) as H.
    cbv zeta in *. by destruct H as (-> & _ & _).
  - intros registered queues Hr Hq. unfold setup_metrics. rewrite Hr, Hq.
    pose proof (setup_states_loop ALL_STATES (list_to_set (concat (registered.*2)))
                  (set_WORKERS 0 m)) as H.
    cbv zeta in *. destruct H as (_ & HT & HN).
    split; [done|]. intros s n. rewrite HN. simpl.
    destruct (decide (s ∈ ALL_STATES ∧ n ∈ concat (registered.*2))) as [[? ?]|Hno].
    + rewrite decide_True; [done|]. split; [done|]. by apply elem_of_list_to_set.
    + rewrite decide_False; [done|]. rewrite elem_of_list_to_set. tauto.
  - intros Hfail. unfold setup_metrics.
    assert (match registered_tasks app, active_queues app with
            | Some _, Some _ => False | _, _ => True end) as Hcase.
    { destruct Hfail as [-> | ->]; [done|]. by destruct (registered_tasks app). }
    destruct (registered_tasks app), (active_queues app); try done;
      simpl; split; intros; apply (lookup_reset_metrics _ None).
  - intros s w. split; intros Hc; unfold _monitor_turn; rewrite Hc; [|done].
    unfold try_except. by rewrite bind_eq.
Qed.

(** C8 as stated fails when introspection answers: a combination whose task
    name is no longer registered keeps its value, and so does
    [tasks{REJECTED}], REJECTED not being in [ALL_STATES]. *)
Lemma stale_name_survives_reset :
  let m := set_TASKS_NAME {[ (SUCCESS, "old.task"%string) := 5 ]}
             (set_TASKS {[ REJECTED := 2; SUCCESS := 7 ]} metrics_init) in
  let app := {| registered_tasks := Some [("worker1"%string, ["new.task"%string])];
                active_queues := Some [] |} in
  TASKS_NAME (setup_metrics app m) !! (SUCCESS, "old.task"%string) = Some 5 ∧
  TASKS (setup_metrics app m) !! REJECTED = Some 2 ∧
  TASKS (setup_metrics app m) !! SUCCESS = Some 0 ∧
  TASKS_NAME (setup_metrics app m) !! (SUCCESS, "new.task"%string) = Some 0.
Proof. vm_compute. split_and!; reflexivity. Qed.

(** A pass that the broker does not answer is abandoned before any metric
    is touched. *)
Lemma queue_pass_abandoned app w :
  inspect_queues app = None ∨ redis app = None →
  ∃ e, update_queues_metrics app w = (Raise e, w).
Proof.
  intros Hfail. unfold update_queues_metrics, get_queue_names, get_queues.
  rewrite !bind_eq.
  destruct (inspect_queues app); [|by eexists].
  destruct Hfail as [?| ->]; [done|]. by eexists.
Qed.

(** * Further properties of the code *)

(** ** The classification of events *)

Lemma group_from_empty ty :
  group_from ty = EmptyString →
  ty = EmptyString ∨ ∃ rest, ty = String "-" rest.
Proof.
  destruct ty as [|c rest]; [by left|]. simpl.
  destruct (Ascii.eqb c "-") eqn:Hc; [|done].
  apply Ascii.eqb_eq in Hc as ->. right. by eexists.
Qed.

Lemma group_from_cons c g ty :
  group_from ty = String c g →
  ∃ rest, ty = String c rest ∧ group_from rest = g ∧ c ≠ "-"%char.
Proof.
  destruct ty as [|c' rest]; [done|]. simpl.
  destruct (Ascii.eqb c' "-") eqn:Hc; [done|].
  intros [= -> <-]. exists rest. split_and!; [done|done|].
  intros ->. by rewrite Ascii.eqb_refl in Hc.
Qed.

(** X1. The type of an event is of the task group exactly when it is
    [task] or starts with [task-]; the subtype that [_process_event] looks
    up, [evt['type'][5:]], is then what follows that prefix. *)
Theorem task_group_iff_prefix (ty : string) :
  group_from ty = "task"%string ↔
  ty = "task"%string ∨ ty = ("task-" +:+ slice_from 5 ty)%string.
Proof.
  split.
  - intros H.
    apply group_from_cons in H as (r1 & -> & H & _).
    apply group_from_cons in H as (r2 & -> & H & _).
    apply group_from_cons in H as (r3 & -> & H & _).
    apply group_from_cons in H as (r4 & -> & H & _).
    apply group_from_empty in H as [->|[rest ->]]; [by left|by right].
  - intros [->|H]; [done|]. rewrite H. done.
Qed.

(** X2. An event that is not of the task group (a worker heartbeat, for
    example) is ignored: nothing is raised and nothing changes. *)
Theorem other_groups_are_ignored evt ty w :
  evt_type evt = Some ty → group_from ty ≠ "task"%string →
  _process_event evt w = (Ok tt, w).
Proof.
  intros Hty Hg. unfold _process_event. rewrite Hty. unfold_M. cbv beta iota.
  by rewrite decide_False.
Qed.

Lemma other_groups_are_ignored_witness :
  let evt := make_event "worker-heartbeat" "id1" 1 None None in
  let w := run [make_event "task-received" "id1" 1 None None] (world_init 10) in
  _process_event evt w = (Ok tt, w).
Proof.
  intros evt w. apply (other_groups_are_ignored evt "worker-heartbeat" w).
  - reflexivity.
  - vm_compute. intros H. discriminate H.
Defined.

(** X3. An event without a type, or of the task group with a subtype that
    [TASK_EVENT_TO_STATE] does not list (a custom event such as
    [task-progress]), makes [_process_event] raise [KeyError], which it
    does not catch; nothing has changed when it is raised. *)
Theorem unlisted_subtype_raises evt w :
  evt_type evt = None ∨
  (∃ ty, evt_type evt = Some ty ∧ group_from ty = "task"%string ∧
         TASK_EVENT_TO_STATE !! slice_from 5 ty = None) →
  _process_event evt w = (Raise KeyError, w).
Proof.
  intros [Hty|(ty & Hty & Hg & Hsub)]; unfold _process_event; rewrite Hty;
    unfold_M; cbv beta iota; [done|].
  rewrite decide_True by done. cbv zeta. by rewrite Hsub.
Qed.

Lemma unlisted_subtype_raises_witness :
  let evt := make_event "task-progress" "id1" 1 None None in
  _process_event evt (world_init 10) = (Raise KeyError, world_init 10).
Proof.
  intros evt. apply (unlisted_subtype_raises evt). right.
  exists "task-progress"%string. split; [reflexivity|]. split; reflexivity.
Defined.

(** ** Rules for relations that hold from any state *)

Section always_rules.
Context {R : relation world} `{!PreOrder R}.

Lemma always_ret {A} (a : A) : always R (mret a).
Proof. intros w. cbn. reflexivity. Qed.

Lemma always_raise {A} e : always R (raise (A:=A) e).
Proof. intros w. cbn. reflexivity. Qed.

Lemma always_bind {A B} (m : M A) (f : A → M B) :
  always R m → (∀ a, always R (f a)) → always R (m ≫= f).
Proof.
  intros Hm Hf w. rewrite bind_eq. specialize (Hm w).
  destruct (m w) as [[a|e] w']; [|done]. simpl in *. etrans; [done|apply Hf].
Qed.

Lemma always_try_except {A} (body handler : M A) handles :
  always R body → always R handler → always R (try_except body handles handler).
Proof.
  intros Hb Hh w. unfold try_except. specialize (Hb w).
  destruct (body w) as [[a|e] w']; [done|]. destruct (handles e); [|done].
  simpl in *. etrans; [done|apply Hh].
Qed.

Lemma always_try_except_else {A B} (body : M A) (handler : M B) handles orelse :
  always R body → always R handler → (∀ a, always R (orelse a)) →
  always R (try_except_else body handles handler orelse).
Proof.
  intros Hb Hh He w. unfold try_except_else. specialize (Hb w).
  destruct (body w) as [[a|e] w']; simpl in *.
  - etrans; [done|apply He].
  - destruct (handles e); [|done]. etrans; [done|apply Hh].
Qed.

Lemma always_getitem {A} (field : option A) : always R (getitem field).
Proof. destruct field; [apply always_ret | apply always_raise]. Qed.

Lemma always_getattr {A} (field : option A) : always R (getattr field).
Proof. destruct field; [apply always_ret | apply always_raise]. Qed.

Lemma always_for_each {A S} (body : S → A → M S) acc l :
  (∀ acc x, always R (body acc x)) → always R (for_each body acc l).
Proof.
  intros Hb. revert acc. induction l as [|x l IH]; intros acc; simpl.
  - apply always_ret.
  - apply always_bind; auto.
Qed.

Lemma always_modify (f : world → world) :
  (∀ w, R w (f w)) → always R (modify f).
Proof. intros Hf w. apply Hf. Qed.

Lemma always_modify_prom (f : metrics → metrics) :
  (∀ w, R w (set_prom (f (prom w)) w)) → always R (modify_prom f).
Proof. intros Hf w. apply Hf. Qed.

Lemma always_on_tasks {A} (op : LRUCache → result A * LRUCache) :
  (∀ w c, R w (set_tasks c w)) → always R (on_tasks op).
Proof.
  intros Hf w. unfold on_tasks. destruct (op (tasks w)) as [r c]. apply Hf.
Qed.
End always_rules.

Global Instance known_grow_preorder : PreOrder known_grow.
Proof.
  split; [by split|]. intros w1 w2 w3 [? ?] [? ?]. split; by etrans.
Qed.

Section thread_steps.
Context (R : relation world) `{!PreOrder R}.
Hypothesis R_set_tasks : ∀ w c, R w (set_tasks c w).
Hypothesis R_set_taskheap : ∀ w n, R w (set_taskheap n w).
Hypothesis R_set_prom : ∀ w m, R w (set_prom m w).

Lemma always_taskheap_add : always R taskheap_add.
Proof.
  unfold taskheap_add.
  apply always_bind; [intros w; reflexivity|]. intros heaps.
  apply always_bind; [intros w; reflexivity|]. intros max_events_in_heap.
  apply always_bind.
  - case_decide; [|apply always_ret]. intros w. unfold th_pop.
    destruct (_state_taskheap _); [reflexivity|apply R_set_taskheap].
  - intros _ w. unfold th_insert.
    destruct heaps, (_state_taskheap _); try reflexivity; apply R_set_taskheap.
Qed.

Lemma always_parent_lookup task : always R (parent_lookup task).
Proof.
  unfold parent_lookup. destruct (truthy _); [|apply always_ret].
  apply always_try_except; [|apply always_ret].
  apply always_bind; [by apply always_on_tasks|]. intros ?. apply always_ret.
Qed.

Lemma always_State_event st evt : always R (State_event st evt).
Proof.
  unfold State_event.
  do 5 (apply always_bind; [apply always_getitem|]; intros ?).
  apply always_bind.
  - intros w. unfold get_or_create_task. destruct (od_lookup _ _); [reflexivity|].
    apply always_bind; [by apply always_on_tasks|]. intros ?. apply always_ret.
  - intros task. apply always_bind; [apply always_taskheap_add|]. intros _.
    apply always_bind; [|intros _; apply always_parent_lookup].
    apply always_modify. intros w. apply R_set_tasks.
Qed.

Lemma always_observe_latency evt : always R (_observe_latency evt).
Proof.
  unfold _observe_latency. apply always_try_except_else.
  - apply always_bind; [apply always_getitem|]. intros uuid.
    by apply always_on_tasks.
  - apply always_ret.
  - intros prev. case_decide; [|apply always_ret].
    apply always_bind; [apply always_getitem|]. intros ?.
    apply always_bind; [apply always_getattr|]. intros ?.
    apply always_modify_prom. intros w. apply R_set_prom.
Qed.

Lemma always_incr_ready_task evt st : always R (_incr_ready_task evt st).
Proof.
  unfold _incr_ready_task.
  apply always_bind; [apply always_modify_prom; intros w; apply R_set_prom|].
  intros _. apply always_try_except; [|apply always_ret].
  apply always_bind; [apply always_getitem|]. intros uuid.
  apply always_bind; [by apply always_on_tasks|]. intros event.
  apply always_bind; [apply always_modify_prom; intros w; apply R_set_prom|].
  intros _. destruct (evt_runtime evt); [|apply always_ret].
  apply always_modify_prom. intros w. apply R_set_prom.
Qed.

Lemma always_before_aggregate evt st : always R (before_aggregate evt st).
Proof.
  apply always_bind.
  - case_decide; [apply always_observe_latency|apply always_ret].
  - intros _. case_decide; [apply always_incr_ready_task|apply always_State_event].
Qed.
End thread_steps.

Lemma known_grow_aggregate w : known_grow w (aggregate w).
Proof.
  split.
  - intros s Hs. apply aggregate_known_states. by left.
  - intros k Hk. apply aggregate_known_states_names. by left.
Qed.

(** [_process_event] on an event of the task group is the steps before
    the aggregation followed by the aggregation. *)
Lemma process_event_steps evt st w :
  event_state evt = Some st →
  _process_event evt w =
    (before_aggregate evt st ≫= λ _, _collect_unready_tasks) w.
Proof.
  intros Hevt. rewrite (process_event_task evt st) by done.
  unfold before_aggregate, _collect_tasks. rewrite !bind_eq.
  destruct ((if decide (st = STARTED) then _observe_latency evt else mret tt) w)
    as [[[]|e] w0]; [|done].
  by rewrite bind_eq.
Qed.

(** An event of the task group that is handled without an exception ends
    with the unready aggregation, run from a state whose known labels
    include the ones known before. *)
Lemma process_event_ends_with_aggregate evt st w w' :
  event_state evt = Some st → _process_event evt w = (Ok tt, w') →
  ∃ w1, w' = aggregate w1 ∧ known_grow w w1.
Proof.
  intros Hevt. rewrite (process_event_steps evt st) by done. rewrite bind_eq.
  pose proof (always_before_aggregate known_grow ltac:(done) ltac:(done) ltac:(done) evt st w)
    as Hgrow.
  destruct (before_aggregate evt st w) as [[[]|e] w1]; [|done].
  rewrite collect_unready_ok. intros [= <-]. by exists w1.
Qed.

Lemma event_state_cases evt :
  (∃ st, event_state evt = Some st) ∨
  (∃ r, ∀ w, _process_event evt w = (r, w)).
Proof.
  unfold event_state, _process_event. unfold_M.
  destruct (evt_type evt) as [ty|]; [|right; by eexists].
  cbv beta iota. case_decide; [|right; by eexists].
  destruct (TASK_EVENT_TO_STATE !! slice_from 5 ty) as [st|]; [left; by eexists|].
  right. by eexists.
Qed.

Lemma always_known_grow_process_event evt :
  always known_grow (_process_event evt).
Proof.
  intros w. destruct (event_state_cases evt) as [[st Hevt]|[r Hr]].
  - rewrite (process_event_steps evt st) by done. rewrite bind_eq.
    pose proof (always_before_aggregate known_grow ltac:(done) ltac:(done) ltac:(done) evt st w)
      as Hgrow.
    destruct (before_aggregate evt st w) as [[[]|e] w1]; [|done].
    rewrite collect_unready_ok. simpl in *. etrans; [done|apply known_grow_aggregate].
  - by rewrite Hr.
Qed.

(** X4. After an event of the task group has been handled without an
    exception, the gauges of the in-flight tasks are a snapshot of the
    registry: for every state that is or was ever seen in the registry,
    [tasks{state}] is the number of records in that state now (zero when
    none is left), and for every state and name ever seen,
    [tasks_by_name{state,name}] is the number of records in that state
    with that name. *)
Theorem unready_gauges_are_a_snapshot evt st w w' :
  event_state evt = Some st →
  _process_event evt w = (Ok tt, w') →
  (∀ s, s ∈ _known_states (thread w) ∨
        s ∈ task_state <$> LRUCache_values (tasks w') →
        TASKS (prom w') !! s = Some (count_state s (tasks w'))) ∧
  (∀ s n, (s, n) ∈ _known_states_names (thread w) ∨
          (s, n) ∈ omap state_and_name (LRUCache_values (tasks w')) →
          TASKS_NAME (prom w') !! (s, n)
            = Some (count_state_name s n (tasks w'))).
Proof.
  intros Hevt Hrun.
  destruct (process_event_ends_with_aggregate evt st w w' Hevt Hrun)
    as (w1 & -> & [Hks Hkn]).
  split.
  - intros s Hs. rewrite aggregate_TASKS, decide_True; [done|].
    apply aggregate_known_states. destruct Hs as [Hs|Hs]; [left; by apply Hks|by right].
  - intros s n Hs. rewrite aggregate_TASKS_NAME, decide_True; [done|].
    apply aggregate_known_states_names.
    destruct Hs as [Hs|Hs]; [left; by apply Hkn|by right].
Qed.

Lemma unready_gauges_are_a_snapshot_witness :
  let received := make_event "task-received" "id1" 1 (Some "tasks.add"%string) None in
  let started := make_event "task-started" "id1" 2 None None in
  let w := run [received] (world_init 10) in
  let w' := (_process_event started w).2 in
  TASKS (prom w') !! RECEIVED = Some 0 ∧
  TASKS (prom w') !! STARTED = Some 1 ∧
  TASKS_NAME (prom w') !! (RECEIVED, "tasks.add"%string) = Some 0 ∧
  TASKS_NAME (prom w') !! (STARTED, "tasks.add"%string) = Some 1.
Proof.
  intros received started w w'.
  destruct (unready_gauges_are_a_snapshot started STARTED w w') as [HT HN];
    [reflexivity..|].
  split_and!.
  - rewrite HT; [reflexivity|]. left. vm_compute. reflexivity.
  - rewrite HT; [reflexivity|]. right. vm_compute. left.
  - rewrite HN; [reflexivity|]. left. vm_compute. reflexivity.
  - rewrite HN; [reflexivity|]. right. vm_compute. left.
Defined.

(** X5. The sets of known labels only grow along the events: a state, or a
    state and a name, that has been seen once stays known, whatever the
    events do and whether or not they raise. *)
Theorem known_labels_only_grow evts w :
  _known_states (thread w) ⊆ _known_states (thread (run evts w)) ∧
  _known_states_names (thread w) ⊆ _known_states_names (thread (run evts w)).
Proof.
  revert w. induction evts as [|evt evts IH]; intros w; [done|].
  simpl. destruct (always_known_grow_process_event evt w) as [H1 H2].
  destruct (IH (_process_event evt w).2) as [H3 H4].
  split; by etrans.
Qed.

(** ** The loop of the monitor *)

Lemma monitor_turn_ok s w : (_monitor_turn s w).1 = Ok tt.
Proof.
  unfold _monitor_turn, try_except.
  match goal with
  | |- (match ?x with _ => _ end).1 = _ => destruct x as [[[]|e] w']
  end; done.
Qed.

Lemma keeps_setup_metrics app : keeps any_change (modify_prom (setup_metrics app)).
Proof. by apply keeps_modify_prom. Qed.

Lemma keeps_monitor_turn s : keeps any_change (_monitor_turn s).
Proof.
  unfold _monitor_turn. apply keeps_try_except; [|apply keeps_setup_metrics].
  destruct (connects s); [|apply keeps_raise].
  apply keeps_bind; [apply keeps_setup_metrics|]. intros _.
  unfold capture. apply keeps_bind.
  - apply keeps_for_each. intros _ evt.
    pose proof (keeps_process_event any_change
                  ltac:(done) ltac:(done) ltac:(done) ltac:(done) evt) as H.
    intros w Hw. destruct (H w Hw) as (?&?&?). by split_and!.
  - intros _. destruct (capture_fails s); [apply keeps_raise|apply keeps_ret].
Qed.

Lemma for_each_unit_result {A} (body : A → M unit) l w :
  (∀ x w, (body x w).1 = Ok tt) → (for_each (λ _, body) tt l w).1 = Ok tt.
Proof.
  intros Hb. revert w. induction l as [|x l IH]; intros w; [done|].
  simpl. rewrite bind_eq. specialize (Hb x w).
  destruct (body x w) as [[[]|e] w']; [apply IH|done].
Qed.

(** X6. [_monitor] never lets an exception out: each turn catches whatever
    the connection, the capture or the handler raises.  From the start of
    the thread and through any number of turns, the registry has no
    repeated id and its capacity is the one given at start.  A positive
    capacity is never exceeded, and every record is then in an unready
    state and has its [local_received].  Without a positive capacity
    [State._event] never reaches [Task.event]: every record is a fresh
    task, in state PENDING and without [local_received], and with a
    negative capacity the registry stays empty. *)
Theorem monitor_never_raises_and_keeps_registry max_tasks_in_memory sessions :
  (_monitor sessions (world_init max_tasks_in_memory)).1 = Ok tt ∧
  let w := (_monitor sessions (world_init max_tasks_in_memory)).2 in
  NoDup (data (tasks w)).*1 ∧
  limit (tasks w) = max_tasks_in_memory ∧
  (0 < max_tasks_in_memory →
   Forall good_record (LRUCache_values (tasks w)) ∧
   Z.of_nat (length (data (tasks w))) ≤ max_tasks_in_memory) ∧
  (max_tasks_in_memory ≤ 0 →
   Forall (λ t, t = Task_new) (LRUCache_values (tasks w))) ∧
  (max_tasks_in_memory < 0 → data (tasks w) = []).
Proof.
  split.
  - unfold _monitor. apply for_each_unit_result. apply monitor_turn_ok.
  - intros w.
    destruct (keeps_for_each (R := any_change) (λ _ s, _monitor_turn s) tt sessions)
      with (w := world_init max_tasks_in_memory) as ([[Hnd Hcap Hrec] _ _ _] & Hl & _).
    + intros _ s. apply keeps_monitor_turn.
    + apply wf_world_init.
    + fold (_monitor sessions) in *. fold w in Hnd, Hcap, Hrec, Hl.
      simpl in Hl. rewrite Hl in Hcap, Hrec. split_and!; [done|done| | |].
      * intros Hpos. split; [|lia].
        eapply Forall_impl; [exact Hrec|]. intros t. by apply tracked_record_positive.
      * intros Hle. eapply Forall_impl; [exact Hrec|]. intros t.
        by apply tracked_record_fresh.
      * intros Hneg. destruct (data (tasks w)); [done|simpl in Hcap; lia].
Qed.

Lemma capture_fails_raises s w :
  capture_fails s = true → ∃ e, (capture s w).1 = Raise e.
Proof.
  intros Hf. unfold capture. rewrite bind_eq, Hf.
  match goal with
  | |- context [match ?x with _ => _ end] => destruct x as [[[]|e] w']
  end; by eexists.
Qed.

(** X7. A turn of [_monitor] that fails (the connection cannot be opened,
    or the capture ends with an error) while introspection does not answer
    either leaves the workers gauge and every published [tasks] and
    [tasks_by_name] series at zero, the counters of the terminal states
    included; the registry is not emptied. *)
Theorem failed_turn_zeroes_task_gauges s w :
  connects s = false ∨ capture_fails s = true →
  registered_tasks (inspect_on_failure s) = None ∨
  active_queues (inspect_on_failure s) = None →
  let w' := (_monitor_turn s w).2 in
  WORKERS (prom w') = 0 ∧
  (∀ st v, TASKS (prom w') !! st = Some v → v = 0) ∧
  (∀ k v, TASKS_NAME (prom w') !! k = Some v → v = 0) ∧
  (connects s = false → thread w' = thread w).
Proof.
  intros Hfail Hinspect w'.
  assert (∃ w2, w' = set_prom (setup_metrics (inspect_on_failure s) (prom w2)) w2 ∧
                (connects s = false → w2 = w)) as (w2 & Hw' & Hw2).
  { unfold w', _monitor_turn, try_except.
    destruct (connects s) eqn:Hc.
    - destruct Hfail as [?|Hf]; [done|]. rewrite bind_eq.
      unfold modify_prom at 1, modify at 1. cbv beta iota.
      destruct (capture_fails_raises s
                  (set_prom (setup_metrics (inspect_on_connect s) (prom w)) w) Hf)
        as [e He].
      destruct (capture s _) as [[[]|e'] w2]; [done|]. by exists w2.
    - by exists w. }
  assert (∀ m, setup_metrics (inspect_on_failure s) m =
               set_TASKS_NAME (_reset_metrics (TASKS_NAME m) None)
                 (set_TASKS (_reset_metrics (TASKS m) None) (set_WORKERS 0 m)))
    as Hsetup.
  { intros m. unfold setup_metrics.
    destruct Hinspect as [-> | ->]; [done|].
    by destruct (registered_tasks (inspect_on_failure s)). }
  rewrite Hw'. simpl. rewrite Hsetup. simpl. split_and!.
  - done.
  - intros st v. rewrite lookup_reset_metrics.
    destruct (TASKS (prom w2) !! st); simpl; congruence.
  - intros k v. rewrite lookup_reset_metrics.
    destruct (TASKS_NAME (prom w2) !! k); simpl; congruence.
  - intros Hc. by rewrite (Hw2 Hc).
Qed.

Lemma failed_turn_zeroes_task_gauges_witness :
  let down := {| registered_tasks := None; active_queues := None |} in
  let s := {| connects := true; inspect_on_connect := down;
              delivered := [make_event "task-succeeded" "id1" 1 None None];
              capture_fails := true; inspect_on_failure := down |} in
  TASKS (prom (_monitor_turn s (world_init 10)).2) !! SUCCESS = Some 0.
Proof.
  intros down s.
  destruct (failed_turn_zeroes_task_gauges s (world_init 10)) as (_ & HT & _).
  - right. reflexivity.
  - left. reflexivity.
  - destruct (TASKS (prom (_monitor_turn s (world_init 10)).2) !! SUCCESS)
      as [v|] eqn:Hv.
    + f_equal. exact (HT SUCCESS v Hv).
    + vm_compute in Hv. discriminate Hv.
Defined.

(** ** An unready event for a tracked task *)



(** ** Chunks, pipeline replies and task statistics *)

Lemma chunks_fuel_lookup {A} (n fuel : nat) (l : list A) (i : nat) :
  (0 < n)%nat → (length l ≤ fuel)%nat →
  chunks_fuel fuel l n !! i =
    if decide (i * n < length l)%nat then Some (take n (drop (i * n) l)) else None.
Proof.
  intros Hn. revert l i. induction fuel as [|fuel IH]; intros l i Hfuel.
  - destruct l; [|simpl in Hfuel; lia].
    destruct (decide _) as [Hlt|_]; [simpl in Hlt; lia|done].
  - destruct l as [|x l].
    + destruct (decide _) as [Hlt|_]; [simpl in Hlt; lia|done].
    + cbn [chunks_fuel]. destruct i as [|i].
      * destruct (decide _) as [_|Hge]; [done|simpl in Hge; lia].
      * rewrite lookup_cons_ne_0 by done. cbn [pred]. rewrite IH.
        -- rewrite length_drop, drop_drop.
           replace (n + i * n)%nat with (S i * n)%nat by lia.
           destruct (decide (i * n < length (x :: l) - n)%nat),
             (decide (S i * n < length (x :: l))%nat); done || lia.
        -- rewrite length_drop. simpl in *. lia.
Qed.

Lemma chunks_fuel_concat {A} (n fuel : nat) (l : list A) :
  (0 < n)%nat → (length l ≤ fuel)%nat → concat (chunks_fuel fuel l n) = l.
Proof.
  intros Hn. revert l. induction fuel as [|fuel IH]; intros l Hfuel.
  - by destruct l; [|simpl in Hfuel; lia].
  - destruct l as [|x l]; [done|]. cbn [chunks_fuel concat].
    rewrite IH; [apply take_drop|]. rewrite length_drop. simpl in *. lia.
Qed.

(** X9. For a positive [n], the [i]-th item of [chunks(l, n)] is the slice
    [l[i*n : i*n + n]], there is one for each multiple of [n] below
    [len(l)] and none beyond; put end to end, the chunks give [l] back. *)
Theorem chunks_are_slices {A} (l : list A) (n : nat) :
  (0 < n)%nat →
  (∀ i, chunks l n !! i =
          if decide (i * n < length l)%nat
          then Some (take n (drop (i * n) l)) else None) ∧
  concat (chunks l n) = l.
Proof.
  intros Hn. split.
  - intros i. by apply chunks_fuel_lookup.
  - by apply chunks_fuel_concat.
Qed.

Lemma chunks_are_slices_witness :
  chunks [1; 2; 3; 4; 5] 2 !! 2%nat = Some [5] ∧
  chunks [1; 2; 3; 4; 5] 2 !! 3%nat = None ∧
  concat (chunks [1; 2; 3; 4; 5] 2) = [1; 2; 3; 4; 5].
Proof.
  destruct (chunks_are_slices [1; 2; 3; 4; 5] 2) as [Hslice Hconcat]; [lia|].
  split; [exact (Hslice 2%nat)|]. split; [exact (Hslice 3%nat)|exact Hconcat].
Defined.

Lemma count_task_omap t (l : list payload) :
  count_task t l = Z.of_nat (length (filter (λ x, x = t) (omap task_of l))).
Proof. unfold count_task. by rewrite filter_omap_length. Qed.

(** X10. On the payloads of the model (rejected by [json.loads], or a
    JSON object with an optional [headers] object and an optional string
    [headers.task]), [get_tasks_stat] depends only on the task-type names
    that the payloads carry, not on their order: a payload that is
    rejected, and an object without headers or without a task in them,
    change no count. *)
Theorem tasks_stat_ignores_untyped_payloads (tasks1 tasks2 : list payload) :
  omap task_of tasks1 ≡ₚ omap task_of tasks2 →
  get_tasks_stat tasks1 = get_tasks_stat tasks2.
Proof.
  intros Hperm. apply map_eq. intros t.
  rewrite !lookup_get_tasks_stat, !count_task_omap.
  assert (length (filter (λ x, x = t) (omap task_of tasks1)) =
          length (filter (λ x, x = t) (omap task_of tasks2))) as ->; [|done].
  apply Permutation_length. by rewrite Hperm.
Qed.

Lemma tasks_stat_ignores_untyped_payloads_witness :
  let task (n : string) : payload :=
    Some {| msg_headers := Some {| hdr_task := Some n |} |} in
  let no_headers : payload := Some {| msg_headers := None |} in
  get_tasks_stat [task "A"; None; task "B"; no_headers; task "A"] =
  get_tasks_stat [task "A"; task "A"; task "B"].
Proof.
  intros task no_headers.
  apply tasks_stat_ignores_untyped_payloads.
  change ([ "A"; "B"; "A" ]%string ≡ₚ [ "A"; "A"; "B" ]%string).
  apply perm_skip, perm_swap.
Defined.

(** X11. When the pipeline answers, the loop of the sampling pass pairs
    every queue name, in order and as often as it is listed, with the two
    replies for that queue: its length and its items. *)
Theorem names_are_paired_with_their_replies app lists names queues :
  redis app = Some lists →
  get_queues app names = Ok queues →
  zip names (chunks queues 2) =
    (λ q, (q, [RInt (Z.of_nat (length (queue_items lists q)));
               RList (queue_items lists q)])) <$> names.
Proof.
  intros Hr. rewrite (get_queues_Some app lists) by done. intros [= <-].
  by rewrite chunks_queue_replies, zip_fmap_self.
Qed.

Lemma names_are_paired_with_their_replies_witness :
  let app := {| inspect_queues := None;
                redis := Some {[ "q1"%string := [None; None] ]} |} in
  zip ["q1"; "q2"]%string
      (chunks [RInt 2; RList [None; None]; RInt 0; RList []] 2) =
    [("q1"%string, [RInt 2; RList [None; None]]); ("q2"%string, [RInt 0; RList []])].
Proof.
  intros app.
  exact (names_are_paired_with_their_replies app {[ "q1"%string := [None; None] ]}
           ["q1"; "q2"]%string _ eq_refl eq_refl).
Defined.

(** ** Resets and frames *)

(** X12. [_reset_metrics] neither creates nor removes a series; a series
    keeps its value when its labels are among the known labels and reads
    zero otherwise (always, when no known labels are given); resetting
    twice is resetting once. *)
Theorem reset_metrics_keeps_the_series `{Countable K} (g : gmap K Z)
    (known_labels : option (gset K)) :
  dom (_reset_metrics g known_labels) = dom g ∧
  (∀ k v, _reset_metrics g known_labels !! k = Some v →
          v = 0 ∨ (g !! k = Some v ∧
                   ∃ known, known_labels = Some known ∧ k ∈ known)) ∧
  _reset_metrics (_reset_metrics g known_labels) known_labels
    = _reset_metrics g known_labels.
Proof.
  split_and!.
  - apply set_eq. intros k. rewrite !elem_of_dom, lookup_reset_metrics.
    by rewrite fmap_is_Some.
  - intros k v. rewrite lookup_reset_metrics.
    destruct (g !! k) as [v'|]; [simpl|done]. intros [= <-].
    destruct known_labels as [known|]; [|by left].
    destruct (decide (k ∈ known)); [right|by left]. split; [done|]. by exists known.
  - apply map_eq. intros k. rewrite !lookup_reset_metrics.
    destruct (g !! k) as [v|]; [simpl|done]. f_equal.
    destruct known_labels as [known|]; [|done]. by destruct (decide (k ∈ known)).
Qed.

Global Instance queue_gauges_only_preorder : PreOrder queue_gauges_only.
Proof.
  split; [intros w; by repeat split|]. intros w1 w2 w3 (?&?&?&?&?&?) (?&?&?&?&?&?).
  repeat split; congruence.
Qed.

(** X13. A sampling pass of the queue thread, whether it ends or raises,
    touches nothing but the two queue gauges: the registry, the known
    labels, the task gauges, the histograms and the workers gauge are as
    before. *)
Theorem queue_pass_touches_queue_gauges_only app w :
  let w' := (update_queues_metrics app w).2 in
  thread w' = thread w ∧
  TASKS (prom w') = TASKS (prom w) ∧
  TASKS_NAME (prom w') = TASKS_NAME (prom w) ∧
  TASKS_RUNTIME (prom w') = TASKS_RUNTIME (prom w) ∧
  LATENCY (prom w') = LATENCY (prom w) ∧
  WORKERS (prom w') = WORKERS (prom w).
Proof.
  assert (∀ f,
    (∀ m, TASKS (f m) = TASKS m ∧ TASKS_NAME (f m) = TASKS_NAME m ∧
          TASKS_RUNTIME (f m) = TASKS_RUNTIME m ∧ LATENCY (f m) = LATENCY m ∧
          WORKERS (f m) = WORKERS m) →
    always queue_gauges_only (modify_prom f)) as Hprom.
  { intros f Hf. apply always_modify_prom. intros w0.
    destruct (Hf (prom w0)) as (?&?&?&?&?). by split_and!. }
  assert (∀ {A} (r : result A), always queue_gauges_only (λ w0, (r, w0))) as Hpure.
  { intros A r w0. reflexivity. }
  assert (always queue_gauges_only (update_queues_metrics app)) as Hpass.
  { unfold update_queues_metrics.
    apply always_bind; [apply Hpure|]. intros queue_names.
    apply always_bind; [apply Hpure|]. intros queues.
    apply always_bind.
    - apply always_for_each. intros [known_queues known_tasks] [queue_name chunk].
      unfold sample_queue.
      destruct chunk as [|size [|tasks [|]]]; try apply always_raise.
      destruct size as [size|]; [|apply always_raise].
      apply always_bind; [by apply Hprom|]. intros _.
      destruct tasks as [|tasks]; [apply always_raise|].
      apply always_bind; [|intros ?; apply always_ret].
      apply always_for_each. intros kt kv.
      apply always_bind; [by apply Hprom|]. intros _. apply always_ret.
    - intros known. apply always_bind; [by apply Hprom|]. intros _.
      by apply Hprom. }
  exact (Hpass w).
Qed.

(** X14. A sampling pass that the broker does not answer raises before any
    metric is set, so every queue gauge keeps the value of the last pass
    that ended: [AttributeError] when [active_queues()] gives nothing,
    the error of the connection when redis cannot be reached. *)
Theorem unanswered_pass_changes_nothing app w :
  (inspect_queues app = None →
   update_queues_metrics app w = (Raise AttributeError, w)) ∧
  (is_Some (inspect_queues app) → redis app = None →
   update_queues_metrics app w = (Raise BrokerError, w)).
Proof.
  unfold update_queues_metrics, get_queue_names, get_queues. rewrite !bind_eq.
  split.
  - by intros ->.
  - intros [active ->] ->. done.
Qed.

Lemma unanswered_pass_changes_nothing_witness :
  let app := {| inspect_queues := None; redis := None |} in
  update_queues_metrics app (world_init 10)
    = (Raise AttributeError, world_init 10).
Proof.
  intros app.
  apply (proj1 (unanswered_pass_changes_nothing app (world_init 10))).
  reflexivity.
Defined.

Lemma metrics_eq (m1 m2 : metrics) :
  TASKS m1 = TASKS m2 → TASKS_NAME m1 = TASKS_NAME m2 →
  TASKS_RUNTIME m1 = TASKS_RUNTIME m2 → LATENCY m1 = LATENCY m2 →
  WORKERS m1 = WORKERS m2 → QUEUE_SIZE m1 = QUEUE_SIZE m2 →
  QUEUE_TASKS m1 = QUEUE_TASKS m2 → m1 = m2.
Proof. destruct m1, m2. simpl. by intros -> -> -> -> -> -> ->. Qed.

(** The loops of [setup_metrics] touch the two task gauges only. *)
Lemma setup_states_loop_frame (states : gset state) (names : gset string)
    (m : metrics) :
  let m' := set_fold (λ st m,
                        let m := set_TASKS (gauge_set st 0 (TASKS m)) m in
                        set_fold (λ task_name m,
                                    set_TASKS_NAME
                                      (gauge_set (st, task_name) 0 (TASKS_NAME m)) m)
                                 m names)
                     m states in
  TASKS_RUNTIME m' = TASKS_RUNTIME m ∧ LATENCY m' = LATENCY m ∧
  QUEUE_SIZE m' = QUEUE_SIZE m ∧ QUEUE_TASKS m' = QUEUE_TASKS m.
Proof.
  set (P := λ (m' : metrics),
         TASKS_RUNTIME m' = TASKS_RUNTIME m ∧ LATENCY m' = LATENCY m ∧
         QUEUE_SIZE m' = QUEUE_SIZE m ∧ QUEUE_TASKS m' = QUEUE_TASKS m).
  assert (∀ st m0, P m0 →
            P (set_fold (λ task_name m,
                           set_TASKS_NAME
                             (gauge_set (st, task_name) 0 (TASKS_NAME m)) m)
                        m0 names)) as Hinner.
  { intros st m0 Hm0.
    apply (set_fold_ind_L (λ r _, P r)); [done|]. by intros x X r _ (?&?&?&?). }
  cbv zeta. apply (set_fold_ind_L (λ r _, P r)); [done|].
  intros x X r _ Hr. apply Hinner. by destruct Hr as (?&?&?&?).
Qed.

Lemma setup_metrics_answered app m registered queues :
  registered_tasks app = Some registered → active_queues app = Some queues →
  WORKERS (setup_metrics app m) = 0 ∧
  TASKS_RUNTIME (setup_metrics app m) = TASKS_RUNTIME m ∧
  LATENCY (setup_metrics app m) = LATENCY m ∧
  QUEUE_SIZE (setup_metrics app m) = QUEUE_SIZE m ∧
  QUEUE_TASKS (setup_metrics app m) = QUEUE_TASKS m ∧
  (∀ s, TASKS (setup_metrics app m) !! s =
          if decide (s ∈ ALL_STATES) then Some 0 else TASKS m !! s) ∧
  (∀ s n, TASKS_NAME (setup_metrics app m) !! (s, n) =
            if decide (s ∈ ALL_STATES ∧
                       n ∈@{gset string} list_to_set (concat (registered.*2)))
            then Some 0 else TASKS_NAME m !! (s, n)).
Proof.
  intros Hr Hq. unfold setup_metrics. rewrite Hr, Hq.
  pose proof (setup_states_loop ALL_STATES
                (list_to_set (concat (registered.*2))) (set_WORKERS 0 m)) as H1.
  pose proof (setup_states_loop_frame ALL_STATES
                (list_to_set (concat (registered.*2))) (set_WORKERS 0 m)) as H2.
  cbv zeta in *. destruct H1 as (HW & HT & HN), H2 as (?&?&?&?).
  by split_and!.
Qed.

Lemma setup_metrics_unanswered app m :
  registered_tasks app = None ∨ active_queues app = None →
  setup_metrics app m =
    set_TASKS_NAME (_reset_metrics (TASKS_NAME m) None)
      (set_TASKS (_reset_metrics (TASKS m) None) (set_WORKERS 0 m)).
Proof.
  intros Hfail. unfold setup_metrics.
  destruct Hfail as [-> | ->]; [done|]. by destruct (registered_tasks app).
Qed.

(** X15. [setup_metrics] touches the workers gauge and the two task gauges
    only, and never removes a series.  Run twice with the same answers of
    introspection, as [_monitor] does around a reconnect, it gives what one
    run gives. *)
Theorem setup_metrics_frame_and_idempotence (app : inspect) (m : metrics) :
  TASKS_RUNTIME (setup_metrics app m) = TASKS_RUNTIME m ∧
  LATENCY (setup_metrics app m) = LATENCY m ∧
  QUEUE_SIZE (setup_metrics app m) = QUEUE_SIZE m ∧
  QUEUE_TASKS (setup_metrics app m) = QUEUE_TASKS m ∧
  dom (TASKS m) ⊆ dom (TASKS (setup_metrics app m)) ∧
  dom (TASKS_NAME m) ⊆ dom (TASKS_NAME (setup_metrics app m)) ∧
  setup_metrics app (setup_metrics app m) = setup_metrics app m.
Proof.
  destruct (registered_tasks app) as [registered|] eqn:Hr;
    [destruct (active_queues app) as [queues|] eqn:Hq|].
  - destruct (setup_metrics_answered app m registered queues Hr Hq)
      as (HW & HR & HL & HQ & HQT & HT & HN).
    destruct (setup_metrics_answered app (setup_metrics app m) registered queues Hr Hq)
      as (HW' & HR' & HL' & HQ' & HQT' & HT' & HN').
    split_and!; [done..| | |].
    + intros s. rewrite !elem_of_dom, HT. by destruct (decide (s ∈ ALL_STATES)).
    + intros [s n]. rewrite !elem_of_dom, HN. by destruct (decide _).
    + apply metrics_eq; try congruence.
      * apply map_eq. intros s. rewrite HT', HT.
        by destruct (decide (s ∈ ALL_STATES)).
      * apply map_eq. intros [s n]. rewrite HN', HN. by destruct (decide _).
  - rewrite !(setup_metrics_unanswered app) by auto. simpl.
    split_and!; [done..| | |].
    + intros s. by rewrite !elem_of_dom, lookup_reset_metrics, fmap_is_Some.
    + intros k. by rewrite !elem_of_dom, lookup_reset_metrics, fmap_is_Some.
    + apply metrics_eq; simpl; try done.
      * apply map_eq. intros s. rewrite !lookup_reset_metrics.
        by destruct (TASKS m !! s).
      * apply map_eq. intros k. rewrite !lookup_reset_metrics.
        by destruct (TASKS_NAME m !! k).
  - rewrite !(setup_metrics_unanswered app) by auto. simpl.
    split_and!; [done..| | |].
    + intros s. by rewrite !elem_of_dom, lookup_reset_metrics, fmap_is_Some.
    + intros k. by rewrite !elem_of_dom, lookup_reset_metrics, fmap_is_Some.
    + apply metrics_eq; simpl; try done.
      * apply map_eq. intros s. rewrite !lookup_reset_metrics.
        by destruct (TASKS m !! s).
      * apply map_eq. intros k. rewrite !lookup_reset_metrics.
        by destruct (TASKS_NAME m !! k).
Qed.

(** ** The listen address *)

Lemma split_not_nil sep s : split sep s ≠ [].
Proof.
  destruct s as [|c rest]; simpl; [done|].
  destruct (Ascii.eqb c sep); [done|]. by destruct (split sep rest).
Qed.

Lemma split_one sep s p :
  split sep s = [p] ↔ p = s ∧ occurs sep s = false.
Proof.
  revert p. induction s as [|c rest IH]; intros p; simpl.
  - split; [by intros [= <-]|by intros [-> _]].
  - destruct (Ascii.eqb c sep) eqn:Hc; simpl.
    + split; [|by intros [_ ?]]. intros [= _ H]. by apply split_not_nil in H.
    + destruct (split sep rest) as [|first others] eqn:Hs.
      { by apply split_not_nil in Hs. }
      split.
      * intros [= <- ->]. destruct (IH first) as [[-> Ho] _]; [done|]. done.
      * intros [-> Ho]. destruct (IH rest) as [_ H]. specialize (H (conj eq_refl Ho)).
        by injection H as -> ->.
Qed.

Lemma split_two sep s host port :
  split sep s = [host; port] ↔
  s = (host +:+ String sep port)%string ∧
  occurs sep host = false ∧ occurs sep port = false.
Proof.
  revert host. induction s as [|c rest IH]; intros host; simpl.
  - split; [done|]. intros [H _]. by destruct host.
  - destruct (Ascii.eqb c sep) eqn:Hc; simpl.
    + apply Ascii.eqb_eq in Hc as ->. split.
      * intros [= <- H]. apply split_one in H as [-> Ho]. done.
      * intros (H & Hh & Hp). destruct host as [|c' host'].
        -- simpl in H. injection H as <-. f_equal. apply split_one. done.
        -- simpl in H, Hh. injection H as <- _.
           by rewrite Ascii.eqb_refl in Hh.
    + destruct (split sep rest) as [|first others] eqn:Hs.
      { by apply split_not_nil in Hs. }
      split.
      * intros [= <- ->]. destruct (IH first) as [(-> & Hf & Hp) _]; [done|].
        simpl. by rewrite Hc.
      * intros (H & Hh & Hp). destruct host as [|c' host'].
        -- simpl in H. injection H as -> _. by rewrite Ascii.eqb_refl in Hc.
        -- simpl in H, Hh. injection H as <- ->.
           apply orb_false_iff in Hh as [_ Hh].
           destruct (IH host') as [_ H]. specialize (H (conj eq_refl (conj Hh Hp))).
           by injection H as -> ->.
Qed.

(** X16. [start_httpd] unpacks [addr.split(':')] into a host and a port:
    this succeeds exactly for an address with a single colon, the host
    being what stands before it and the port what stands after; any other
    address (no colon, or more than one, as in an IPv6 literal) raises
    [ValueError]. *)
Theorem start_httpd_needs_a_single_colon (addr : string) :
  (∀ host port,
     start_httpd_host_port addr = Ok (host, port) ↔
     addr = (host +:+ String ":" port)%string ∧
     occurs ":" host = false ∧ occurs ":" port = false) ∧
  ((∀ host port, start_httpd_host_port addr ≠ Ok (host, port)) →
   start_httpd_host_port addr = Raise ValueError).
Proof.
  split.
  - intros host port. rewrite <-split_two. unfold start_httpd_host_port.
    destruct (split ":" addr) as [|h [|p [|]]]; split; try done.
    + by intros [= -> ->].
    + by intros [= -> ->].
  - intros Hno. unfold start_httpd_host_port in *.
    destruct (split ":" addr) as [|h [|p [|]]]; try done.
    by destruct (Hno h p).
Qed.

Lemma start_httpd_needs_a_single_colon_witness :
  start_httpd_host_port "0.0.0.0:8888" = Ok ("0.0.0.0", "8888")%string ∧
  start_httpd_host_port "[::1]:8888" = Raise ValueError.
Proof.
  split.
  - apply (start_httpd_needs_a_single_colon "0.0.0.0:8888").
    split; [reflexivity|]. split; reflexivity.
  - apply (start_httpd_needs_a_single_colon "[::1]:8888").
    intros host port H. vm_compute in H. discriminate H.
Defined.

(** ** The queue gauges as a function of the set of active queues *)

Lemma queue_pass_closed_form app active lists w :
  inspect_queues app = Some active →
  redis app = Some lists →
  let names :=
    concat ((λ node : string * list queue, queue_name <$> node.2) <$> active) in
  ∃ w',
    update_queues_metrics app w = (Ok tt, w') ∧
    (∀ q, QUEUE_SIZE (prom w') !! q =
            if decide (q ∈ names)
            then Some (Z.of_nat (length (queue_items lists q)))
            else (λ _, 0) <$> QUEUE_SIZE (prom w) !! q) ∧
    (∀ q t, QUEUE_TASKS (prom w') !! (q, t) =
              if decide (q ∈ names ∧ count_task t (queue_items lists q) ≠ 0)
              then Some (count_task t (queue_items lists q))
              else (λ _, 0) <$> QUEUE_TASKS (prom w) !! (q, t)).
Proof.
  intros Ha Hr names. unfold update_queues_metrics.
  rewrite bind_eq, (get_queue_names_Some app active) by done. fold names.
  rewrite bind_eq, (get_queues_Some app lists) by done.
  rewrite chunks_queue_replies, zip_fmap_self, bind_eq.
  destruct (sample_loop_spec lists names ∅ ∅ w)
    as (kq & kt & w1 & -> & Hsize & Hkq & Htasks & Hkt).
  eexists. split; [done|]. simpl. split.
  - intros q. rewrite lookup_reset_metrics, Hsize.
    destruct (decide (q ∈ names)) as [Hq|Hq]; simpl.
    + rewrite decide_True; [done|]. apply Hkq. by right.
    + destruct (QUEUE_SIZE (prom w) !! q); [simpl|done].
      rewrite decide_False; [done|]. intros [?%not_elem_of_empty|?]%Hkq; done.
  - intros q t. rewrite lookup_reset_metrics, Htasks, lookup_get_tasks_stat.
    destruct (decide (q ∈ names ∧ count_task t (queue_items lists q) ≠ 0))
      as [[Hq Hc]|Hno].
    + rewrite decide_True, decide_False by done. simpl.
      rewrite decide_True; [done|]. apply Hkt. right. split; [done|].
      by rewrite lookup_get_tasks_stat, decide_False.
    + assert ((q, t) ∉ kt) as Hnot.
      { intros [?%not_elem_of_empty|[Hq Hstat]]%Hkt; [done|].
        rewrite lookup_get_tasks_stat in Hstat.
        destruct (decide (count_task t (queue_items lists q) = 0)) as [|Hc].
        - by destruct Hstat.
        - apply Hno. by split. }
      destruct (decide (q ∈ names)) as [Hq|Hq].
      * destruct (decide (count_task t (queue_items lists q) = 0)) as [Hz|Hz];
          [|exfalso; apply Hno; by split].
        destruct (QUEUE_TASKS (prom w) !! (q, t)); [simpl|done].
        by rewrite decide_False.
      * destruct (QUEUE_TASKS (prom w) !! (q, t)); [simpl|done].
        by rewrite decide_False.
Qed.

(** X17. When introspection and redis answer, and the redis lists hold
    payloads of the model only, a pass ends, and the queue gauges that it
    publishes depend on the set of the active queue names only: how many
    workers consume a queue, and in which order the workers and their
    queues are listed, makes no difference. *)
Theorem queue_gauges_depend_on_the_set_of_names app1 app2 active1 active2 lists w :
  inspect_queues app1 = Some active1 → inspect_queues app2 = Some active2 →
  redis app1 = Some lists → redis app2 = Some lists →
  (∀ q, q ∈ concat ((λ node : string * list queue, queue_name <$> node.2) <$> active1)
        ↔ q ∈ concat ((λ node : string * list queue, queue_name <$> node.2) <$> active2)) →
  (update_queues_metrics app1 w).1 = Ok tt ∧
  (update_queues_metrics app2 w).1 = Ok tt ∧
  QUEUE_SIZE (prom (update_queues_metrics app1 w).2)
    = QUEUE_SIZE (prom (update_queues_metrics app2 w).2) ∧
  QUEUE_TASKS (prom (update_queues_metrics app1 w).2)
    = QUEUE_TASKS (prom (update_queues_metrics app2 w).2).
Proof.
  intros Ha1 Ha2 Hr1 Hr2 Hsame.
  destruct (queue_pass_closed_form app1 active1 lists w Ha1 Hr1)
    as (w1 & -> & Hs1 & Ht1).
  destruct (queue_pass_closed_form app2 active2 lists w Ha2 Hr2)
    as (w2 & -> & Hs2 & Ht2).
  simpl. split_and!; [done|done| |].
  - apply map_eq. intros q. rewrite Hs1, Hs2.
    destruct (decide (q ∈ _)) as [H1|H1], (decide (q ∈ _)) as [H2|H2];
      try done; exfalso; [apply H2, Hsame, H1|apply H1, Hsame, H2].
  - apply map_eq. intros [q t]. rewrite Ht1, Ht2.
    destruct (decide (q ∈ _ ∧ _)) as [[H1 ?]|H1], (decide (q ∈ _ ∧ _)) as [[H2 ?]|H2];
      try done; exfalso.
    + apply H2. split; [by apply Hsame|done].
    + apply H1. split; [by apply Hsame|done].
Qed.

Lemma queue_gauges_depend_on_the_set_of_names_witness :
  let celery := {| queue_name := "celery"; queue_routing_key := "celery" |} in
  let mail := {| queue_name := "mail"; queue_routing_key := "mail" |} in
  let lists : gmap string (list payload) := {[ "celery"%string := [None] ]} in
  let app1 := {| inspect_queues := Some [("worker1"%string, [celery; mail]);
                                         ("worker2"%string, [celery])];
                 redis := Some lists |} in
  let app2 := {| inspect_queues := Some [("worker1"%string, [mail; celery])];
                 redis := Some lists |} in
  QUEUE_SIZE (prom (update_queues_metrics app1 (world_init 10)).2)
    = QUEUE_SIZE (prom (update_queues_metrics app2 (world_init 10)).2).
Proof.
  intros celery mail lists app1 app2.
  destruct (queue_gauges_depend_on_the_set_of_names app1 app2
              [("worker1"%string, [celery; mail]); ("worker2"%string, [celery])]
              [("worker1"%string, [mail; celery])] lists (world_init 10))
    as (_ & _ & Hsize & _); [reflexivity..| |exact Hsize].
  intros q. simpl. rewrite !elem_of_cons, !elem_of_nil. tauto.
Defined.

(** ** Which tasks are tracked *)

(** X18. A task is tracked exactly while it is unready.  After a terminal
    event for an id, the registry has no record for it, whether it had one
    or not.  After an unready event with all its fields the registry has a
    record for the id: with a positive capacity nothing is raised and the
    record is [Task.event] applied to the record it had, or to a fresh
    task; with the capacity 0 [IndexError] is raised and the record is a
    fresh task, to which no event is ever applied. *)
Theorem tracked_while_unready evt st id w :
  wf w → event_state evt = Some st → evt_uuid evt = Some id →
  (st ∈ READY_STATES →
   od_lookup id (data (tasks (_process_event evt w).2)) = None) ∧
  (st ∉ READY_STATES → has_task_fields evt → 0 < limit (tasks w) →
   (_process_event evt w).1 = Ok tt ∧
   od_lookup id (data (tasks (_process_event evt w).2)) =
     Some (Task_event st evt (default Task_new (od_lookup id (data (tasks w)))))) ∧
  (st ∉ READY_STATES → has_task_fields evt → limit (tasks w) = 0 →
   (_process_event evt w).1 = Raise IndexError ∧
   od_lookup id (data (tasks (_process_event evt w).2)) = Some Task_new).
Proof.
  intros Hw Hevt Hid. split_and!.
  - intros Hst. rewrite (process_event_ready evt st) by done. rewrite bind_eq.
    destruct (od_lookup id (data (tasks w))) as [rec|] eqn:Hk.
    + rewrite (incr_ready_task_hit evt st id rec) by done. cbv zeta.
      rewrite collect_unready_ok. simpl. apply od_lookup_delete.
    + rewrite incr_ready_task_miss by (intros ? ?; congruence).
      rewrite collect_unready_ok. by simpl.
  - intros Hst Hfields Hpos.
    destruct (od_lookup id (data (tasks w))) as [rec|] eqn:Hk.
    + destruct (unready_tracked_step evt st id rec w) as (w' & -> & _ & Hk');
        done.
    + rewrite (process_event_task evt st) by done. rewrite bind_eq.
      assert ((if decide (st = STARTED) then _observe_latency evt else mret tt) w
              = (Ok tt, w)) as ->.
      { case_decide; [|done]. apply observe_latency_miss. intros ? ?. congruence. }
      unfold _collect_tasks. rewrite decide_False by done. rewrite bind_eq.
      destruct (State_event_new evt st id w) as [n ->];
        [done|done|done|done|by apply wf_within_capacity|].
      rewrite collect_unready_ok. split; [done|]. cbn [snd default].
      rewrite aggregate_tasks.
      cbn [tasks thread _state_tasks set_tasks set_taskheap data].
      rewrite od_lookup_parent_moved. apply od_lookup_app_last.
      apply od_lookup_None in Hk. case_decide; [|done].
      destruct (data (tasks w)) as [|first rest]; [done|].
      rewrite fmap_cons in Hk. apply not_elem_of_cons in Hk. simpl. tauto.
  - intros Hst Hfields Hzero.
    destruct (unready_event_unbounded evt st id w) as (w' & -> & _ & Hk' & _);
      done.
Qed.

Lemma tracked_while_unready_witness :
  let received := make_event "task-received" "id1" 1 (Some "tasks.add"%string) None in
  let failed := make_event "task-failed" "id1" 2 None None in
  od_lookup "id1" (data (tasks (run [received] (world_init 10)))) =
    Some {| task_state := RECEIVED; task_name := Some "tasks.add"%string;
            task_local_received := Some 1%float; task_parent_id := None |} ∧
  od_lookup "id1" (data (tasks (run [received; failed] (world_init 10)))) = None ∧
  od_lookup "id1" (data (tasks (run [received] (world_init 0)))) = Some Task_new.
Proof.
  intros received failed. split_and!.
  - destruct (tracked_while_unready received RECEIVED "id1" (world_init 10))
      as (_ & Hunready & _); [apply wf_world_init|reflexivity..|].
    destruct Hunready as [_ Hk].
    + vm_compute. intros H. discriminate H.
    + repeat split; by eexists.
    + reflexivity.
    + exact Hk.
  - destruct (tracked_while_unready failed FAILURE "id1"
                (run [received] (world_init 10)))
      as (Hready & _); [apply wf_run, wf_world_init|reflexivity..|].
    apply Hready. vm_compute. reflexivity.
  - destruct (tracked_while_unready received RECEIVED "id1" (world_init 0))
      as (_ & _ & Hzero); [apply wf_world_init|reflexivity..|].
    destruct Hzero as [_ Hk].
    + vm_compute. intros H. discriminate H.
    + repeat split; by eexists.
    + reflexivity.
    + exact Hk.
Defined.

(** ** Counting terminal events *)

Global Instance tasks_gauge_same_preorder s : PreOrder (tasks_gauge_same s).
Proof.
  unfold tasks_gauge_same. split; [done|]. intros w1 w2 w3 H1 H2. congruence.
Qed.

Lemma event_state_None evt w :
  event_state evt = None → ∃ r, _process_event evt w = (r, w).
Proof.
  unfold event_state, _process_event. unfold_M.
  destruct (evt_type evt) as [ty|]; [|by eexists].
  cbv beta iota. case_decide; [|by eexists]. intros ->. by eexists.
Qed.

(** An unready event changes no series of a ready state. *)
Lemma unready_event_keeps_ready_gauge s evt st w :
  wf w → s ∈ READY_STATES →
  event_state evt = Some st → st ∉ READY_STATES →
  TASKS (prom (_process_event evt w).2) !! s = TASKS (prom w) !! s.
Proof.
  intros Hw Hs Hevt Hst. rewrite (process_event_task evt st) by done.
  assert (keeps (tasks_gauge_same s)
            ((if decide (st = STARTED) then _observe_latency evt else mret tt) ≫=
               λ _, _collect_tasks evt st)) as Hkeeps.
  { apply keeps_bind.
    - case_decide; [|apply keeps_ret].
      apply (keeps_weaken latency_only); [|apply keeps_observe_latency].
      intros w1 w2 (HT & _ & _). unfold tasks_gauge_same. by rewrite HT.
    - intros _. unfold _collect_tasks. rewrite decide_False by done.
      apply keeps_bind.
      + apply (keeps_weaken prom_same); [|by apply keeps_State_event].
        intros w1 w2 Hp. unfold prom_same in Hp. unfold tasks_gauge_same.
        by rewrite Hp.
      + intros _.
        apply (keeps_weaken ready_metrics_same); [|apply keeps_collect_unready_tasks].
        intros w1 w2 [HT _ _ _]. by apply HT. }
  by destruct (Hkeeps w Hw) as (_ & _ & HR).
Qed.

(** A terminal event adds one to the gauge of its state and changes no
    other series of [tasks] of a ready state. *)
Lemma ready_event_adds_one s evt st w :
  wf w → s ∈ READY_STATES →
  event_state evt = Some st → st ∈ READY_STATES →
  gauge_value (TASKS (prom (_process_event evt w).2)) s =
    gauge_value (TASKS (prom w)) s + (if decide (st = s) then 1 else 0).
Proof.
  intros Hw Hs Hevt Hst.
  rewrite (process_event_ready evt st) by done. rewrite bind_eq.
  assert (∃ w1, _incr_ready_task evt st w = (Ok tt, w1) ∧ wf w1 ∧
                TASKS (prom w1) = gauge_inc st (TASKS (prom w)))
    as (w1 & -> & Hw1 & HT).
  { destruct (keeps_incr_ready_task evt st w Hw) as (Hw1 & _ & _).
    destruct (evt_uuid evt) as [id|] eqn:Hid;
      [destruct (od_lookup id (data (tasks w))) as [rec|] eqn:Hk|].
    - rewrite (incr_ready_task_hit evt st id rec) in * by done.
      eexists. split; [done|]. split; [done|]. cbv zeta.
      by destruct (evt_runtime evt).
    - rewrite incr_ready_task_miss in * by (intros ? ?; congruence).
      eexists. by split_and!.
    - rewrite incr_ready_task_miss in * by (intros ? ?; congruence).
      eexists. by split_and!. }
  rewrite collect_unready_ok. simpl.
  pose proof (aggregate_ready_metrics_same w1 Hw1) as [Hsame _ _ _].
  unfold gauge_value at 1. rewrite Hsame, HT by done.
  destruct (decide (st = s)) as [->|Hne].
  - apply gauge_value_inc.
  - rewrite gauge_value_inc_ne by done. unfold gauge_value. lia.
Qed.

Lemma ready_gauge_step s evt w :
  wf w → s ∈ READY_STATES →
  gauge_value (TASKS (prom (_process_event evt w).2)) s =
    gauge_value (TASKS (prom w)) s + count_events s [evt].
Proof.
  intros Hw Hs. unfold count_events. rewrite filter_cons, filter_nil.
  destruct (event_state evt) as [st|] eqn:Hevt.
  - destruct (decide (st ∈ READY_STATES)) as [Hst|Hst].
    + rewrite (ready_event_adds_one s evt st) by done.
      destruct (decide (st = s)) as [->|Hne].
      * by rewrite decide_True.
      * rewrite decide_False by congruence. done.
    + unfold gauge_value.
      rewrite (unready_event_keeps_ready_gauge s evt st) by done.
      rewrite decide_False by (intros [= ->]; done). simpl. lia.
  - destruct (event_state_None evt w Hevt) as [r ->].
    rewrite decide_False by done. simpl. lia.
Qed.

(** X19. Along any sequence of events, [tasks{state}] for a state of
    [READY_STATES] goes up by exactly the number of events of that state in
    the sequence: every terminal event counts, with or without a uuid,
    tracked or not and however often it is repeated, and nothing else
    changes such a series. *)
Theorem ready_counter_counts_terminal_events s evts w :
  wf w → s ∈ READY_STATES →
  gauge_value (TASKS (prom (run evts w))) s =
    gauge_value (TASKS (prom w)) s + count_events s evts.
Proof.
  intros Hw Hs. revert w Hw. induction evts as [|evt evts IH]; intros w Hw.
  - unfold count_events. simpl. lia.
  - cbn [run foldl]. fold (run evts (_process_event evt w).2).
    rewrite IH by by apply wf_process_event.
    rewrite ready_gauge_step by done.
    unfold count_events. rewrite (filter_cons _ evt evts), !filter_cons, filter_nil.
    destruct (decide (event_state evt = Some s)); simpl; lia.
Qed.

Lemma ready_counter_counts_terminal_events_witness :
  let succeeded := make_event "task-succeeded" "id1" 2 None None in
  let received := make_event "task-received" "id1" 1 None None in
  gauge_value
    (TASKS (prom (run [received; succeeded; succeeded] (world_init 10)))) SUCCESS = 2.
Proof.
  intros succeeded received.
  rewrite (ready_counter_counts_terminal_events SUCCESS
             [received; succeeded; succeeded] (world_init 10)).
  - reflexivity.
  - apply wf_world_init.
  - vm_compute. reflexivity.
Defined.

(** ** Latency is observed once *)

Lemma latency_after_started evt id rec received w :
  wf w → event_state evt = Some STARTED → evt_uuid evt = Some id →
  evt_local_received evt = Some received →
  od_lookup id (data (tasks w)) = Some rec →
  LATENCY (prom (_process_event evt w).2) =
    LATENCY (prom w) ++
      (if decide (task_state rec = RECEIVED)
       then match task_local_received rec with
            | Some prev_received => [PrimFloat.sub received prev_received]
            | None => []
            end
       else []).
Proof.
  intros Hw Hevt Hid Hrecv Hk.
  rewrite (process_event_task evt STARTED) by done. rewrite bind_eq.
  pose proof (keeps_observe_latency evt w Hw) as (Hw1 & _ & _).
  rewrite decide_True in * by done.
  rewrite (observe_latency_hit evt id rec) in * by done. cbv zeta in *.
  rewrite Hrecv in *.
  destruct (decide (task_state rec = RECEIVED)).
  - destruct (task_local_received rec).
    + by rewrite latency_collect_tasks.
    + simpl. by rewrite app_nil_r.
  - rewrite latency_collect_tasks by done. simpl. by rewrite app_nil_r.
Qed.

Lemma Task_event_started_after_received evt rec :
  task_state rec = RECEIVED → task_state (Task_event STARTED evt rec) = STARTED.
Proof.
  intros Hs. unfold Task_event. rewrite Hs.
  unfold update_local_received, update_parent_id, update_name, update_state.
  by destruct (evt_name evt), (evt_parent_id evt), (evt_local_received evt).
Qed.

(** X20. A STARTED event for a task whose record is in state RECEIVED
    observes one latency and leaves the record in state STARTED, so a
    STARTED event that comes again for the same task observes nothing:
    after both, the histogram has gained the one observation of the
    first. *)
Theorem repeated_started_observes_once started again id rec received w :
  wf w →
  event_state started = Some STARTED → event_state again = Some STARTED →
  has_task_fields started → has_task_fields again →
  evt_uuid started = Some id → evt_uuid again = Some id →
  evt_local_received started = Some received →
  od_lookup id (data (tasks w)) = Some rec → task_state rec = RECEIVED →
  ∃ prev_received,
    task_local_received rec = Some prev_received ∧
    LATENCY (prom (run [started; again] w)) =
      LATENCY (prom w) ++ [PrimFloat.sub received prev_received].
Proof.
  intros Hw Hevt1 Hevt2 Hf1 Hf2 Hid1 Hid2 Hrecv Hk Hstate.
  destruct (tracked_record_good (limit (tasks w)) rec)
    as (Hpos & _ & [prev Hprev]).
  { apply (od_lookup_values _ _ _ _ (wf_records _ (wf_tasks _ Hw)) Hk). }
  { by rewrite Hstate. }
  exists prev. split; [done|].
  pose proof Hf2 as (_ & _ & _ & [received2 Hrecv2] & _).
  cbn [run foldl].
  pose proof (wf_process_event started w Hw) as Hw1.
  pose proof (latency_after_started started id rec received w Hw Hevt1 Hid1 Hrecv Hk)
    as HL1.
  rewrite decide_True, Hprev in HL1 by done.
  destruct (unready_tracked_step started STARTED id rec w) as (w1 & Hrun & _ & Hk1);
    [done|done|done|apply STARTED_not_ready|done..|].
  rewrite Hrun in *. simpl in *.
  rewrite (latency_after_started again id (Task_event STARTED started rec) received2)
    by done.
  rewrite decide_False, app_nil_r; [done|].
  by rewrite Task_event_started_after_received.
Qed.

Lemma repeated_started_observes_once_witness :
  let received := make_event "task-received" "id1" 10 None None in
  let started := make_event "task-started" "id1" 11.5 None None in
  let again := make_event "task-started" "id1" 14 None None in
  LATENCY (prom (run [started; again] (run [received] (world_init 10))))
    = [1.5%float].
Proof.
  intros received started again.
  destruct (repeated_started_observes_once started again "id1"
              {| task_state := RECEIVED; task_name := None;
                 task_local_received := Some 10%float;
                 task_parent_id := None |} 11.5
              (run [received] (world_init 10)))
    as (prev & Hprev & HL).
  - apply wf_run, wf_world_init.
  - reflexivity.
  - reflexivity.
  - repeat split; by eexists.
  - repeat split; by eexists.
  - reflexivity.
  - reflexivity.
  - reflexivity.
  - reflexivity.
  - reflexivity.
  - injection Hprev as <-. exact HL.
Defined.

(** ** A negative capacity *)

(** X21. With a negative [max_tasks_in_memory] the registry stays empty
    and no task is ever tracked: for an unready event with all its fields
    [LRUCache.__setitem__] looks for a record to drop in the empty cache,
    [_process_event] raises [StopIteration], and nothing has changed. *)
Theorem negative_capacity_tracks_nothing evt st id w :
  wf w → limit (tasks w) < 0 →
  event_state evt = Some st → st ∉ READY_STATES →
  has_task_fields evt → evt_uuid evt = Some id →
  data (tasks w) = [] ∧ _process_event evt w = (Raise StopIteration, w).
Proof.
  intros Hw Hneg Hevt Hst Hfields Hid.
  assert (data (tasks w) = []) as Hd.
  { destruct Hw as [[_ Hcap _] _ _ _].
    destruct (data (tasks w)); [done|simpl in Hcap; lia]. }
  split; [done|].
  rewrite (process_event_task evt st) by done. rewrite bind_eq.
  assert ((if decide (st = STARTED) then _observe_latency evt else mret tt) w
          = (Ok tt, w)) as ->.
  { case_decide; [|done]. apply observe_latency_miss.
    intros ? ?. by rewrite Hd. }
  unfold _collect_tasks. rewrite decide_False by done. rewrite bind_eq.
  rewrite (State_event_fields st evt id) by done.
  rewrite bind_eq, (get_or_create_task_miss id) by (by rewrite Hd).
  unfold LRUCache_setitem. rewrite Hd.
  rewrite !bool_decide_eq_true_2 by (simpl; lia). simpl.
  by rewrite set_tasks_tasks.
Qed.

Lemma negative_capacity_tracks_nothing_witness :
  let received := make_event "task-received" "id1" 1 None None in
  _process_event received (world_init (-1)) = (Raise StopIteration, world_init (-1)).
Proof.
  intros received.
  apply (negative_capacity_tracks_nothing received RECEIVED "id1" (world_init (-1))).
  - apply wf_world_init.
  - reflexivity.
  - reflexivity.
  - vm_compute. intros H. discriminate H.
  - repeat split; by eexists.
  - reflexivity.
Defined.
